(** * Livre: visibility ordering, frame setup and histogram aggregation

    A shallow embedding of the parts of Livre's Equalizer front end that
    order render bricks, prepare and render a frame
    ([RayCastRenderer::Impl]) and gather the per-node histograms of a frame
    ([EventHandler::Impl::gatherHistogram]), with the properties of these
    functions. *)

From Stdlib Require Import ZArith NArith List Bool Lia Permutation Sorted.
From Stdlib Require Import SpecFloat.
Import ListNotations.

Set Implicit Arguments.

(** ** Single precision floating point

    The C++ type [float] is IEEE-754 binary32: 24 bits of precision and
    infinities at exponent 128.  The operations are those of the Standard
    Library's executable specification ([SpecFloat]), round to nearest
    even. *)
Module Float32.

Definition prec : Z := 24.
Definition emax : Z := 128.

Definition float : Type := spec_float.

(** Conversion of an integer, as in [(float)n]. *)
Definition of_Z (z : Z) : float := binary_normalize prec emax z 0 false.

Definition add : float -> float -> float := SFadd prec emax.
Definition sub : float -> float -> float := SFsub prec emax.
Definition div : float -> float -> float := SFdiv prec emax.
Definition mul : float -> float -> float := SFmul prec emax.
Definition sqrt : float -> float := SFsqrt prec emax.
Definition abs : float -> float := SFabs.
Definition ltb : float -> float -> bool := SFltb.
Definition leb : float -> float -> bool := SFleb.

(** A decimal literal [num/den] (such as [0.0001f] = 1/10000), rounded to
    the nearest [float]: both integers are exact and the division rounds
    once. *)
Definition literal (num den : Z) : float := div (of_Z num) (of_Z den).

Definition is_nan (x : float) : bool :=
  match x with S754_nan => true | _ => false end.

(** [std::max(a, b)] is [(a < b) ? b : a]. *)
Definition max (a b : float) : float := if ltb a b then b else a.

(** Conversion to an unsigned integer truncates toward zero; it has no
    defined result on a NaN, an infinity, a negative value of magnitude 1 or
    more, or a value that does not fit [width] bits. *)
Definition to_unsigned (width : Z) (x : float) : option Z :=
  match x with
  | S754_zero _ => Some 0%Z
  | S754_finite s m e =>
      let mag := match e with
                 | Zneg p => Z.shiftr (Zpos m) (Zpos p)
                 | _ => Z.shiftl (Zpos m) e
                 end in
      if s then (if Z.eqb mag 0 then Some 0%Z else None)
      else if Z.ltb mag (2 ^ width) then Some mag else None
  | _ => None
  end.

(** The constants the code writes as literals. *)
Definition zero : float := of_Z 0.
Definition one : float := of_Z 1.
Definition half : float := literal 1 2.
Definition quarter : float := literal 1 4.

End Float32.

(** ** libstdc++'s [std::sort]

    The algorithm of [bits/stl_algo.h] and [bits/stl_heap.h]: an
    introsort over the range, with a heap sort where the recursion gets too
    deep, that leaves ranges of up to [_S_threshold] elements unsorted,
    and a final insertion sort.  The vector is a list, an iterator the
    index it points to, and a result of [None] is a read outside the
    vector, which C++ leaves undefined. *)
Module Libstdcxx.

Section Sort.

Variable A : Type.
Variable comp : A -> A -> bool.

Definition _S_threshold : nat := 16.

(** [*(begin + i) = x] *)
Fixpoint assign (v : list A) (i : nat) (x : A) : list A :=
  match v, i with
  | [], _ => []
  | _ :: t, O => x :: t
  | y :: t, S i' => y :: assign t i' x
  end.

Definition iter_swap (v : list A) (a b : nat) : option (list A) :=
  match nth_error v a, nth_error v b with
  | Some x, Some y => Some (assign (assign v a y) b x)
  | _, _ => None
  end.

Definition __move_median_to_first (v : list A) (result a b c : nat) : option (list A) :=
  match nth_error v a, nth_error v b, nth_error v c with
  | Some x, Some y, Some z =>
      if comp x y then
        if comp y z then iter_swap v result b
        else if comp x z then iter_swap v result c
        else iter_swap v result a
      else if comp x z then iter_swap v result a
      else if comp y z then iter_swap v result c
      else iter_swap v result b
  | _, _, _ => None
  end.

(** [while (__comp(__first, __pivot)) ++__first;] over the elements from
    [first] on. *)
Fixpoint scan_up (rest : list A) (pivot : A) (first : nat) : option nat :=
  match rest with
  | [] => None
  | x :: rest' => if comp x pivot then scan_up rest' pivot (S first) else Some first
  end.

(** [while (__comp(__pivot, __last)) --__last;] *)
Fixpoint scan_down (v : list A) (pivot : A) (last : nat) : option nat :=
  match nth_error v last with
  | None => None
  | Some x =>
      if comp pivot x then
        match last with
        | O => None
        | S last' => scan_down v pivot last'
        end
      else Some last
  end.

(** [__unguarded_partition]; [last] gets smaller with every turn of the
    loop, which bounds their number. *)
Fixpoint unguarded_partition_loop (turns : nat) (v : list A) (first last pivot : nat)
    : option (list A * nat) :=
  match turns, nth_error v pivot, last with
  | S turns', Some p, S last' =>
      match scan_up (skipn first v) p first with
      | None => None
      | Some first1 =>
          match scan_down v p last' with
          | None => None
          | Some last1 =>
              if negb (Nat.ltb first1 last1) then Some (v, first1)
              else
                match iter_swap v first1 last1 with
                | None => None
                | Some v' => unguarded_partition_loop turns' v' (S first1) last1 pivot
                end
          end
      end
  | _, _, _ => None
  end.

Definition __unguarded_partition (v : list A) (first last pivot : nat)
    : option (list A * nat) :=
  unguarded_partition_loop (S last) v first last pivot.

Definition __unguarded_partition_pivot (v : list A) (first last : nat)
    : option (list A * nat) :=
  let mid := (first + (last - first) / 2)%nat in
  match __move_median_to_first v first (first + 1) mid (last - 1) with
  | None => None
  | Some v' => __unguarded_partition v' (first + 1) last first
  end.

(** [__push_heap]: the hole moves up while the parent is less than the
    value. *)
Fixpoint push_heap_loop (turns : nat) (v : list A) (first holeIndex topIndex : nat)
    (value : A) : option (list A) :=
  let parent := ((holeIndex - 1) / 2)%nat in
  match nth_error v (first + parent) with
  | None => None
  | Some p =>
      if Nat.ltb topIndex holeIndex && comp p value then
        match turns with
        | O => None
        | S turns' =>
            push_heap_loop turns' (assign v (first + holeIndex) p) first parent topIndex value
        end
      else Some (assign v (first + holeIndex) value)
  end.

Definition __push_heap (v : list A) (first holeIndex topIndex : nat) (value : A)
    : option (list A) :=
  push_heap_loop holeIndex v first holeIndex topIndex value.

(** The loop of [__adjust_heap]: the hole moves down to the larger child. *)
Fixpoint adjust_heap_loop (turns : nat) (v : list A) (first holeIndex secondChild len : nat)
    : option (list A * nat * nat) :=
  if Nat.ltb secondChild ((len - 1) / 2) then
    match turns with
    | O => None
    | S turns' =>
        let secondChild := (2 * (secondChild + 1))%nat in
        match nth_error v (first + secondChild), nth_error v (first + (secondChild - 1)) with
        | Some r, Some l =>
            let secondChild := if comp r l then (secondChild - 1)%nat else secondChild in
            match nth_error v (first + secondChild) with
            | None => None
            | Some c =>
                adjust_heap_loop turns' (assign v (first + holeIndex) c) first
                                 secondChild secondChild len
            end
        | _, _ => None
        end
    end
  else Some (v, holeIndex, secondChild).

Definition __adjust_heap (v : list A) (first holeIndex len : nat) (value : A)
    : option (list A) :=
  let topIndex := holeIndex in
  match adjust_heap_loop len v first holeIndex holeIndex len with
  | None => None
  | Some (v, holeIndex, secondChild) =>
      if Nat.even len && Nat.eqb secondChild ((len - 2) / 2) then
        let secondChild := (2 * (secondChild + 1))%nat in
        match nth_error v (first + (secondChild - 1)) with
        | None => None
        | Some c =>
            __push_heap (assign v (first + holeIndex) c) first (secondChild - 1) topIndex value
        end
      else __push_heap v first holeIndex topIndex value
  end.

Definition __pop_heap (v : list A) (first last result : nat) : option (list A) :=
  match nth_error v result, nth_error v first with
  | Some value, Some top => __adjust_heap (assign v result top) first 0 (last - first) value
  | _, _ => None
  end.

Fixpoint make_heap_loop (v : list A) (first len parent : nat) : option (list A) :=
  match nth_error v (first + parent) with
  | None => None
  | Some value =>
      match __adjust_heap v first parent len value with
      | None => None
      | Some v' =>
          match parent with
          | O => Some v'
          | S parent' => make_heap_loop v' first len parent'
          end
      end
  end.

Definition __make_heap (v : list A) (first last : nat) : option (list A) :=
  if Nat.ltb (last - first) 2 then Some v
  else make_heap_loop v first (last - first) ((last - first - 2) / 2).

(** [__sort_heap], [turns] being [last - first]. *)
Fixpoint sort_heap_loop (turns : nat) (v : list A) (first last : nat) : option (list A) :=
  if Nat.ltb 1 (last - first) then
    match turns with
    | O => None
    | S turns' =>
        match __pop_heap v first (last - 1) (last - 1) with
        | None => None
        | Some v' => sort_heap_loop turns' v' first (last - 1)
        end
    end
  else Some v.

Definition __sort_heap (v : list A) (first last : nat) : option (list A) :=
  sort_heap_loop (last - first) v first last.

(** The loop of [__heap_select] over [i], [turns] being [last - i]. *)
Fixpoint heap_select_loop (turns : nat) (v : list A) (first middle i : nat)
    : option (list A) :=
  match turns with
  | O => Some v
  | S turns' =>
      match nth_error v i, nth_error v first with
      | Some x, Some top =>
          if comp x top then
            match __pop_heap v first middle i with
            | None => None
            | Some v' => heap_select_loop turns' v' first middle (S i)
            end
          else heap_select_loop turns' v first middle (S i)
      | _, _ => None
      end
  end.

Definition __heap_select (v : list A) (first middle last : nat) : option (list A) :=
  match __make_heap v first middle with
  | None => None
  | Some v' => heap_select_loop (last - middle) v' first middle middle
  end.

Definition __partial_sort (v : list A) (first middle last : nat) : option (list A) :=
  match __heap_select v first middle last with
  | None => None
  | Some v' => __sort_heap v' first middle
  end.

(** The loop of [__unguarded_linear_insert]: [val] goes down past the
    elements it is less than, with nothing to stop it at the start of the
    vector. *)
Fixpoint linear_insert_loop (v : list A) (val : A) (last : nat) : option (list A) :=
  match last with
  | O => None
  | S next =>
      match nth_error v next with
      | None => None
      | Some x =>
          if comp val x then linear_insert_loop (assign v last x) val next
          else Some (assign v last val)
      end
  end.

Definition __unguarded_linear_insert (v : list A) (last : nat) : option (list A) :=
  match nth_error v last with
  | None => None
  | Some val => linear_insert_loop v val last
  end.

(** [_GLIBCXX_MOVE_BACKWARD3(__first, __i, __i + 1)]: the elements of
    [first, i) move up by one. *)
Definition move_backward (v : list A) (first i : nat) : list A :=
  firstn (S first) v ++ firstn (i - first) (skipn first v) ++ skipn (S i) v.

(** The loop of [__insertion_sort] over [i], [turns] being [last - i]. *)
Fixpoint insertion_sort_loop (turns : nat) (v : list A) (first i : nat) : option (list A) :=
  match turns with
  | O => Some v
  | S turns' =>
      match nth_error v i, nth_error v first with
      | Some val, Some x =>
          if comp val x then
            insertion_sort_loop turns' (assign (move_backward v first i) first val) first (S i)
          else
            match __unguarded_linear_insert v i with
            | None => None
            | Some v' => insertion_sort_loop turns' v' first (S i)
            end
      | _, _ => None
      end
  end.

Definition __insertion_sort (v : list A) (first last : nat) : option (list A) :=
  if Nat.eqb first last then Some v
  else insertion_sort_loop (last - (first + 1)) v first (first + 1).

(** [__unguarded_insertion_sort], [turns] being [last - i]. *)
Fixpoint unguarded_insertion_sort_loop (turns : nat) (v : list A) (i : nat)
    : option (list A) :=
  match turns with
  | O => Some v
  | S turns' =>
      match __unguarded_linear_insert v i with
      | None => None
      | Some v' => unguarded_insertion_sort_loop turns' v' (S i)
      end
  end.

Definition __unguarded_insertion_sort (v : list A) (first last : nat) : option (list A) :=
  unguarded_insertion_sort_loop (last - first) v first.

Definition __final_insertion_sort (v : list A) (first last : nat) : option (list A) :=
  if Nat.ltb _S_threshold (last - first) then
    match __insertion_sort v first (first + _S_threshold) with
    | None => None
    | Some v' => __unguarded_insertion_sort v' (first + _S_threshold) last
    end
  else __insertion_sort v first last.

(** [__introsort_loop]: each turn of the [while] loop takes one from
    [depth_limit], and so does each level of the recursion. *)
Fixpoint __introsort_loop (depth_limit : nat) (v : list A) (first last : nat)
    : option (list A) :=
  if Nat.ltb _S_threshold (last - first) then
    match depth_limit with
    | O => __partial_sort v first last last
    | S depth_limit' =>
        match __unguarded_partition_pivot v first last with
        | None => None
        | Some (v', cut) =>
            match __introsort_loop depth_limit' v' cut last with
            | None => None
            | Some v'' => __introsort_loop depth_limit' v'' first cut
            end
        end
    end
  else Some v.

(** [std::__sort(v.begin(), v.end(), comp)], which [std::sort] calls. *)
Definition __sort (v : list A) : option (list A) :=
  match v with
  | [] => Some v
  | _ :: _ =>
      match __introsort_loop (Nat.log2 (List.length v) * 2) v 0 (List.length v) with
      | None => None
      | Some v' => __final_insertion_sort v' 0 (List.length v)
      end
  end.

End Sort.

(** *** Heaps

    What the heap functions of libstdc++ keep: the children of the element
    [i] of a heap are the elements [2 i + 1] and [2 i + 2], and the first
    [len] elements from [first] on are a heap from [top] on when no element
    at [top] or behind it is less than a child of it. *)
Definition heap_parent (c : nat) : nat := (c - 1) / 2.

Definition heap_from {A : Type} (comp : A -> A -> bool) (v : list A)
    (first len top : nat) : Prop :=
  forall c x y,
    (0 < c < len)%nat -> (top <= heap_parent c)%nat ->
    nth_error v (first + heap_parent c) = Some x -> nth_error v (first + c) = Some y ->
    comp x y = false.

(** A heap from [top] on but for a hole below [top]: the pairs of parent and
    child the hole is not part of are in order, and no child of the hole is
    greater than the parent of the hole. *)
Definition heap_with_hole {A : Type} (comp : A -> A -> bool) (v : list A)
    (first len top hole : nat) : Prop :=
  (top <= hole < len)%nat /\
  (exists k, Nat.iter k heap_parent hole = top) /\
  (forall c x y,
     (0 < c < len)%nat -> (top <= heap_parent c)%nat ->
     heap_parent c <> hole -> c <> hole ->
     nth_error v (first + heap_parent c) = Some x -> nth_error v (first + c) = Some y ->
     comp x y = false) /\
  ((top < hole)%nat ->
   forall c x y,
     (0 < c < len)%nat -> heap_parent c = hole ->
     nth_error v (first + heap_parent hole) = Some x -> nth_error v (first + c) = Some y ->
     comp x y = false).

(** The elements from [first + k] on, up to [first + len], are in order and
    not less than any element of the range before them. *)
Definition sorted_from {A : Type} (comp : A -> A -> bool) (v : list A)
    (first len k : nat) : Prop :=
  forall i j x y,
    (i < j < len)%nat -> (k <= j)%nat ->
    nth_error v (first + i) = Some x -> nth_error v (first + j) = Some y ->
    comp y x = false.

(** What a function working on the [len] elements from [first] on leaves
    alone: the length of the vector, the elements before [first] and those
    from [first + len] on. *)
Definition same_frame {A : Type} (v v0 : list A) (first len : nat) : Prop :=
  List.length v = List.length v0 /\
  firstn first v = firstn first v0 /\
  skipn (first + len) v = skipn (first + len) v0.

(** *** The range the final insertion sort can finish

    [__unguarded_insertion_sort] has nothing to stop it at the start of the
    vector: every element needs one that is not greater than it among the
    first [_S_threshold]. *)
Definition least_in_front {A : Type} (comp : A -> A -> bool) (mid : list A) : Prop :=
  forall x, In x mid ->
    exists m, In m (firstn _S_threshold mid) /\ comp x m = false.

End Libstdcxx.

(** ** The ray-cast renderer ([RayCastRenderer::Impl]) *)
Module RayCast.

(** *** Geometry *)

(** Modelled from the spec: vmml's vectors, boxes and matrices are not among
    the sources.  The center of a box is the midpoint of its corners, a
    model-view matrix transforms a point as an affine map (the point's
    fourth coordinate is 1), and the length of a vector is its Euclidean
    norm, all in single precision. *)
Record Vector3f : Type := mkVector3f
  { vx : Float32.float; vy : Float32.float; vz : Float32.float }.

Record Vector4f : Type := mkVector4f
  { cx : Float32.float; cy : Float32.float; cz : Float32.float; cw : Float32.float }.

Record Boxf : Type := mkBoxf { getMin : Vector3f; getMax : Vector3f }.

Record Matrix4f : Type := mkMatrix4f
  { row0 : Vector4f; row1 : Vector4f; row2 : Vector4f; row3 : Vector4f }.

Definition getCenter (b : Boxf) : Vector3f :=
  let mid lo hi := Float32.mul (Float32.add lo hi) Float32.half in
  mkVector3f (mid (vx (getMin b)) (vx (getMax b)))
             (mid (vy (getMin b)) (vy (getMax b)))
             (mid (vz (getMin b)) (vz (getMax b))).

Definition transform (m : Matrix4f) (v : Vector3f) : Vector3f :=
  let dot r :=
    Float32.add
      (Float32.add (Float32.add (Float32.mul (cx r) (vx v)) (Float32.mul (cy r) (vy v)))
                   (Float32.mul (cz r) (vz v)))
      (cw r) in
  mkVector3f (dot (row0 m)) (dot (row1 m)) (dot (row2 m)).

Definition length (v : Vector3f) : Float32.float :=
  Float32.sqrt
    (Float32.add (Float32.add (Float32.mul (vx v) (vx v)) (Float32.mul (vy v) (vy v)))
                 (Float32.mul (vz v) (vz v))).

(** *** The data source *)

(** Modelled from the spec: a [NodeId] is the key of one brick (refinement
    level and position packed into one integer, [getId]). *)
Definition NodeId : Type := N.
Definition NodeIds : Type := list NodeId.
Definition getId (rb : NodeId) : N := rb.

Record LODNode : Type := mkLODNode
  { getNodeId : NodeId;
    getRefLevel : N;
    getWorldBox : Boxf }.

(** [enum DataType]; [DT_other] stands for any other value a variable of
    the enumeration can hold. *)
Inductive DataType : Type :=
  | DT_FLOAT | DT_UINT8 | DT_UINT16 | DT_UINT32
  | DT_INT8 | DT_INT16 | DT_INT32
  | DT_UNDEFINED
  | DT_other (raw : N).

(** What the renderer reads of [VolumeInformation]: the element type, the
    size of the volume in voxels and the depth of the octree
    ([rootNode.getDepth()]). *)
Record VolumeInformation : Type := mkVolumeInformation
  { dataType : DataType;
    voxels : N * N * N;
    getDepth : N }.

Record DataSource : Type := mkDataSource
  { getNode : NodeId -> LODNode;
    getVolumeInfo : VolumeInformation }.

Record Frustum : Type := mkFrustum { getMVMatrix : Matrix4f }.

(** *** Ordering the bricks *)

Definition distance (dataSource : DataSource) (frustum : Frustum) (rb : NodeId)
    : Float32.float :=
  length (transform (getMVMatrix frustum) (getCenter (getWorldBox (getNode dataSource rb)))).

(** [DistanceOperator::operator()]. *)
Definition DistanceOperator (dataSource : DataSource) (frustum : Frustum)
    (rb1 rb2 : NodeId) : bool :=
  Float32.ltb (distance dataSource frustum rb1) (distance dataSource frustum rb2).

(** [std::sort(first, last, comp)] asks for a [comp] that is a strict weak
    ordering of the elements of the range, and then rearranges the range so
    that it is sorted with respect to [comp]: no element compares less than
    one that precedes it.  The C++ standard fixes neither the algorithm nor
    the order of elements that are equivalent under [comp], so the call is
    described by the results it may leave; with a [comp] that is no strict
    weak ordering its behaviour is undefined, and nothing is said of what
    it leaves. *)
Definition sorted_by {A : Type} (comp : A -> A -> bool) (l : list A) : Prop :=
  ForallOrdPairs (fun a b => comp b a = false) l.

(** Two elements are equivalent under [comp] when neither is less than the
    other. *)
Definition equivalent {A : Type} (comp : A -> A -> bool) (a b : A) : bool :=
  negb (comp a b) && negb (comp b a).

(** [comp] is a strict weak ordering of the elements of [l]: irreflexive and
    transitive, with a transitive equivalence. *)
Definition strict_weak_ordering {A : Type} (comp : A -> A -> bool) (l : list A) : Prop :=
  (forall a, In a l -> comp a a = false) /\
  (forall a b c, In a l -> In b l -> In c l ->
     comp a b = true -> comp b c = true -> comp a c = true) /\
  (forall a b c, In a l -> In b l -> In c l ->
     equivalent comp a b = true -> equivalent comp b c = true ->
     equivalent comp a c = true).

Definition std_sort {A : Type} (comp : A -> A -> bool) (input output : list A) : Prop :=
  strict_weak_ordering comp input ->
  Permutation input output /\ sorted_by comp output.

(** [RayCastRenderer::Impl::order]: [rbs] is a value the function may
    return for [bricks]. *)
Definition order (dataSource : DataSource) (frustum : Frustum)
    (bricks rbs : NodeIds) : Prop :=
  std_sort (DistanceOperator dataSource frustum) bricks rbs.

(** [order] with the [std::sort] of libstdc++: what it returns, if the
    sort stays inside the vector. *)
Definition order_libstdcxx (dataSource : DataSource) (frustum : Frustum)
    (bricks : NodeIds) : option NodeIds :=
  Libstdcxx.__sort (DistanceOperator dataSource frustum) bricks.

(** A sort is stable when each class of equivalent elements comes out in
    the order it came in. *)
Definition stable {A : Type} (comp : A -> A -> bool) (input output : list A) : Prop :=
  forall a, In a input ->
    filter (equivalent comp a) output = filter (equivalent comp a) input.

(** An insertion sort, one algorithm [std::sort] may run. *)
Fixpoint insert_sorted {A : Type} (comp : A -> A -> bool) (a : A) (l : list A) : list A :=
  match l with
  | [] => [a]
  | b :: t => if comp a b then a :: l else b :: insert_sorted comp a t
  end.

Fixpoint insertion_sort {A : Type} (comp : A -> A -> bool) (l : list A) : list A :=
  match l with
  | [] => []
  | a :: t => insert_sorted comp a (insertion_sort comp t)
  end.

(** The stable sort: each element in turn, from the first on, is put behind
    the elements that are not greater than it. *)
Definition stable_sort {A : Type} (comp : A -> A -> bool) (l : list A) : list A :=
  fold_left (fun sorted a => insert_sorted comp a sorted) l [].

(** *** Frame setup *)

Definition maxSamplesPerRay : N := 32.
Definition minSamplesPerRay : N := 512.
Definition nVerticesRenderBrick : nat := 36.

Definition SH_UINT : N := 0.
Definition SH_INT : N := 1.
Definition SH_FLOAT : N := 2.

Definition uint32_mod : Z := 2 ^ 32.

(** The exceptions [LBTHROW(std::runtime_error(...))] raises: [Can't load
    glsl shaders: ...] with the GL error, and [Unsupported type in the
    shader.] *)
Inductive runtime_error : Type :=
  | CantLoadShaders (error : N)
  | UnsupportedType.

(** The result of a member function: it returns, throws, or runs into
    behaviour C++ leaves undefined. *)
Inductive Outcome (A : Type) : Type :=
  | Done (a : A)
  | Throw (e : runtime_error)
  | Undefined.

Arguments Done {A} a.
Arguments Throw {A} e.
Arguments Undefined {A}.

(** The members of [RayCastRenderer::Impl] the modelled functions use;
    [drawArrays] records the [glDrawArrays(GL_TRIANGLES, first, count)]
    calls issued. *)
Record Impl : Type := mkImpl
  { _nSamplesPerRay : N;
    _computedSamplesPerRay : N;
    _usedTextures1 : list N;
    _visibleNodes : NodeIds;
    _dataSource : DataSource;
    _dataSourceRange : Float32.float * Float32.float;
    drawArrays : list (nat * nat) }.



(** [update]: the configured samples per ray and the range of the transfer
    function are taken from the frame data. *)
Definition update (impl : Impl) (samplesPerRay : N)
    (range : Float32.float * Float32.float) : Impl :=
  mkImpl samplesPerRay samplesPerRay (_usedTextures1 impl) (_visibleNodes impl)
         (_dataSource impl) range (drawArrays impl).

(** The loop over the render bricks that finds the finest level. *)
Definition findMaxLOD (dataSource : DataSource) (renderBricks : NodeIds) : N :=
  fold_left
    (fun maxLOD rb =>
       let level := getRefLevel (getNode dataSource rb) in
       if N.ltb maxLOD level then level else maxLOD)
    renderBricks 0%N.

Definition find_max (v : N * N * N) : N :=
  let '(a, b, c) := v in N.max (N.max a b) c.

(** [1u << s]: undefined for [s >= 32]. *)
Definition shift_one (s : Z) : option Z :=
  if Z.ltb s 32 then Some (Z.shiftl 1 s) else None.

(** The sampling rate found when [_nSamplesPerRay == 0]; the subtraction is
    one of [uint32_t]. *)
Definition findSamplingRate (volInfo : VolumeInformation) (dataSource : DataSource)
    (renderBricks : NodeIds) : option N :=
  let maxLOD := findMaxLOD dataSource renderBricks in
  let maxVoxelDim := Float32.of_Z (Z.of_N (find_max (voxels volInfo))) in
  let s := ((Z.of_N (getDepth volInfo) - Z.of_N maxLOD - 1) mod uint32_mod)%Z in
  match shift_one s with
  | None => None
  | Some d =>
      let maxVoxelsAtLOD := Float32.div maxVoxelDim (Float32.of_Z d) in
      option_map Z.to_N
        (Float32.to_unsigned 32
           (Float32.max maxVoxelsAtLOD (Float32.of_Z (Z.of_N minSamplesPerRay))))
  end.

Definition float_min : Float32.float := S754_finite false 8388608 (-149).
Definition float_max : Float32.float := S754_finite false 16777215 104.

(** The [switch] over the element type: the full range of the type and the
    kind of sampler the shader uses. *)
Definition shaderType (t : DataType)
    : Outcome (Float32.float * Float32.float * N) :=
  let range lo hi := (Float32.of_Z lo, Float32.of_Z hi) in
  match t with
  | DT_UINT8 => Done (range 0 255, SH_UINT)
  | DT_UINT16 => Done (range 0 65535, SH_UINT)
  | DT_UINT32 => Done (range 0 4294967295, SH_UINT)
  | DT_FLOAT => Done ((float_min, float_max), SH_FLOAT)
  | DT_INT8 => Done (range (-128) 127, SH_INT)
  | DT_INT16 => Done (range (-32768) 32767, SH_INT)
  | DT_INT32 => Done (range (-2147483648) 2147483647, SH_INT)
  | DT_UNDEFINED => Throw UnsupportedType
  | DT_other _ => Throw UnsupportedType
  end%Z.

(** The uniforms [onFrameStart] hands to the ray-cast program that depend on
    the modelled state. *)
Record Uniforms : Type := mkUniforms
  { u_nSamplesPerRay : N;
    u_maxSamplesPerRay : N;
    u_datatype : N;
    u_dataSourceRange : Float32.float * Float32.float }.

(** [onFrameStart], up to the uniforms: the state it leaves, and whether it
    returned or threw. *)
Definition onFrameStart (impl : Impl) (renderBricks : NodeIds)
    : Impl * Outcome Uniforms :=
  let dataSource := _dataSource impl in
  let computed :=
    if N.eqb (_nSamplesPerRay impl) 0
    then findSamplingRate (getVolumeInfo dataSource) dataSource renderBricks
    else Some (_computedSamplesPerRay impl) in
  match computed with
  | None => (impl, Undefined)
  | Some n =>
      let own := _dataSourceRange impl in
      let impl' :=
        mkImpl (_nSamplesPerRay impl) n (_usedTextures1 impl) (_visibleNodes impl)
               dataSource own (drawArrays impl) in
      match shaderType (dataType (getVolumeInfo dataSource)) with
      | Throw e => (impl', Throw e)
      | Undefined => (impl', Undefined)
      | Done (fullRange, shaderDataType) =>
          let zero := Float32.of_Z 0 in
          let dataSourceRange :=
            if Float32.ltb zero (snd own)
               && Float32.ltb zero (Float32.sub (snd own) (fst own))
            then own else fullRange in
          (impl', Done (mkUniforms n maxSamplesPerRay shaderDataType dataSourceRange))
      end
  end.

(** *** Rendering the bricks *)

Record TextureState : Type := mkTextureState { textureId : N }.

(** The texture cache, as [get] answers: the cached texture object of an
    id, or a null pointer. *)
Definition Cache : Type := N -> option TextureState.

Section Render.

(** The texture id that marks a texture state without a texture; its value
    is declared outside the sources. *)
Variable INVALID_TEXTURE_ID : N.

Variable textureCache : Cache.

(** [renderBrick]: dereferencing the null pointer of a brick that is not in
    the cache is undefined; a brick without texture is reported and
    skipped; any other is listed as visible and drawn. *)
Definition renderBrick (impl : Impl) (rb : NodeId) (index : nat) : option Impl :=
  match textureCache (getId rb) with
  | None => None
  | Some texState =>
      if N.eqb (textureId texState) INVALID_TEXTURE_ID then Some impl
      else
        Some (mkImpl (_nSamplesPerRay impl) (_computedSamplesPerRay impl)
                     (_usedTextures1 impl ++ [textureId texState])
                     (_visibleNodes impl ++ [rb])
                     (_dataSource impl) (_dataSourceRange impl)
                     (drawArrays impl
                        ++ [(index * nVerticesRenderBrick, nVerticesRenderBrick)%nat]))
  end.

(** The loop [for (const NodeId& brick : bricks) renderBrick(brick, index++, posVBO)]. *)
Fixpoint renderBricks (impl : Impl) (bricks : NodeIds) (index : nat) : option Impl :=
  match bricks with
  | [] => Some impl
  | brick :: rest =>
      match renderBrick impl brick index with
      | None => None
      | Some impl' => renderBricks impl' rest (S index)
      end
  end.

(** [onFrameRender]. *)
Definition onFrameRender (impl : Impl) (bricks : NodeIds) : option Impl :=
  renderBricks
    (mkImpl (_nSamplesPerRay impl) (_computedSamplesPerRay impl) (_usedTextures1 impl)
            [] (_dataSource impl) (_dataSourceRange impl) (drawArrays impl))
    bricks 0.

(** A brick is cached when [get] answers with an object, and textured when
    that object carries a valid texture id. *)
Definition cached (rb : NodeId) : Prop := textureCache (getId rb) <> None.

Definition textured (rb : NodeId) : bool :=
  match textureCache (getId rb) with
  | Some texState => negb (N.eqb (textureId texState) INVALID_TEXTURE_ID)
  | None => false
  end.

(** The positions, counted from [index], of the textured bricks of a list. *)
Fixpoint textured_positions (bricks : NodeIds) (index : nat) : list nat :=
  match bricks with
  | [] => []
  | brick :: rest =>
      if textured brick then index :: textured_positions rest (S index)
      else textured_positions rest (S index)
  end.

End Render.

(** [RayCastRenderer::getVisibleNodes]. *)
Definition getVisibleNodes (impl : Impl) : NodeIds := _visibleNodes impl.

(** The element types the [switch] of [onFrameStart] handles. *)
Definition supported (t : DataType) : bool :=
  match t with
  | DT_UNDEFINED | DT_other _ => false
  | _ => true
  end.

(** The draw call for the brick at position [index] of the vertex buffer:
    its 36 vertices. *)
Definition draw_of (index : nat) : nat * nat :=
  (index * nVerticesRenderBrick, nVerticesRenderBrick)%nat.

(** The distance of the brick is a number. *)
Definition measurable (dataSource : DataSource) (frustum : Frustum) (rb : NodeId)
    : Prop :=
  Float32.is_nan (distance dataSource frustum rb) = false.

(** *** Sample data *)

(** The box of side 2 centered at [(x, 0, 0)]. *)
Definition unit_box_at (x : Z) : Boxf :=
  mkBoxf (mkVector3f (Float32.of_Z (x - 1)) (Float32.of_Z (-1)) (Float32.of_Z (-1)))
         (mkVector3f (Float32.of_Z (x + 1)) (Float32.of_Z 1) (Float32.of_Z 1)).

(** Two bricks on opposite sides of the viewpoint, both at distance 1:
    brick 1 around [(1, 0, 0)], every other brick around [(-1, 0, 0)]. *)
Definition two_bricks : DataSource :=
  mkDataSource
    (fun rb => if N.eqb rb 1 then mkLODNode rb 1 (unit_box_at 1)
               else mkLODNode rb 1 (unit_box_at (-1)))
    (mkVolumeInformation DT_UINT8 (256, 256, 256)%N 2).

(** The frustum whose model-view matrix is the identity. *)
Definition identity_view : Frustum :=
  let o := Float32.of_Z 0 in
  let i := Float32.of_Z 1 in
  mkFrustum (mkMatrix4f (mkVector4f i o o o) (mkVector4f o i o o)
                        (mkVector4f o o i o) (mkVector4f o o o i)).

(** A cache with textures for the bricks 1 and 3 and an object without
    texture for brick 2, the invalid id being [0]. *)
Definition sample_cache : Cache :=
  fun cacheId =>
    if N.eqb cacheId 2 then Some (mkTextureState 0)
    else Some (mkTextureState (cacheId + 10)).

(** A renderer with automatic sampling that has rendered nothing yet. *)
Definition blank (dataSource : DataSource) : Impl :=
  mkImpl 0 0 [] [] dataSource (Float32.of_Z 0, Float32.of_Z 0) [].


(** A volume of 4096 x 1024 x 512 voxels in an octree of depth 4, the brick
    rendered being at level 3. *)
Definition deep_volume : DataSource :=
  mkDataSource (fun rb => mkLODNode rb 3 (unit_box_at 1))
               (mkVolumeInformation DT_UINT8 (4096, 1024, 512)%N 4).

(** *** The vertex buffer *)

(** [createBrick]: the twelve triangles of the brick's world box, two for
    each face, appended to [positions]. *)
Definition createBrick (lodNode : LODNode) (positions : list Vector3f) : list Vector3f :=
  let worldBox := getWorldBox lodNode in
  let minPos := getMin worldBox in
  let maxPos := getMax worldBox in
  let emplace_back x y z := mkVector3f (vx x) (vy y) (vz z) in
  positions ++
  [ (* BACK *)
    emplace_back maxPos minPos minPos; emplace_back minPos minPos minPos;
    emplace_back minPos maxPos minPos;
    emplace_back minPos maxPos minPos; emplace_back maxPos maxPos minPos;
    emplace_back maxPos minPos minPos;
    (* FRONT *)
    emplace_back maxPos maxPos maxPos; emplace_back minPos maxPos maxPos;
    emplace_back minPos minPos maxPos;
    emplace_back minPos minPos maxPos; emplace_back maxPos minPos maxPos;
    emplace_back maxPos maxPos maxPos;
    (* LEFT *)
    emplace_back minPos maxPos minPos; emplace_back minPos minPos minPos;
    emplace_back minPos minPos maxPos;
    emplace_back minPos minPos maxPos; emplace_back minPos maxPos maxPos;
    emplace_back minPos maxPos minPos;
    (* RIGHT *)
    emplace_back maxPos maxPos maxPos; emplace_back maxPos minPos maxPos;
    emplace_back maxPos minPos minPos;
    emplace_back maxPos minPos minPos; emplace_back maxPos maxPos minPos;
    emplace_back maxPos maxPos maxPos;
    (* BOTTOM *)
    emplace_back maxPos minPos maxPos; emplace_back minPos minPos maxPos;
    emplace_back minPos minPos minPos;
    emplace_back minPos minPos minPos; emplace_back maxPos minPos minPos;
    emplace_back maxPos minPos maxPos;
    (* TOP *)
    emplace_back maxPos maxPos minPos; emplace_back minPos maxPos minPos;
    emplace_back minPos maxPos maxPos;
    emplace_back minPos maxPos maxPos; emplace_back maxPos maxPos maxPos;
    emplace_back maxPos maxPos minPos ].

(** [createAndFillVertexBuffer]: the positions it stores in the buffer
    object it returns. *)
Definition createAndFillVertexBuffer (impl : Impl) (renderBricks : NodeIds)
    : list Vector3f :=
  fold_left (fun positions rb => createBrick (getNode (_dataSource impl) rb) positions)
            renderBricks [].

(** The vertices [glDrawArrays(GL_TRIANGLES, first, count)] reads from the
    buffer bound. *)
Definition drawn (buffer : list Vector3f) (call : nat * nat) : list Vector3f :=
  firstn (snd call) (skipn (fst call) buffer).

(** The vertices of the world box of a brick, as [createBrick] lists them. *)
Definition box_vertices (dataSource : DataSource) (rb : NodeId) : list Vector3f :=
  createBrick (getNode dataSource rb) [].

(** A corner of a box: each coordinate is that of the minimum or of the
    maximum. *)
Definition corner (b : Boxf) (v : Vector3f) : Prop :=
  (vx v = vx (getMin b) \/ vx v = vx (getMax b)) /\
  (vy v = vy (getMin b) \/ vy v = vy (getMax b)) /\
  (vz v = vz (getMin b) \/ vz v = vz (getMax b)).

(** *** The end of the frame *)

(** The texture ids [renderBrick] appends to [_usedTextures[1]] for the
    bricks of a list. *)
Definition used_textures (INVALID_TEXTURE_ID : N) (textureCache : Cache)
    (bricks : NodeIds) : list N :=
  flat_map
    (fun rb =>
       match textureCache (getId rb) with
       | Some texState =>
           if N.eqb (textureId texState) INVALID_TEXTURE_ID then []
           else [textureId texState]
       | None => []
       end)
    bricks.

(** [copyTexToFrameBufAndClear]: the two triangles of the full-screen quad
    are drawn. *)
Definition copyTexToFrameBufAndClear (impl : Impl) : Impl :=
  mkImpl (_nSamplesPerRay impl) (_computedSamplesPerRay impl) (_usedTextures1 impl)
         (_visibleNodes impl) (_dataSource impl) (_dataSourceRange impl)
         (drawArrays impl ++ [(0, 6)%nat]).

(** [onFrameEnd]: the axes are drawn if asked for, [_usedTextures[1]] is
    sorted with [<] on [uint32_t], swapped into [_usedTextures[0]] and
    cleared, and the render texture is copied to the frame buffer.
    [_usedTextures[0]], the textures of the last frame, is read by no other
    function and is not a field of [Impl] above; [last] is what it holds
    when [onFrameEnd] returns.  Neither is the flag [_drawAxis], which
    [update] takes from the frame data, and [BoundingAxis] is not among the
    sources: [drawAxis] is the flag, and [axis] the
    [glDrawArrays(GL_TRIANGLES, ...)] calls of [_axis.draw()]. *)
Definition onFrameEnd (drawAxis : bool) (axis : list (nat * nat)) (impl : Impl)
    (last : list N) (impl' : Impl) : Prop :=
  std_sort N.ltb (_usedTextures1 impl) last /\
  impl' = copyTexToFrameBufAndClear
            (mkImpl (_nSamplesPerRay impl) (_computedSamplesPerRay impl) []
                    (_visibleNodes impl) (_dataSource impl) (_dataSourceRange impl)
                    (drawArrays impl ++ if drawAxis then axis else [])).

(** *** Bricks at different distances *)

(** Any two different bricks of the list are at distances of which one is
    less than the other. *)
Definition distinct_distances (dataSource : DataSource) (frustum : Frustum)
    (bricks : NodeIds) : bool :=
  forallb
    (fun a =>
       forallb
         (fun b => N.eqb a b || DistanceOperator dataSource frustum a b
                   || DistanceOperator dataSource frustum b a)
         bricks)
    bricks.

(** Bricks in a row: brick [rb] around [(rb, 0, 0)]. *)
Definition row_of_bricks : DataSource :=
  mkDataSource (fun rb => mkLODNode rb 1 (unit_box_at (Z.of_N rb)))
               (mkVolumeInformation DT_UINT8 (256, 256, 256)%N 2).

(** The row with a brick 9 whose box has no bounds along the first axis:
    the center of the box, and with it the distance of the brick, is not a
    number. *)
Definition row_with_unbounded_brick : DataSource :=
  mkDataSource
    (fun rb =>
       if N.eqb rb 9
       then mkLODNode rb 1
              (mkBoxf (mkVector3f (S754_infinity true) (Float32.of_Z (-1)) (Float32.of_Z (-1)))
                      (mkVector3f (S754_infinity false) (Float32.of_Z 1) (Float32.of_Z 1)))
       else mkLODNode rb 1 (unit_box_at (Z.of_N rb)))
    (mkVolumeInformation DT_UINT8 (256, 256, 256)%N 2).

End RayCast.

(** ** Histograms *)

(** Modelled from the spec: livre's [Histogram] class (its bins, [+=] and
    [==]) is not among the sources.  A histogram is its vector of buckets;
    [+=] is the bucket-wise sum and [==] compares the buckets.  Buckets are
    of a fixed width, so both operands of a sum have the same length; on
    operands of different lengths the extra buckets of the longer one are
    kept. *)
Definition Histogram : Type := list N.

Fixpoint hist_add (h1 h2 : Histogram) : Histogram :=
  match h1, h2 with
  | [], _ => h2
  | _, [] => h1
  | b1 :: t1, b2 :: t2 => (b1 + b2)%N :: hist_add t1 t2
  end.

Fixpoint hist_eqb (h1 h2 : Histogram) : bool :=
  match h1, h2 with
  | [], [] => true
  | b1 :: t1, b2 :: t2 => N.eqb b1 b2 && hist_eqb t1 t2
  | _, _ => false
  end.

(** The sum of a list of histograms. *)
Definition hist_sum (hs : list Histogram) : Histogram := fold_right hist_add [] hs.

(** ** The histogram aggregator ([EventHandler::Impl]) *)
Module Aggregator.

(** [class ViewHistogram]: the partial histogram of one frame, the share of
    the frame's area it covers and the frame id ([uint32_t], only ever
    compared). *)
Record ViewHistogram : Type := mkViewHistogram
  { histogram : Histogram;
    area : Float32.float;
    id : N }.

(** [ViewHistogram::operator+=].  The argument is always the local
    [viewHistogram] of [gatherHistogram], never the element itself, so the
    self-assignment guard does not fire. *)
Definition merge (data hist : ViewHistogram) : ViewHistogram :=
  {| histogram := hist_add (histogram data) (histogram hist);
     area := Float32.add (area data) (area hist);
     id := id data |}.

(** [const float eps = 0.0001f] *)
Definition eps : Float32.float := Float32.literal 1 10000.

(** [ViewHistogram::isComplete]: [std::abs(1.0f - area) <= eps]. *)
Definition isComplete (v : ViewHistogram) : bool :=
  Float32.leb (Float32.abs (Float32.sub Float32.one (area v))) eps.

(** Modelled from the spec: [livre::Config] is not among the sources.  Of
    the configuration the aggregator reads the histogram last set
    ([getHistogram]) and the latency ([getLatency]); [setHistogram] stores
    a histogram and [publish] sends it (where ZeroEQ is compiled in),
    recorded here in the order sent. *)
Record Config : Type := mkConfig
  { getHistogram : Histogram;
    getLatency : nat;
    published : list Histogram }.

Definition setHistogram (h : Histogram) (c : Config) : Config :=
  {| getHistogram := h; getLatency := getLatency c; published := published c |}.

Definition publish (h : Histogram) (c : Config) : Config :=
  {| getHistogram := getHistogram c; getLatency := getLatency c;
     published := published c ++ [h] |}.

(** The state of [EventHandler::Impl] that [gatherHistogram] works on. *)
Record Impl : Type := mkImpl
  { config : Config;
    histogramQueue : list ViewHistogram }.

(** [histogramQueue.back()], when there is one. *)
Fixpoint back (q : list ViewHistogram) : option ViewHistogram :=
  match q with
  | [] => None
  | [x] => Some x
  | _ :: t => back t
  end.

(** [!histogramQueue.empty() && currentId < histogramQueue.back().id] *)
Definition stale (q : list ViewHistogram) (currentId : N) : bool :=
  match back q with
  | Some b => N.ltb currentId (id b)
  | None => false
  end.

(** [if (config.getHistogram() != h) { config.setHistogram(h); config.publish(h); }] *)
Definition send (h : Histogram) (c : Config) : Config :=
  if hist_eqb (getHistogram c) h then c else publish h (setHistogram h c).

(** How the [for] loop of [gatherHistogram] is left: by its [return], with
    the final state, or by [break] or exhaustion, with the queue as the
    code after the loop finds it (the loop changes the configuration only
    before returning). *)
Inductive LoopExit : Type :=
  | Returned (s : Impl)
  | FellThrough (q : list ViewHistogram).

Section Gather.

(** [auto& data = *it] is bound before [histogramQueue.emplace(it, ...)].
    An insertion at the front of a [std::deque] leaves references to its
    elements valid, so there [data] still denotes the element that was at
    [it], now second.  An insertion elsewhere invalidates them; what [data]
    then denotes depends on the side the implementation shifts (libstdc++
    moves the shorter side, so [data] denotes the old element in the front
    half and the new one in the back half).  [data_sees_new index size]
    says whether, after an insertion at [index > 0] into a queue of [size]
    elements, [data] denotes the inserted element. *)
Variable data_sees_new : nat -> nat -> bool.

(** The loop over the queue: [visited] are the elements before [it], [rest]
    those from [it] on. *)
Fixpoint gather_loop (c : Config) (viewHistogram : ViewHistogram)
    (visited rest : list ViewHistogram) : LoopExit :=
  match rest with
  | [] => FellThrough visited
  | data :: older =>
      let currentId := id viewHistogram in
      if N.eqb currentId (id data) then
        let data' := merge data viewHistogram in
        if isComplete data' then
          Returned (mkImpl (send (histogram data') c) visited)
        else FellThrough (visited ++ data' :: older)
      else if N.ltb (id data) currentId then
        let index := length visited in
        let seen :=
          if match index with O => false | S _ => data_sees_new index (index + length rest) end
          then viewHistogram else data in
        if isComplete seen then
          Returned (mkImpl (send (histogram seen) c) visited)
        else FellThrough (visited ++ viewHistogram :: data :: older)
      else
        if isComplete data then
          Returned (mkImpl (send (histogram data) c) visited)
        else gather_loop c viewHistogram (visited ++ [data]) older
  end.

(** [EventHandler::Impl::gatherHistogram]. *)
Definition gatherHistogram (impl : Impl) (histogram : Histogram) (area : Float32.float)
    (currentId : N) : Impl :=
  let q := histogramQueue impl in
  let c := config impl in
  if stale q currentId then impl
  else
    let viewHistogram := mkViewHistogram histogram area currentId in
    match gather_loop c viewHistogram [] q with
    | Returned s => s
    | FellThrough q' =>
        match q' with
        | [] =>
            if isComplete viewHistogram then mkImpl (send histogram c) q'
            else mkImpl c [viewHistogram]
        | _ :: _ =>
            if isComplete viewHistogram then mkImpl (send histogram c) q'
            else if Nat.ltb (getLatency c + 1) (length q')
                 then mkImpl c (removelast q')
                 else mkImpl c q'
        end
    end.

(** A contribution as it arrives with a [HISTOGRAM_DATA] event: histogram,
    area and frame id. *)
Definition Contribution : Type := Histogram * Float32.float * N.

Definition gather (impl : Impl) (x : Contribution) : Impl :=
  let '(h, a, i) := x in gatherHistogram impl h a i.

(** A run of [gatherHistogram] over the contributions of a list, in the
    order they arrive. *)
Definition gatherAll (impl : Impl) (arrivals : list Contribution) : Impl :=
  fold_left gather arrivals impl.

(** The states the aggregator goes through in such a run: the one it starts
    from and the one after each arrival. *)
Fixpoint states (impl : Impl) (arrivals : list Contribution) : list Impl :=
  impl :: match arrivals with
          | [] => []
          | x :: later => states (gather impl x) later
          end.

End Gather.

(** The contributions of one frame: each a histogram and an area. *)
Definition Partial : Type := Histogram * Float32.float.

Definition tagged (frame : N) (parts : list Partial) : list Contribution :=
  map (fun p => (fst p, snd p, frame)) parts.

Definition alone (frame : N) (p : Partial) : ViewHistogram :=
  mkViewHistogram (fst p) (snd p) frame.

(** The entry of a frame after its parts were merged one after the other. *)
Definition merged (frame : N) (first : Partial) (rest : list Partial) : ViewHistogram :=
  fold_left (fun data p => merge data (alone frame p)) rest (alone frame first).

(** No part of the list is complete on its own, and merging them in this
    order is not complete before the last one is merged. *)
Fixpoint waits_from (frame : N) (data : ViewHistogram) (rest : list Partial) : bool :=
  match rest with
  | [] => true
  | p :: later =>
      negb (isComplete (alone frame p))
      && match later with
         | [] => true
         | _ :: _ =>
             negb (isComplete (merge data (alone frame p)))
             && waits_from frame (merge data (alone frame p)) later
         end
  end.

Definition waits_for_last (frame : N) (parts : list Partial) : bool :=
  match parts with
  | [] => true
  | first :: rest =>
      negb (isComplete (alone frame first)) && waits_from frame (alone frame first) rest
  end.

(** Whether the parts, merged in this order, make a complete frame. *)
Definition completes (frame : N) (parts : list Partial) : bool :=
  match parts with
  | [] => false
  | first :: rest => isComplete (merged frame first rest)
  end.

(** libstdc++'s [deque]: an insertion at [index < size / 2] shifts the
    elements before it, any other the elements from it on. *)
Definition libstdcxx_deque (index size : nat) : bool :=
  negb (Nat.ltb index (Nat.div size 2)).

(** The aggregator before the first contribution. *)
Definition initial (latency : nat) : Impl :=
  mkImpl (mkConfig [] latency []) [].

(** An entry the loop passes over: newer than the contribution and not
    complete. *)
Definition passed_over (currentId : N) (data : ViewHistogram) : Prop :=
  (currentId < id data)%N /\ isComplete data = false.

(** *** Invariants *)

(** The frame ids descend strictly from the front of the queue to its
    back. *)
Definition descending (q : list ViewHistogram) : Prop :=
  StronglySorted (fun newer older => (older < newer)%N) (map id q).

(** No histogram is published twice in a row. *)
Fixpoint no_repeat (sent : list Histogram) : Prop :=
  match sent with
  | [] => True
  | h :: later =>
      match later with
      | [] => True
      | h' :: _ => h <> h'
      end /\ no_repeat later
  end.

(** The histogram of the configuration is the one published last. *)
Definition last_published (c : Config) : Prop :=
  published c = [] \/ exists earlier, published c = earlier ++ [getHistogram c].

(** *** Sample data *)

(** Runs with libstdc++'s deque, two histograms of four buckets, and two
    parts that cover a frame between them. *)
Definition run : Impl -> list Contribution -> Impl := gatherAll libstdcxx_deque.

Definition h1 : Histogram := [3; 1; 0; 2]%N.
Definition h2 : Histogram := [1; 0; 4; 1]%N.

Definition most : Partial := (h1, Float32.literal 16383 16384).
Definition sliver : Partial := (h2, Float32.literal 1 16384).

(** *** Runs of parts *)

(** The contribution is not complete by itself. *)
Definition is_part (x : Contribution) : bool :=
  let '(h, a, i) := x in negb (isComplete (mkViewHistogram h a i)).

(** No entry of the queue is complete. *)
Definition waiting (q : list ViewHistogram) : Prop :=
  Forall (fun data => isComplete data = false) q.

(** The queue holds at most [latency + 1] entries. *)
Definition within_latency (impl : Impl) : Prop :=
  (List.length (histogramQueue impl) <= getLatency (config impl) + 1)%nat.

End Aggregator.

(** * Properties *)

(** ** Facts about single precision comparison and addition *)
Module Float32Facts.

Import Float32.

Ltac cmp_cases :=
  repeat match goal with
  | |- context [Z.compare ?a ?b] => destruct (Z.compare_spec a b)
  | H : context [Z.compare ?a ?b] |- _ => destruct (Z.compare_spec a b)
  | |- context [Pos.compare ?a ?b] => destruct (Pos.compare_spec a b)
  | H : context [Pos.compare ?a ?b] |- _ => destruct (Pos.compare_spec a b)
  end.

Lemma compare_antisym (x y : float) :
  SFcompare y x = option_map CompOpp (SFcompare x y).
Proof.
  destruct x as [sx|sx| |sx mx ex], y as [sy|sy| |sy my ey]; simpl;
    try reflexivity;
    try (destruct sx; reflexivity); try (destruct sy; reflexivity);
    try (destruct sx, sy; reflexivity).
  change (Pos.compare_cont Eq my mx) with (Pos.compare my mx).
  change (Pos.compare_cont Eq mx my) with (Pos.compare mx my).
  rewrite (Z.compare_antisym ex ey), (Pos.compare_antisym mx my).
  destruct sx, sy; simpl; try reflexivity;
    destruct (Z.compare ex ey); simpl; try reflexivity;
    destruct (Pos.compare mx my); reflexivity.
Qed.

Lemma compare_defined (x y : float) :
  is_nan x = false -> is_nan y = false -> exists c, SFcompare x y = Some c.
Proof.
  destruct x, y; simpl; intros; try discriminate; eexists; reflexivity.
Qed.

Lemma ltb_asym (x y : float) : ltb x y = true -> ltb y x = false.
Proof.
  unfold ltb, SFltb. rewrite (compare_antisym x y).
  destruct (SFcompare x y) as [[]|]; simpl; congruence.
Qed.

Lemma ltb_trans (x y z : float) :
  ltb x y = true -> ltb y z = true -> ltb x z = true.
Proof.
  unfold ltb, SFltb.
  destruct x as [sx|sx| |sx mx ex], y as [sy|sy| |sy my ey], z as [sz|sz| |sz mz ez];
    simpl; try discriminate; try reflexivity;
    try (destruct sx; simpl; try discriminate; try reflexivity);
    try (destruct sy; simpl; try discriminate; try reflexivity);
    try (destruct sz; simpl; try discriminate; try reflexivity).
  all: change (Pos.compare_cont Eq) with Pos.compare; intros H1 H2;
    cmp_cases; simpl in *; try discriminate; try reflexivity; subst; lia.
Qed.

(** Among numbers, "not greater" is "less or equal". *)
Lemma not_ltb_leb (x y : float) :
  is_nan x = false -> is_nan y = false -> ltb y x = false -> leb x y = true.
Proof.
  intros Hx Hy. unfold ltb, leb, SFltb, SFleb. rewrite (compare_antisym x y).
  destruct (compare_defined x y Hx Hy) as [c ->]. destruct c; simpl; congruence.
Qed.

Lemma add_comm (x y : float) : add x y = add y x.
Proof.
  unfold add.
  destruct x as [sx|sx| |sx mx ex], y as [sy|sy| |sy my ey]; simpl;
    try reflexivity; try (destruct sx, sy; reflexivity).
  rewrite (Z.min_comm ey ex). f_equal. apply Z.add_comm.
Qed.

(** Two numbers neither of which is less than the other compare as equal. *)
Lemma not_ltb_compare (x y : Float32.float) :
  Float32.is_nan x = false -> Float32.is_nan y = false ->
  Float32.ltb x y = false -> Float32.ltb y x = false -> SFcompare x y = Some Eq.
Proof.
  intros Hx Hy. unfold Float32.ltb, SFltb. rewrite (compare_antisym x y).
  destruct (compare_defined x y Hx Hy) as [c ->]. destruct c; simpl; congruence.
Qed.

Lemma compare_eq_trans (x y z : Float32.float) :
  SFcompare x y = Some Eq -> SFcompare y z = Some Eq -> SFcompare x z = Some Eq.
Proof.
  destruct x as [sx|sx| |sx mx ex], y as [sy|sy| |sy my ey], z as [sz|sz| |sz mz ez];
    simpl; try discriminate; try reflexivity;
    try (destruct sx; simpl; try discriminate; try reflexivity);
    try (destruct sy; simpl; try discriminate; try reflexivity);
    try (destruct sz; simpl; try discriminate; try reflexivity).
  all: change (Pos.compare_cont Eq) with Pos.compare; intros H1 H2;
    cmp_cases; simpl in *; try discriminate; try reflexivity; subst; lia.
Qed.

Lemma nan_not_ltb (x y : Float32.float) :
  Float32.is_nan x = true -> Float32.ltb x y = false /\ Float32.ltb y x = false.
Proof.
  destruct x; try discriminate. intros _. split; [reflexivity|].
  destruct y; reflexivity.
Qed.

(** Being neither less nor greater is transitive through a number. *)
Lemma not_ltb_trans (x y z : Float32.float) :
  Float32.is_nan y = false ->
  Float32.ltb x y = false -> Float32.ltb y x = false ->
  Float32.ltb y z = false -> Float32.ltb z y = false ->
  Float32.ltb x z = false /\ Float32.ltb z x = false.
Proof.
  intros Hy Hxy Hyx Hyz Hzy.
  destruct (Float32.is_nan x) eqn:Hx; [now apply nan_not_ltb|].
  destruct (Float32.is_nan z) eqn:Hz.
  { destruct (nan_not_ltb z x Hz). now split. }
  pose proof (compare_eq_trans _ _ _ (not_ltb_compare x y Hx Hy Hxy Hyx)
                (not_ltb_compare y z Hy Hz Hyz Hzy)) as Hxz.
  unfold Float32.ltb, SFltb. rewrite (compare_antisym x z), Hxz. split; reflexivity.
Qed.

(** *** Integers in single precision *)

Local Open Scope Z_scope.

Lemma digits2_pos_bounds (p : positive) :
  2 ^ (Zpos (digits2_pos p) - 1) <= Zpos p < 2 ^ Zpos (digits2_pos p).
Proof.
  assert (Hstep : forall d, 0 < d -> 2 ^ d = 2 * 2 ^ (d - 1)).
  { intros d Hd. rewrite <- Z.pow_succ_r by lia. f_equal. lia. }
  induction p as [p IH|p IH|]; simpl digits2_pos.
  - rewrite Pos2Z.inj_succ.
    replace (Z.succ (Zpos (digits2_pos p)) - 1) with (Zpos (digits2_pos p)) by lia.
    rewrite Z.pow_succ_r by lia.
    rewrite (Hstep (Zpos (digits2_pos p))) in * by lia. lia.
  - rewrite Pos2Z.inj_succ.
    replace (Z.succ (Zpos (digits2_pos p)) - 1) with (Zpos (digits2_pos p)) by lia.
    rewrite Z.pow_succ_r by lia.
    rewrite (Hstep (Zpos (digits2_pos p))) in * by lia. lia.
  - simpl. lia.
Qed.

Lemma iter_xO_value (p n : positive) : Zpos (Pos.iter xO p n) = Zpos p * 2 ^ Zpos n.
Proof.
  revert p. induction n as [|n IH] using Pos.peano_ind; intros p.
  - simpl. lia.
  - rewrite Pos.iter_succ, Pos2Z.inj_succ, Z.pow_succ_r by lia.
    rewrite Pos2Z.inj_xO, IH. lia.
Qed.

Lemma iter_xO_digits (p n : positive) :
  digits2_pos (Pos.iter xO p n) = (digits2_pos p + n)%positive.
Proof.
  revert p. induction n as [|n IH] using Pos.peano_ind; intros p.
  - simpl. lia.
  - rewrite Pos.iter_succ. simpl. rewrite IH. lia.
Qed.

Lemma shr_fexp_exact (m : positive) (e : Z) :
  digits2_pos m = 24%positive -> -149 <= e ->
  shr_fexp prec emax (Zpos m) e loc_Exact
  = ({| shr_m := Zpos m; shr_r := false; shr_s := false |}, e).
Proof.
  intros Hd He. unfold shr_fexp, fexp, emin, prec, emax, Zdigits2. rewrite Hd.
  match goal with |- shr _ _ ?n = _ => replace n with 0 by lia end.
  reflexivity.
Qed.

(** Rounding a mantissa of 24 digits at an exponent in range changes nothing. *)
Lemma binary_round_aux_exact (s : bool) (m : positive) (e : Z) :
  digits2_pos m = 24%positive -> -149 <= e <= 104 ->
  binary_round_aux prec emax s (Zpos m) e loc_Exact = S754_finite s m e.
Proof.
  intros Hd He. unfold binary_round_aux.
  rewrite (@shr_fexp_exact m e Hd) by lia.
  cbn [shr_m loc_of_shr_record round_nearest_even].
  rewrite (@shr_fexp_exact m e Hd) by lia.
  cbn [shr_m]. unfold prec, emax.
  replace (e <=? 128 - 24) with true by (symmetry; apply Z.leb_le; lia).
  reflexivity.
Qed.

(** The conversion of a positive integer of at most 24 binary digits. *)
Lemma of_Z_small (p : positive) :
  (digits2_pos p <= 24)%positive ->
  exists m, of_Z (Zpos p) = S754_finite false m (Zpos (digits2_pos p) - 24)
            /\ digits2_pos m = 24%positive
            /\ Zpos m = Zpos p * 2 ^ (24 - Zpos (digits2_pos p)).
Proof.
  intros Hd. unfold of_Z, binary_normalize, binary_round, shl_align, fexp, emin, prec, emax.
  replace (Z.max (Zpos (digits2_pos p) + 0 - 24) (3 - 128 - 24) - 0)
    with (Zpos (digits2_pos p) - 24) by lia.
  replace (Z.max (Zpos (digits2_pos p) + 0 - 24) (3 - 128 - 24))
    with (Zpos (digits2_pos p) - 24) by lia.
  destruct (Zpos (digits2_pos p) - 24) as [|q|q] eqn:Hq; try lia.
  - exists p. split; [|split].
    + apply binary_round_aux_exact; [lia|lia].
    + lia.
    + replace (24 - Zpos (digits2_pos p)) with 0 by lia. lia.
  - exists (Pos.iter xO p q). split; [|split].
    + apply binary_round_aux_exact; [rewrite iter_xO_digits; lia|lia].
    + rewrite iter_xO_digits. lia.
    + rewrite iter_xO_value. f_equal. f_equal. lia.
Qed.

Lemma div_eucl_pair (a b : Z) : Z.div_eucl a b = (a / b, a mod b).
Proof. unfold Z.div, Z.modulo. now destruct (Z.div_eucl a b). Qed.

(** Dividing by a power of two only moves the exponent. *)
Lemma div_pow2 (m : positive) (e e2 : Z) :
  digits2_pos m = 24%positive -> -148 <= e - e2 - 23 <= 104 ->
  div (S754_finite false m e) (S754_finite false 8388608 e2)
  = S754_finite false m (e - e2 - 23).
Proof.
  intros Hd He. unfold div, SFdiv, SFdiv_core_binary, fexp, emin, prec, emax, Zdigits2.
  rewrite Hd. change (digits2_pos 8388608) with 24%positive.
  replace (Z.min (Z.max (24 + e - (24 + e2) - 24) (3 - 128 - 24)) (e - e2))
    with (e - e2 - 24) by lia.
  replace (e - e2 - (e - e2 - 24)) with 24 by lia.
  rewrite div_eucl_pair, Z.shiftl_mul_pow2 by lia.
  replace (Zpos m * 2 ^ 24) with (Zpos m~0 * 8388608) by (change (2 ^ 24) with 16777216; lia).
  rewrite Z.div_mul, Z.mod_mul by lia.
  change (new_location 8388608 0) with loc_Exact. change (xorb false false) with false.
  unfold binary_round_aux.
  assert (Hfirst : shr_fexp 24 128 (Zpos m~0) (e - e2 - 24) loc_Exact
                   = ({| shr_m := Zpos m; shr_r := false; shr_s := false |}, e - e2 - 23)).
  { unfold shr_fexp, fexp, emin, Zdigits2. simpl digits2_pos. rewrite Hd.
    match goal with |- shr _ _ ?n = _ => replace n with 1 by lia end.
    unfold shr. simpl. f_equal. lia. }
  rewrite Hfirst. cbn [shr_m loc_of_shr_record round_nearest_even].
  change (shr_fexp 24 128) with (shr_fexp prec emax).
  rewrite (@shr_fexp_exact m (e - e2 - 23) Hd) by lia.
  cbn [shr_m].
  replace (e - e2 - 23 <=? 128 - 24) with true by (symmetry; apply Z.leb_le; lia).
  reflexivity.
Qed.

Lemma of_Z_pow2 (s : Z) :
  0 <= s < 32 -> of_Z (Z.shiftl 1 s) = S754_finite false 8388608 (s - 23).
Proof.
  intros Hs.
  destruct s as [|p|p]; [reflexivity| |lia].
  repeat match goal with q : positive |- _ => destruct q; try lia end;
    vm_compute; reflexivity.
Qed.

Lemma ltb_512 (m : positive) (e : Z) :
  digits2_pos m = 24%positive ->
  ltb (S754_finite false m e) (S754_finite false 8388608 (-14)) = (e <? -14).
Proof.
  intros Hd. unfold ltb, SFltb, SFcompare.
  destruct (Z.compare_spec e (-14)) as [->|Hlt|Hgt].
  - change (Pos.compare_cont Eq m 8388608) with (Pos.compare m 8388608).
    pose proof (digits2_pos_bounds m) as Hb. rewrite Hd in Hb.
    change (2 ^ (24 - 1)) with 8388608 in Hb.
    destruct (Pos.compare_spec m 8388608); try reflexivity. lia.
  - symmetry. apply Z.ltb_lt. lia.
  - symmetry. apply Z.ltb_ge. lia.
Qed.

(** The sampling rate in integers: for a volume of fewer than [2^24] voxels
    along its longest axis, the single precision computation yields the
    larger of 512 and the quotient, rounded down. *)
Lemma sampling_value (v s : Z) :
  0 <= v < 2 ^ 24 -> 0 <= s < 32 ->
  to_unsigned 32 (max (div (of_Z v) (of_Z (Z.shiftl 1 s))) (of_Z 512))
  = Some (Z.max (v / 2 ^ s) 512).
Proof.
  intros Hv Hs. rewrite of_Z_pow2 by exact Hs.
  change (of_Z 512) with (S754_finite false 8388608 (-14)).
  destruct v as [|p|p]; [| |lia].
  - rewrite Z.div_0_l by (apply Z.pow_nonzero; lia). reflexivity.
  - pose proof (digits2_pos_bounds p) as Hb.
    set (d := Zpos (digits2_pos p)) in *.
    assert (Hd24 : d <= 24).
    { destruct (Z.le_gt_cases d 24) as [|Hgt]; [assumption|].
      assert (2 ^ 24 <= 2 ^ (d - 1)) by (apply Z.pow_le_mono_r; lia). lia. }
    destruct (@of_Z_small p) as (m & Hof & Hm & Hval); [unfold d in Hd24; lia|].
    fold d in Hof, Hval. rewrite Hof.
    rewrite div_pow2 by (try exact Hm; lia).
    replace (d - 24 - (s - 23) - 23) with (d - 24 - s) by lia.
    unfold max. rewrite ltb_512 by exact Hm.
    assert (Hsplit : 2 ^ (s + 9) = 2 ^ s * 512).
    { rewrite Z.pow_add_r by lia. reflexivity. }
    assert (Hpos : 0 < 2 ^ s) by (apply Z.pow_pos_nonneg; lia).
    destruct (d - 24 - s <? -14) eqn:Hcmp.
    + apply Z.ltb_lt in Hcmp.
      assert (2 ^ d <= 2 ^ (s + 9)) by (apply Z.pow_le_mono_r; lia).
      assert (Zpos p / 2 ^ s < 512) by (apply Z.div_lt_upper_bound; lia).
      rewrite Z.max_r by lia. reflexivity.
    + apply Z.ltb_ge in Hcmp.
      assert (2 ^ (s + 9) <= 2 ^ (d - 1)) by (apply Z.pow_le_mono_r; lia).
      assert (512 <= Zpos p / 2 ^ s) by (apply Z.div_le_lower_bound; lia).
      rewrite Z.max_l by lia.
      assert (Hmag : match d - 24 - s with
                     | Zneg q => Z.shiftr (Zpos m) (Zpos q)
                     | _ => Z.shiftl (Zpos m) (d - 24 - s)
                     end = Zpos p / 2 ^ s).
      { destruct (d - 24 - s) as [|q|q] eqn:He; [| lia |].
        - rewrite Z.shiftl_0_r, Hval.
          replace (24 - d) with 0 by lia. replace s with 0 by lia.
          rewrite Z.pow_0_r, Z.mul_1_r, Z.div_1_r. reflexivity.
        - rewrite Z.shiftr_div_pow2, Hval by lia.
          replace (Zpos q) with ((24 - d) + s) by lia.
          rewrite Z.pow_add_r by lia.
          rewrite (Z.mul_comm (2 ^ (24 - d)) (2 ^ s)).
          apply Z.div_mul_cancel_r; [lia|]. apply Z.pow_nonzero; lia. }
      unfold to_unsigned. rewrite Hmag.
      assert (Zpos p / 2 ^ s <= Zpos p) by (apply Z.div_le_upper_bound; nia).
      replace (Zpos p / 2 ^ s <? 2 ^ 32) with true; [reflexivity|].
      symmetry. apply Z.ltb_lt. change (2 ^ 32) with 4294967296.
      change (2 ^ 24) with 16777216 in Hv. lia.
Qed.

Local Close Scope Z_scope.

End Float32Facts.

(** ** libstdc++'s sort *)
Module LibstdcxxFacts.

Import Libstdcxx RayCast.

Section Ordering.

Variable A : Type.
Variable comp : A -> A -> bool.

Lemma strict_weak_ordering_incl (l l' : list A) :
  incl l' l -> strict_weak_ordering comp l -> strict_weak_ordering comp l'.
Proof.
  intros Hi (Hirr & Htr & Heq). split; [|split].
  - intros a Ha. apply Hirr. now apply Hi.
  - intros a b c Ha Hb Hc. apply Htr; now apply Hi.
  - intros a b c Ha Hb Hc. apply Heq; now apply Hi.
Qed.

Lemma swo_asym (l : list A) (a b : A) :
  strict_weak_ordering comp l -> In a l -> In b l ->
  comp a b = true -> comp b a = false.
Proof.
  intros (Hirr & Htr & _) Ha Hb Hab. destruct (comp b a) eqn:Hba; [|reflexivity].
  rewrite <- (Hirr a Ha). symmetry. now apply Htr with b.
Qed.

(** What is less than [b] is less than everything [b] is not greater
    than. *)
Lemma swo_less_below (l : list A) (x y b : A) :
  strict_weak_ordering comp l -> In x l -> In y l -> In b l ->
  comp x b = true -> comp y b = false -> comp x y = true.
Proof.
  intros Hswo Hx Hy Hb Hxb Hyb. pose proof Hswo as (Hirr & Htr & Heq).
  destruct (comp x y) eqn:Hxy; [reflexivity|].
  assert (Hyx : comp y x = false).
  { destruct (comp y x) eqn:H; [|reflexivity].
    rewrite <- Hyb. symmetry. now apply Htr with x. }
  assert (Hby : comp b y = false).
  { destruct (comp b y) eqn:H; [|reflexivity].
    rewrite <- Hxy. symmetry. now apply Htr with b. }
  assert (Heqv : equivalent comp x b = true).
  { apply Heq with y; auto; unfold equivalent; [now rewrite Hxy, Hyx|now rewrite Hyb, Hby]. }
  unfold equivalent in Heqv. rewrite Hxb in Heqv. discriminate.
Qed.

(** What is not greater than something not greater than [b] is not greater
    than [b]. *)
Lemma swo_not_greater_trans (l : list A) (x y b : A) :
  strict_weak_ordering comp l -> In x l -> In y l -> In b l ->
  comp y x = false -> comp b y = false -> comp b x = false.
Proof.
  intros Hswo Hx Hy Hb Hyx Hby.
  destruct (comp b x) eqn:Hbx; [|reflexivity].
  rewrite <- Hby. symmetry. now apply (@swo_less_below l b y x).
Qed.

Lemma sorted_by_app (l1 l2 : list A) :
  sorted_by comp (l1 ++ l2) <->
  sorted_by comp l1 /\ sorted_by comp l2
  /\ Forall (fun a => Forall (fun b => comp b a = false) l2) l1.
Proof.
  unfold sorted_by. induction l1 as [|a t IH]; simpl.
  - split; [intros H; repeat split; auto; constructor|tauto].
  - split.
    + intros H. inversion H as [|? ? Ha Ht]; subst.
      apply IH in Ht. destruct Ht as (Ht1 & Ht2 & Hc).
      apply Forall_app in Ha. destruct Ha as [Ha1 Ha2].
      repeat split; auto; constructor; auto.
    + intros (H1 & H2 & Hc). inversion H1 as [|? ? Ha Ht]; subst.
      inversion Hc as [|? ? Hca Hct]; subst.
      constructor; [apply Forall_app; auto|apply IH; auto].
Qed.

(** Where [insert_sorted] puts an element in a sorted list: behind the
    elements that are not greater, in front of those that are. *)
Lemma insert_sorted_split (l s : list A) (x : A) :
  strict_weak_ordering comp l -> incl s l -> In x l -> sorted_by comp s ->
  exists pre suf,
    s = pre ++ suf /\
    Forall (fun y => comp x y = false) pre /\
    Forall (fun y => comp x y = true) suf /\
    insert_sorted comp x s = pre ++ x :: suf.
Proof.
  intros Hswo Hs Hx. induction s as [|b t IH]; intros Hsorted.
  - exists [], []. repeat split; constructor.
  - inversion Hsorted as [|? ? Hb Ht]; subst.
    assert (Hbl : In b l) by (apply Hs; now left).
    assert (Htl : incl t l) by (intros y Hy; apply Hs; now right).
    simpl. destruct (comp x b) eqn:Hxb.
    + exists [], (b :: t). repeat split; [constructor|].
      constructor; [exact Hxb|]. rewrite Forall_forall in *. intros y Hy.
      apply (@swo_less_below l x y b); auto.
    + destruct (IH Htl Ht) as (pre & suf & -> & Hpre & Hsuf & Hins).
      exists (b :: pre), suf. rewrite Hins. repeat split; auto.
Qed.

Lemma insert_sorted_sorted_in (l s : list A) (x : A) :
  strict_weak_ordering comp l -> incl s l -> In x l -> sorted_by comp s ->
  sorted_by comp (insert_sorted comp x s).
Proof.
  intros Hswo Hs Hx Hsorted.
  destruct (@insert_sorted_split l s x Hswo Hs Hx Hsorted) as (pre & suf & -> & Hpre & Hsuf & ->).
  apply sorted_by_app in Hsorted. destruct Hsorted as (H1 & H2 & Hc).
  change (x :: suf) with ([x] ++ suf).
  apply sorted_by_app. split; [exact H1|]. split.
  - apply sorted_by_app. split; [repeat constructor|]. split; [exact H2|].
    constructor; [|constructor]. rewrite Forall_forall in *. intros y Hy.
    apply (@swo_asym l x y); auto. apply Hs. apply in_or_app. now right.
  - rewrite Forall_forall in *. intros a Ha. apply Forall_app. split.
    + constructor; [now apply Hpre|constructor].
    + now apply Hc.
Qed.

Lemma insert_sorted_in (x y : A) (s : list A) :
  In y (insert_sorted comp x s) <-> y = x \/ In y s.
Proof.
  induction s as [|b t IH]; simpl.
  - intuition.
  - destruct (comp x b); simpl; rewrite ?IH; intuition.
Qed.

Lemma insert_sorted_length (x : A) (s : list A) :
  List.length (insert_sorted comp x s) = S (List.length s).
Proof.
  induction s as [|b t IH]; simpl; [reflexivity|].
  destruct (comp x b); simpl; [reflexivity|now rewrite IH].
Qed.

Lemma insert_sorted_permutation (x : A) (s : list A) :
  Permutation (x :: s) (insert_sorted comp x s).
Proof.
  induction s as [|b t IH]; simpl.
  - apply Permutation_refl.
  - destruct (comp x b).
    + apply Permutation_refl.
    + eapply perm_trans; [apply perm_swap|]. now apply perm_skip.
Qed.

(** Inserting the elements of [rest] one after the other. *)
Lemma fold_insert_sorted (l rest s : list A) :
  strict_weak_ordering comp l -> incl (s ++ rest) l -> sorted_by comp s ->
  let out := fold_left (fun sorted a => insert_sorted comp a sorted) rest s in
  Permutation (s ++ rest) out /\ sorted_by comp out /\
  (forall a, In a l ->
     filter (equivalent comp a) out
     = filter (equivalent comp a) s ++ filter (equivalent comp a) rest).
Proof.
  intros Hswo. revert s. induction rest as [|x t IH]; intros s Hin Hsorted; simpl.
  - rewrite app_nil_r. repeat split; auto. intros a _. now rewrite app_nil_r.
  - assert (Hx : In x l) by (apply Hin; apply in_or_app; right; now left).
    assert (Hs : incl s l) by (intros y Hy; apply Hin; apply in_or_app; now left).
    assert (Hin' : incl (insert_sorted comp x s ++ t) l).
    { intros y Hy. apply in_app_or in Hy. destruct Hy as [Hy|Hy].
      - apply insert_sorted_in in Hy. destruct Hy as [->|Hy]; auto.
      - apply Hin. apply in_or_app. right. now right. }
    destruct (IH (insert_sorted comp x s) Hin'
                (@insert_sorted_sorted_in l s x Hswo Hs Hx Hsorted)) as (Hp & Hso & Hst).
    split; [|split; [exact Hso|]].
    + eapply perm_trans; [|exact Hp].
      eapply perm_trans; [apply Permutation_sym, Permutation_middle|].
      apply (Permutation_app_tail t (insert_sorted_permutation x s)).
    + intros a Ha. rewrite (Hst a Ha).
      destruct (@insert_sorted_split l s x Hswo Hs Hx Hsorted)
        as (pre & suf & Heq & Hpre & Hsuf & Hins).
      rewrite Hins, Heq, !filter_app. simpl.
      destruct (equivalent comp a x) eqn:Hax; [|now rewrite <- !app_assoc].
      assert (Hnone : filter (equivalent comp a) suf = []).
      { assert (Hsufl : incl suf l).
        { intros y Hy. apply Hs. rewrite Heq. apply in_or_app. now right. }
        clear - Hswo Hx Ha Hax Hsuf Hsufl.
        induction suf as [|y suf' IHs]; [reflexivity|]. simpl.
        inversion Hsuf as [|? ? Hxy Hrest]; subst.
        assert (Hy : In y l) by (apply Hsufl; now left).
        destruct (equivalent comp a y) eqn:Hay.
        - exfalso. pose proof Hswo as (_ & _ & Htr).
          assert (Hxa : equivalent comp x a = true).
          { unfold equivalent in *. now rewrite andb_comm. }
          pose proof (Htr x a y Hx Ha Hy Hxa Hay) as Hxye.
          unfold equivalent in Hxye. rewrite Hxy in Hxye. discriminate.
        - apply IHs; [exact Hrest|]. intros z Hz. apply Hsufl. now right. }
      rewrite Hnone. simpl. now rewrite <- !app_assoc.
Qed.

(** *** The vector as a list *)

Lemma nth_error_middle (pre : list A) (w : A) (rest : list A) :
  nth_error (pre ++ w :: rest) (List.length pre) = Some w.
Proof. induction pre as [|y t IH]; [reflexivity|exact IH]. Qed.

Lemma assign_middle (pre : list A) (w x : A) (rest : list A) :
  assign (pre ++ w :: rest) (List.length pre) x = pre ++ x :: rest.
Proof. induction pre as [|y t IH]; [reflexivity|]. simpl. now rewrite IH. Qed.

Lemma assign_length (v : list A) (i : nat) (x : A) :
  List.length (assign v i x) = List.length v.
Proof.
  revert i. induction v as [|y t IH]; intros [|i]; simpl; auto.
Qed.

Lemma firstn_exact (l r : list A) : firstn (List.length l) (l ++ r) = l.
Proof. induction l as [|y t IH]; [reflexivity|]. simpl. now rewrite IH. Qed.

Lemma skipn_exact (l r : list A) : skipn (List.length l) (l ++ r) = r.
Proof. induction l as [|y t IH]; [reflexivity|exact IH]. Qed.

(** *** The insertion sort *)

(** The next element moved to the front of the sorted elements. *)
Lemma move_backward_front (s rest : list A) (a0 x : A) :
  assign (move_backward ((a0 :: s) ++ x :: rest) 0 (List.length (a0 :: s))) 0 x
  = x :: (a0 :: s) ++ rest.
Proof.
  assert (Hrest : skipn (S (List.length (a0 :: s))) ((a0 :: s) ++ x :: rest) = rest).
  { replace ((a0 :: s) ++ x :: rest) with (((a0 :: s) ++ [x]) ++ rest)
      by (rewrite <- app_assoc; reflexivity).
    replace (S (List.length (a0 :: s))) with (List.length ((a0 :: s) ++ [x]))
      by (rewrite length_app; simpl; lia).
    apply skipn_exact. }
  unfold move_backward. rewrite Hrest, Nat.sub_0_r.
  change (skipn 0 ((a0 :: s) ++ x :: rest)) with ((a0 :: s) ++ x :: rest).
  rewrite firstn_exact. reflexivity.
Qed.

(** [__unguarded_linear_insert] stops behind the last element the value is
    not less than. *)
Lemma linear_insert_loop_stops (suf pre rest : list A) (z w val : A) :
  comp val z = false -> Forall (fun y => comp val y = true) suf ->
  linear_insert_loop comp ((pre ++ [z]) ++ suf ++ w :: rest) val
                     (List.length (pre ++ [z]) + List.length suf)
  = Some ((pre ++ [z]) ++ val :: suf ++ rest).
Proof.
  intros Hz. revert w rest. induction suf as [|y suf IH] using rev_ind; intros w rest Hsuf.
  - cbn [app List.length]. rewrite Nat.add_0_r.
    replace (List.length (pre ++ [z])) with (S (List.length pre))
      by (rewrite length_app; simpl; lia).
    cbn [linear_insert_loop].
    replace ((pre ++ [z]) ++ w :: rest) with (pre ++ z :: w :: rest)
      by (rewrite <- app_assoc; reflexivity).
    rewrite nth_error_middle, Hz. f_equal.
    replace (pre ++ z :: w :: rest) with ((pre ++ [z]) ++ w :: rest)
      by (rewrite <- app_assoc; reflexivity).
    replace (S (List.length pre)) with (List.length (pre ++ [z]))
      by (rewrite length_app; simpl; lia).
    apply assign_middle.
  - apply Forall_app in Hsuf. destruct Hsuf as [Hsuf Hy].
    inversion Hy as [|? ? Hvy _]; subst.
    replace (List.length (pre ++ [z]) + List.length (suf ++ [y]))%nat
      with (S (List.length ((pre ++ [z]) ++ suf)))
      by (rewrite !length_app; simpl; lia).
    cbn [linear_insert_loop].
    replace ((pre ++ [z]) ++ (suf ++ [y]) ++ w :: rest)
      with (((pre ++ [z]) ++ suf) ++ y :: w :: rest)
      by (rewrite <- !app_assoc; reflexivity).
    rewrite nth_error_middle, Hvy.
    replace (((pre ++ [z]) ++ suf) ++ y :: w :: rest)
      with ((((pre ++ [z]) ++ suf) ++ [y]) ++ w :: rest)
      by (rewrite <- !app_assoc; reflexivity).
    replace (S (List.length ((pre ++ [z]) ++ suf)))
      with (List.length (((pre ++ [z]) ++ suf) ++ [y]))
      by (rewrite !length_app; simpl; lia).
    rewrite assign_middle.
    replace ((((pre ++ [z]) ++ suf) ++ [y]) ++ y :: rest)
      with ((pre ++ [z]) ++ suf ++ y :: y :: rest)
      by (rewrite <- !app_assoc; reflexivity).
    replace (List.length ((pre ++ [z]) ++ suf))
      with (List.length (pre ++ [z]) + List.length suf)%nat
      by (rewrite !length_app; simpl; lia).
    rewrite (IH y (y :: rest) Hsuf). now rewrite <- !app_assoc.
Qed.

(** [__unguarded_linear_insert] of the element behind sorted elements the
    first of which it is not less than: it goes where [insert_sorted] puts
    it. *)
Lemma linear_insert_sorted (l s rest : list A) (a0 x : A) :
  strict_weak_ordering comp l -> incl (a0 :: s) l -> In x l ->
  sorted_by comp (a0 :: s) -> comp x a0 = false ->
  __unguarded_linear_insert comp ((a0 :: s) ++ x :: rest) (List.length (a0 :: s))
  = Some (insert_sorted comp x (a0 :: s) ++ rest).
Proof.
  intros Hswo Hs Hx Hsorted Hxa.
  destruct (@insert_sorted_split l (a0 :: s) x Hswo Hs Hx Hsorted)
    as (pre & suf & Heq & Hpre & Hsuf & Hins).
  destruct pre as [|p pre' _] using rev_ind.
  { simpl in Heq. subst suf. inversion Hsuf; congruence. }
  apply Forall_app in Hpre. destruct Hpre as [_ Hp].
  inversion Hp as [|? ? Hxp _]; subst.
  unfold __unguarded_linear_insert. rewrite nth_error_middle.
  rewrite Hins, Heq, <- !app_assoc.
  replace (List.length (pre' ++ [p] ++ suf))
    with (List.length (pre' ++ [p]) + List.length suf)%nat
    by (rewrite !length_app; simpl; lia).
  replace (pre' ++ [p] ++ suf ++ x :: rest) with ((pre' ++ [p]) ++ suf ++ x :: rest)
    by (symmetry; apply app_assoc).
  rewrite (@linear_insert_loop_stops suf pre' rest p x x Hxp Hsuf).
  f_equal. rewrite <- !app_assoc. reflexivity.
Qed.

(** One turn of the loop of [__insertion_sort] puts the next element into
    the sorted elements before it as [insert_sorted] does. *)
Lemma insertion_sort_turn (l s rest : list A) (x : A) (turns : nat) :
  strict_weak_ordering comp l -> incl s l -> In x l ->
  s <> [] -> sorted_by comp s ->
  insertion_sort_loop comp (S turns) (s ++ x :: rest) 0 (List.length s)
  = insertion_sort_loop comp turns (insert_sorted comp x s ++ rest) 0 (S (List.length s)).
Proof.
  intros Hswo Hs Hx Hne Hsorted. destruct s as [|a0 s']; [congruence|].
  cbn [insertion_sort_loop]. rewrite nth_error_middle.
  change (nth_error ((a0 :: s') ++ x :: rest) 0) with (Some a0).
  cbv beta iota. destruct (comp x a0) eqn:Hxa.
  - rewrite move_backward_front. cbn [insert_sorted]. now rewrite Hxa.
  - now rewrite (@linear_insert_sorted l s' rest a0 x Hswo Hs Hx Hsorted Hxa).
Qed.

(** The loop of [__insertion_sort] over [mid], with sorted elements before
    it: the elements of [mid] are inserted one after the other, and what
    follows is left alone. *)
Lemma insertion_sort_loop_sorts (l mid s tail : list A) :
  strict_weak_ordering comp l -> incl (s ++ mid) l ->
  s <> [] -> sorted_by comp s ->
  insertion_sort_loop comp (List.length mid) (s ++ mid ++ tail) 0 (List.length s)
  = Some (fold_left (fun sorted a => insert_sorted comp a sorted) mid s ++ tail).
Proof.
  intros Hswo. revert s. induction mid as [|x t IH]; intros s Hin Hne Hsorted.
  - reflexivity.
  - assert (Hx : In x l) by (apply Hin; apply in_or_app; right; now left).
    assert (Hs : incl s l) by (intros y Hy; apply Hin; apply in_or_app; now left).
    cbn [List.length app fold_left].
    rewrite (@insertion_sort_turn l s (t ++ tail) x (List.length t) Hswo Hs Hx Hne Hsorted).
    rewrite <- (insert_sorted_length x s). apply IH.
    + intros y Hy. apply in_app_or in Hy. destruct Hy as [Hy|Hy].
      * apply insert_sorted_in in Hy. destruct Hy as [->|Hy]; auto.
      * apply Hin. apply in_or_app. right. now right.
    + intros Hnil. apply (f_equal (@List.length A)) in Hnil.
      rewrite insert_sorted_length in Hnil. discriminate.
    + now apply (@insert_sorted_sorted_in l).
Qed.

(** The loop of [__unguarded_insertion_sort] behind sorted elements among
    which there is a least element of all: the elements of [rest] are
    inserted one after the other. *)
Lemma unguarded_insertion_sort_loop_sorts (l rest s : list A) (g : A) :
  strict_weak_ordering comp l -> incl (s ++ rest) l ->
  sorted_by comp s -> In g s ->
  (forall y, In y (s ++ rest) -> comp y g = false) ->
  unguarded_insertion_sort_loop comp (List.length rest) (s ++ rest) (List.length s)
  = Some (fold_left (fun sorted a => insert_sorted comp a sorted) rest s).
Proof.
  intros Hswo. revert s. induction rest as [|x t IH]; intros s Hin Hsorted Hg Hleast.
  - cbn. now rewrite app_nil_r.
  - assert (Hx : In x l) by (apply Hin; apply in_or_app; right; now left).
    assert (Hs : incl s l) by (intros y Hy; apply Hin; apply in_or_app; now left).
    destruct s as [|a0 s']; [destruct Hg|].
    assert (Hxa : comp x a0 = false).
    { assert (Hga : comp g a0 = false).
      { destruct Hg as [<-|Hg].
        - destruct Hswo as (Hirr & _). apply Hirr. apply Hs. now left.
        - inversion Hsorted as [|? ? Ha _]; subst.
          rewrite Forall_forall in Ha. now apply Ha. }
      apply (@swo_not_greater_trans l a0 g x Hswo); [| |exact Hx|exact Hga|].
      - apply Hs. now left.
      - apply Hs. exact Hg.
      - apply Hleast. apply in_or_app. right. now left. }
    change (List.length (x :: t)) with (S (List.length t)).
    cbn [unguarded_insertion_sort_loop fold_left].
    rewrite (@linear_insert_sorted l s' t a0 x Hswo Hs Hx Hsorted Hxa).
    rewrite <- (insert_sorted_length x (a0 :: s')). apply IH.
    + intros y Hy. apply in_app_or in Hy. destruct Hy as [Hy|Hy].
      * apply insert_sorted_in in Hy. destruct Hy as [->|Hy]; auto.
      * apply Hin. apply in_or_app. right. now right.
    + now apply (@insert_sorted_sorted_in l).
    + apply insert_sorted_in. now right.
    + intros y Hy. apply Hleast. apply in_app_or in Hy. apply in_or_app.
      destruct Hy as [Hy|Hy].
      * apply insert_sorted_in in Hy. destruct Hy as [->|Hy]; [right; now left|now left].
      * right. now right.
Qed.

Lemma introsort_loop_small (depth_limit : nat) (v : list A) (first last : nat) :
  (last - first <= _S_threshold)%nat ->
  __introsort_loop comp depth_limit v first last = Some v.
Proof.
  intros Hle. destruct depth_limit; cbn [__introsort_loop];
    destruct (Nat.ltb_spec _S_threshold (last - first)); (lia || reflexivity).
Qed.

(** Up to [_S_threshold] elements are sorted by [__insertion_sort] alone:
    the result is the stable sort. *)
Lemma sort_small (v : list A) :
  strict_weak_ordering comp v -> (List.length v <= _S_threshold)%nat ->
  __sort comp v = Some (stable_sort comp v).
Proof.
  intros Hswo Hlen. destruct v as [|a t]; [reflexivity|].
  unfold __sort. rewrite introsort_loop_small by lia.
  unfold __final_insertion_sort. rewrite Nat.sub_0_r.
  destruct (Nat.ltb_spec _S_threshold (List.length (a :: t))) as [Hlt|_]; [lia|].
  unfold __insertion_sort. cbn [List.length Nat.eqb Nat.add].
  rewrite Nat.sub_succ, Nat.sub_0_r.
  pose proof (@insertion_sort_loop_sorts (a :: t) t [a] [] Hswo) as Hloop.
  rewrite !app_nil_r in Hloop. apply Hloop.
  - apply incl_refl.
  - discriminate.
  - repeat constructor.
Qed.


(** *** Assignments *)

Lemma nth_error_assign_same (v : list A) (i : nat) (x : A) :
  (i < List.length v)%nat -> nth_error (assign v i x) i = Some x.
Proof.
  revert i. induction v as [|y t IH]; intros [|i] Hi; simpl in *; try lia; auto.
  apply IH. lia.
Qed.

Lemma nth_error_assign_other (v : list A) (i j : nat) (x : A) :
  i <> j -> nth_error (assign v i x) j = nth_error v j.
Proof.
  revert i j. induction v as [|y t IH]; intros [|i] [|j] Hij; simpl; auto; try congruence.
Qed.

Lemma skipn_assign (v : list A) (i n : nat) (x : A) :
  (i < n)%nat -> skipn n (assign v i x) = skipn n v.
Proof.
  revert i n. induction v as [|y t IH]; intros [|i] [|n] Hi; simpl; auto; try lia.
  apply IH. lia.
Qed.

Lemma assign_unchanged (v : list A) (i : nat) (x : A) :
  nth_error v i = Some x -> assign v i x = v.
Proof.
  revert i. induction v as [|y t IH]; intros [|i] Hx; simpl in *; try congruence.
  now rewrite IH.
Qed.

Lemma assign_assign (v : list A) (i : nat) (x y : A) :
  assign (assign v i x) i y = assign v i y.
Proof.
  revert i. induction v as [|z t IH]; intros [|i]; simpl; auto. now rewrite IH.
Qed.

Lemma assign_permutation (v : list A) (i : nat) (x z : A) :
  nth_error v i = Some z -> Permutation (x :: v) (z :: assign v i x).
Proof.
  revert i. induction v as [|y t IH]; intros [|i] Hz; simpl in *; try congruence.
  - injection Hz as ->. apply perm_swap.
  - eapply perm_trans; [apply perm_swap|].
    eapply perm_trans; [apply perm_skip, (IH i Hz)|]. apply perm_swap.
Qed.

(** Two values written to two places, one way round or the other. *)
Lemma assign_transposed (v : list A) (i j : nat) (a b : A) :
  i <> j -> (i < List.length v)%nat -> (j < List.length v)%nat ->
  Permutation (assign (assign v i a) j b) (assign (assign v i b) j a).
Proof.
  intros Hij Hi Hj.
  destruct (nth_error v i) as [zi|] eqn:Hzi; [|apply nth_error_None in Hzi; lia].
  destruct (nth_error v j) as [zj|] eqn:Hzj; [|apply nth_error_None in Hzj; lia].
  assert (H1 : forall p q : A,
            Permutation (p :: q :: v) (zi :: zj :: assign (assign v i p) j q)).
  { intros p q.
    eapply perm_trans; [apply perm_swap|].
    eapply perm_trans; [apply perm_skip, (@assign_permutation v i p zi Hzi)|].
    eapply perm_trans; [apply perm_swap|]. apply perm_skip.
    apply assign_permutation. now rewrite nth_error_assign_other. }
  apply (Permutation_cons_inv (a := zi)). apply (Permutation_cons_inv (a := zj)).
  eapply perm_trans; [apply perm_swap|].
  eapply perm_trans; [apply Permutation_sym, (H1 a b)|].
  eapply perm_trans; [apply perm_swap|].
  eapply perm_trans; [apply (H1 b a)|]. apply perm_swap.
Qed.

(** The hole moved from [i] to [j]: what was at [j] is now at [i]. *)
Lemma hole_moved (v : list A) (i j : nat) (c x : A) :
  i <> j -> (i < List.length v)%nat -> nth_error v j = Some c ->
  Permutation (assign (assign v i c) j x) (assign v i x).
Proof.
  intros Hij Hi Hc.
  assert (Hj : (j < List.length v)%nat) by (apply nth_error_Some; congruence).
  eapply perm_trans; [apply (@assign_transposed v i j c x Hij Hi Hj)|].
  rewrite assign_unchanged; [apply Permutation_refl|].
  now rewrite nth_error_assign_other.
Qed.


Lemma incl_assign (l v : list A) (i : nat) (x : A) :
  incl v l -> In x l -> incl (assign v i x) l.
Proof.
  intros Hv Hx. revert i. induction v as [|y t IH]; intros [|i]; simpl; auto.
  - intros z [<-|Hz]; auto. apply Hv. now right.
  - intros z [<-|Hz]; [apply Hv; now left|].
    apply (IH (fun w Hw => Hv w (or_intror Hw)) i z Hz).
Qed.

Lemma firstn_assign (v : list A) (i n : nat) (x : A) :
  (n <= i)%nat -> firstn n (assign v i x) = firstn n v.
Proof.
  revert i n. induction v as [|y t IH]; intros [|i] [|n] Hi; simpl; auto; try lia.
  f_equal. apply IH. lia.
Qed.

(** *** Heaps *)

Ltac halves n :=
  pose proof (Nat.div_mod_eq n 2);
  pose proof (Nat.mod_upper_bound n 2 ltac:(discriminate)).

Lemma heap_parent_less (c : nat) : (0 < c)%nat -> (heap_parent c < c)%nat.
Proof. intros. unfold heap_parent. halves (c - 1)%nat. lia. Qed.

Lemma heap_parent_le (c : nat) : (heap_parent c <= c)%nat.
Proof. unfold heap_parent. halves (c - 1)%nat. lia. Qed.

Lemma heap_children (c : nat) :
  (0 < c)%nat -> c = (2 * heap_parent c + 1)%nat \/ c = (2 * heap_parent c + 2)%nat.
Proof. intros. unfold heap_parent. halves (c - 1)%nat. lia. Qed.

Lemma heap_parent_left (h : nat) : heap_parent (2 * h + 1) = h.
Proof. unfold heap_parent. halves (2 * h + 1 - 1)%nat. lia. Qed.

Lemma heap_parent_right (h : nat) : heap_parent (2 * h + 2) = h.
Proof. unfold heap_parent. halves (2 * h + 2 - 1)%nat. lia. Qed.

Lemma heap_ancestor_le (k hole : nat) : (Nat.iter k heap_parent hole <= hole)%nat.
Proof.
  induction k as [|k IH]; simpl; [lia|].
  pose proof (heap_parent_le (Nat.iter k heap_parent hole)). lia.
Qed.

Lemma heap_ancestor_of_parent (k hole top : nat) :
  Nat.iter k heap_parent hole = top -> (top < hole)%nat ->
  exists k', Nat.iter k' heap_parent (heap_parent hole) = top.
Proof.
  intros Hk Hlt. destruct k as [|k]; [simpl in Hk; lia|].
  exists k. now rewrite <- Nat.iter_succ_r.
Qed.

Section Heap.

Variable l : list A.
Hypothesis Hswo : strict_weak_ordering comp l.

Lemma not_less_refl (x : A) : In x l -> comp x x = false.
Proof. destruct Hswo as (Hirr & _). apply Hirr. Qed.

Lemma not_less_trans (x y z : A) :
  In x l -> In y l -> In z l ->
  comp y x = false -> comp z y = false -> comp z x = false.
Proof. intros Hx Hy Hz. now apply (@swo_not_greater_trans l x y z). Qed.

Lemma less_not_less (x y : A) :
  In x l -> In y l -> comp x y = true -> comp y x = false.
Proof. intros Hx Hy. now apply (@swo_asym l). Qed.

Lemma less_above (x y z : A) :
  In x l -> In y l -> In z l ->
  comp x z = true -> comp x y = false -> comp z y = false.
Proof.
  intros Hx Hy Hz Hxz Hxy. destruct (comp y z) eqn:Hyz.
  - now apply less_not_less.
  - rewrite (@swo_less_below l x y z Hswo Hx Hy Hz Hxz Hyz) in Hxy. discriminate.
Qed.

(** The hole moves down to a child that is not less than the other. *)
Lemma hole_down (v : list A) (first len top hole c1 : nat) (cv : A) :
  incl v l -> (first + len <= List.length v)%nat ->
  heap_with_hole comp v first len top hole ->
  (0 < c1 < len)%nat -> heap_parent c1 = hole ->
  nth_error v (first + c1) = Some cv ->
  (forall o y, (0 < o < len)%nat -> heap_parent o = hole -> o <> c1 ->
     nth_error v (first + o) = Some y -> comp cv y = false) ->
  heap_with_hole comp (assign v (first + hole) cv) first len top c1.
Proof.
  intros Hin Hlen (Hrange & (k & Hk) & Hpairs & Hgrand) Hc1 Hp Hcv Hother.
  pose proof (heap_parent_less (proj1 Hc1)) as Hlt.
  split; [lia|]. split; [exists (S k); rewrite Nat.iter_succ_r, Hp; exact Hk|]. split.
  - intros c x y Hc Htop Hpc Hcc Hx Hy.
    destruct (Nat.eq_dec (heap_parent c) hole) as [Hph|Hph].
    + rewrite Hph, nth_error_assign_same in Hx by lia. injection Hx as <-.
      rewrite nth_error_assign_other in Hy
        by (pose proof (heap_parent_less (proj1 Hc)); lia).
      now apply (Hother c y).
    + rewrite nth_error_assign_other in Hx by lia.
      destruct (Nat.eq_dec c hole) as [->|Hch].
      * rewrite nth_error_assign_same in Hy by lia. injection Hy as <-.
        assert (Hth : (top < hole)%nat)
          by (pose proof (heap_parent_less (proj1 Hc)); lia).
        apply (Hgrand Hth c1 x cv); auto.
      * rewrite nth_error_assign_other in Hy by lia.
        now apply (Hpairs c x y).
  - intros _ c x y Hc Hpc Hx Hy.
    rewrite Hp, nth_error_assign_same in Hx by lia. injection Hx as <-.
    rewrite nth_error_assign_other in Hy
      by (pose proof (heap_parent_less (proj1 Hc)); lia).
    apply (Hpairs c cv y); auto; try lia.
    + pose proof (heap_parent_less (proj1 Hc)). lia.
    + now rewrite Hpc.
Qed.

Lemma same_frame_refl (v : list A) (first len : nat) : same_frame v v first len.
Proof. repeat split. Qed.

Lemma same_frame_assign (v v0 : list A) (first len i : nat) (x : A) :
  same_frame v v0 first len -> (first <= i < first + len)%nat ->
  same_frame (assign v i x) v0 first len.
Proof.
  intros (Hl & Hf & Hs) Hi. split; [|split].
  - now rewrite assign_length.
  - rewrite firstn_assign by lia. exact Hf.
  - rewrite skipn_assign by lia. exact Hs.
Qed.

(** The loop of [__adjust_heap] takes the hole down to where it has no two
    children. *)
Lemma adjust_heap_loop_down (v0 : list A) (first len top : nat) :
  forall turns v hole,
    incl v l -> (first + len <= List.length v)%nat ->
    heap_with_hole comp v first len top hole ->
    (forall x, Permutation (assign v (first + hole) x) (assign v0 (first + top) x)) ->
    same_frame v v0 first len ->
    (len - hole <= turns)%nat ->
    exists v' hole',
      adjust_heap_loop comp turns v first hole hole len = Some (v', hole', hole') /\
      incl v' l /\ heap_with_hole comp v' first len top hole' /\
      (forall x, Permutation (assign v' (first + hole') x) (assign v0 (first + top) x)) /\
      same_frame v' v0 first len /\
      ~ (hole' < (len - 1) / 2)%nat.
Proof.
  induction turns as [|turns IH]; intros v hole Hin Hlen Hheap Hperm Hframe Hturns.
  - pose proof Hheap as (Hrange & _). lia.
  - cbn [adjust_heap_loop].
    destruct (Nat.ltb_spec hole ((len - 1) / 2)) as [Hlt|Hge].
    2:{ exists v, hole. repeat split; auto; try apply Hframe; try apply Hheap. lia. }
    pose proof Hheap as (Hrange & _).
    assert (Hr : (2 * (hole + 1) < len)%nat) by (halves (len - 1)%nat; lia).
    destruct (nth_error v (first + 2 * (hole + 1))) as [r|] eqn:Hvr;
      [|apply nth_error_None in Hvr; lia].
    destruct (nth_error v (first + (2 * (hole + 1) - 1))) as [lf|] eqn:Hvl;
      [|apply nth_error_None in Hvl; lia].
    set (c1 := if comp r lf then (2 * (hole + 1) - 1)%nat else (2 * (hole + 1))%nat).
    assert (Hc1 : c1 = (2 * hole + 1)%nat \/ c1 = (2 * hole + 2)%nat)
      by (unfold c1; destruct (comp r lf); lia).
    assert (Hp1 : heap_parent c1 = hole).
    { destruct Hc1 as [-> | ->]; [apply heap_parent_left|apply heap_parent_right]. }
    destruct (nth_error v (first + c1)) as [cv|] eqn:Hcv;
      [|apply nth_error_None in Hcv; lia].
    assert (Hcvl : In cv l) by (apply Hin; eapply nth_error_In; exact Hcv).
    assert (Hother : forall o y, (0 < o < len)%nat -> heap_parent o = hole -> o <> c1 ->
              nth_error v (first + o) = Some y -> comp cv y = false).
    { intros o y Ho Hpo Hne Hy. destruct (heap_children (proj1 Ho)) as [Hol|Hor];
        rewrite Hpo in *; unfold c1 in *; destruct (comp r lf) eqn:Hrl.
      - lia.
      - replace (first + (2 * (hole + 1) - 1))%nat with (first + o)%nat in Hvl by lia.
        assert (y = lf) by congruence. assert (cv = r) by congruence. subst. exact Hrl.
      - replace (first + 2 * (hole + 1))%nat with (first + o)%nat in Hvr by lia.
        assert (y = r) by congruence. assert (cv = lf) by congruence. subst.
        apply less_not_less; auto; apply Hin; eapply nth_error_In; eassumption.
      - lia. }
    destruct (IH (assign v (first + hole) cv) c1) as (v' & hole' & Hrun & Hrest).
    + now apply incl_assign.
    + now rewrite assign_length.
    + apply hole_down; auto. lia.
    + intros x. eapply perm_trans; [|apply (Hperm x)].
      apply hole_moved; [lia|lia|exact Hcv].
    + apply same_frame_assign; [exact Hframe|lia].
    + lia.
    + exists v', hole'. split; [exact Hrun|exact Hrest].
Qed.

(** The hole moves up to its parent, which is less than the value to put
    in. *)
Lemma hole_up (v : list A) (first len top hole : nat) (p value : A) :
  incl v l -> In value l -> (first + len <= List.length v)%nat ->
  heap_with_hole comp v first len top hole -> (top < hole)%nat ->
  nth_error v (first + heap_parent hole) = Some p -> comp p value = true ->
  (forall c y, (0 < c < len)%nat -> heap_parent c = hole ->
     nth_error v (first + c) = Some y -> comp value y = false) ->
  heap_with_hole comp (assign v (first + hole) p) first len top (heap_parent hole) /\
  (forall c y, (0 < c < len)%nat -> heap_parent c = heap_parent hole ->
     nth_error (assign v (first + hole) p) (first + c) = Some y -> comp value y = false).
Proof.
  intros Hin Hvalue Hlen (Hrange & (k & Hk) & Hpairs & Hgrand) Hth Hp Hpv Hbelow.
  assert (Hpl : In p l) by (apply Hin; eapply nth_error_In; exact Hp).
  assert (Hq : (heap_parent hole < hole)%nat) by (apply heap_parent_less; lia).
  destruct (heap_ancestor_of_parent _ Hk Hth) as (k' & Hk').
  assert (Hqtop : (top <= heap_parent hole)%nat)
    by (rewrite <- Hk'; apply heap_ancestor_le).
  split; [split; [lia|split; [now exists k'|split]]|].
  - intros c x y Hc Htop Hpc Hcc Hx Hy.
    destruct (Nat.eq_dec c hole) as [->|Hch]; [congruence|].
    rewrite nth_error_assign_other in Hy by lia.
    destruct (Nat.eq_dec (heap_parent c) hole) as [Hph|Hph].
    + rewrite Hph, nth_error_assign_same in Hx by lia. injection Hx as <-.
      now apply (Hgrand Hth c p y).
    + rewrite nth_error_assign_other in Hx by lia. now apply (Hpairs c x y).
  - intros Hqt c x y Hc Hpc Hx Hy.
    assert (Hpq : (heap_parent (heap_parent hole) < heap_parent hole)%nat)
      by (apply heap_parent_less; lia).
    destruct (heap_ancestor_of_parent _ Hk' Hqt) as (k'' & Hk'').
    assert (Hpqtop : (top <= heap_parent (heap_parent hole))%nat)
      by (rewrite <- Hk''; apply heap_ancestor_le).
    rewrite nth_error_assign_other in Hx by lia.
    assert (Hxp : comp x p = false).
    { apply (Hpairs (heap_parent hole) x p); auto; lia. }
    assert (Hxl : In x l) by (apply Hin; eapply nth_error_In; exact Hx).
    destruct (Nat.eq_dec c hole) as [->|Hch].
    + rewrite nth_error_assign_same in Hy by lia. now injection Hy as <-.
    + rewrite nth_error_assign_other in Hy by lia.
      assert (Hyl : In y l) by (apply Hin; eapply nth_error_In; exact Hy).
      apply (@not_less_trans y p x); auto.
      apply (Hpairs c p y); auto; try lia; now rewrite Hpc.
  - intros c y Hc Hpc Hy.
    destruct (Nat.eq_dec c hole) as [->|Hch].
    + rewrite nth_error_assign_same in Hy by lia. injection Hy as <-.
      now apply less_not_less.
    + rewrite nth_error_assign_other in Hy by lia.
      assert (Hyl : In y l) by (apply Hin; eapply nth_error_In; exact Hy).
      apply (@less_above p y value); auto.
      apply (Hpairs c p y); auto; try lia; now rewrite Hpc.
Qed.

(** [__push_heap] fills the hole, and the heap is whole. *)
Lemma push_heap_loop_up (v0 : list A) (first len top : nat) (value : A) :
  In value l ->
  forall turns v hole,
    incl v l -> (first + len <= List.length v)%nat ->
    heap_with_hole comp v first len top hole ->
    (forall c y, (0 < c < len)%nat -> heap_parent c = hole ->
       nth_error v (first + c) = Some y -> comp value y = false) ->
    (forall x, Permutation (assign v (first + hole) x) (assign v0 (first + top) x)) ->
    same_frame v v0 first len ->
    (hole <= turns)%nat ->
    exists v',
      push_heap_loop comp turns v first hole top value = Some v' /\
      incl v' l /\ heap_from comp v' first len top /\
      Permutation v' (assign v0 (first + top) value) /\
      same_frame v' v0 first len.
Proof.
  intros Hvalue. induction turns as [|turns IH];
    intros v hole Hin Hlen Hheap Hbelow Hperm Hframe Hturns;
    pose proof Hheap as (Hrange & _ & Hpairs & _);
    pose proof (heap_parent_le hole) as Hple;
    cbn [push_heap_loop]; fold (heap_parent hole);
    (destruct (nth_error v (first + heap_parent hole)) as [p|] eqn:Hp;
       [|apply nth_error_None in Hp; lia]).
  all: assert (Hdone : (Nat.ltb top hole && comp p value) = false ->
         exists v',
           Some (assign v (first + hole) value) = Some v' /\
           incl v' l /\ heap_from comp v' first len top /\
           Permutation v' (assign v0 (first + top) value) /\
           same_frame v' v0 first len).
  1,3: intros Hstop; exists (assign v (first + hole) value);
    (split; [reflexivity|]); (split; [now apply incl_assign|]);
    (split; [|split; [apply Hperm|apply same_frame_assign; [exact Hframe|lia]]]);
    intros c x y Hc Htop Hx Hy;
    pose proof (heap_parent_less (proj1 Hc)) as Hpc;
    (destruct (Nat.eq_dec c hole) as [->|Hch];
     [rewrite nth_error_assign_same in Hy by lia; injection Hy as <-;
      rewrite nth_error_assign_other in Hx by lia;
      assert (x = p) by congruence; subst x;
      apply andb_false_iff in Hstop; destruct Hstop as [Hstop|Hstop];
      [apply Nat.ltb_ge in Hstop; lia|exact Hstop]
     |rewrite nth_error_assign_other in Hy by lia;
      destruct (Nat.eq_dec (heap_parent c) hole) as [Hph|Hph];
      [rewrite Hph, nth_error_assign_same in Hx by lia; injection Hx as <-;
       now apply (Hbelow c y)
      |rewrite nth_error_assign_other in Hx by lia; now apply (Hpairs c x y)]]).
  - destruct (Nat.ltb top hole && comp p value) eqn:Hgo; [|now apply Hdone].
    apply andb_true_iff in Hgo. destruct Hgo as [Hgo _]. apply Nat.ltb_lt in Hgo. lia.
  - destruct (Nat.ltb top hole && comp p value) eqn:Hgo; [|now apply Hdone].
    apply andb_true_iff in Hgo. destruct Hgo as [Hth Hpv]. apply Nat.ltb_lt in Hth.
    destruct (@hole_up v first len top hole p value Hin Hvalue Hlen Hheap Hth Hp Hpv Hbelow)
      as [Hheap' Hbelow'].
    assert (Hpl : In p l) by (apply Hin; eapply nth_error_In; exact Hp).
    pose proof (heap_parent_less (c := hole) ltac:(lia)) as Hq.
    apply IH; auto.
    + now apply incl_assign.
    + now rewrite assign_length.
    + intros x. eapply perm_trans; [|apply (Hperm x)].
      apply hole_moved; [lia|lia|exact Hp].
    + apply same_frame_assign; [exact Hframe|lia].
    + lia.
Qed.

(** [__adjust_heap] with a heap below [top]: the value takes the place of
    the element at [top], and the heap reaches up to [top]. *)
Lemma adjust_heap_heap (v : list A) (first len top : nat) (value : A) :
  incl v l -> In value l -> (first + len <= List.length v)%nat -> (top < len)%nat ->
  heap_from comp v first len (S top) ->
  exists v',
    __adjust_heap comp v first top len value = Some v' /\
    incl v' l /\ heap_from comp v' first len top /\
    Permutation v' (assign v (first + top) value) /\
    same_frame v' v first len.
Proof.
  intros Hin Hvalue Hlen Htop Hheap. unfold __adjust_heap.
  assert (Hstart : heap_with_hole comp v first len top top).
  { split; [lia|]. split; [now exists 0%nat|]. split; [|lia].
    intros c x y Hc Ht Hpc _ Hx Hy. apply (Hheap c x y); auto. lia. }
  destruct (@adjust_heap_loop_down v first len top len v top Hin Hlen Hstart
              (fun x => Permutation_refl _) (same_frame_refl v first len) ltac:(lia))
    as (v1 & hole1 & Hrun & Hin1 & Hheap1 & Hperm1 & Hframe1 & Hstop).
  rewrite Hrun. pose proof Hheap1 as (Hrange1 & _).
  assert (Hlen1 : (first + len <= List.length v1)%nat)
    by (destruct Hframe1 as (-> & _); exact Hlen).
  destruct (Nat.even len && Nat.eqb hole1 ((len - 2) / 2)) eqn:Hone.
  - apply andb_true_iff in Hone. destruct Hone as [Heven Hh].
    apply Nat.eqb_eq in Hh. apply Nat.even_spec in Heven. destruct Heven as [n Hn].
    assert (Hc1 : (2 * (hole1 + 1) - 1 = 2 * hole1 + 1)%nat) by lia.
    assert (Hlast : (2 * hole1 + 1 = len - 1)%nat) by (halves (len - 2)%nat; lia).
    rewrite Hc1.
    destruct (nth_error v1 (first + (2 * hole1 + 1))) as [cv|] eqn:Hcv;
      [|apply nth_error_None in Hcv; lia].
    assert (Hcvl : In cv l) by (apply Hin1; eapply nth_error_In; exact Hcv).
    unfold __push_heap.
    apply (@push_heap_loop_up v first len top value Hvalue); auto.
    + now apply incl_assign.
    + now rewrite assign_length.
    + apply hole_down; auto; [lia|apply heap_parent_left|].
      intros o y Ho Hpo Hne _. destruct (heap_children (proj1 Ho)); lia.
    + intros c y Hc Hpc _. destruct (heap_children (proj1 Hc)); lia.
    + intros x. eapply perm_trans; [|apply (Hperm1 x)].
      apply hole_moved; [lia|lia|exact Hcv].
    + apply same_frame_assign; [exact Hframe1|lia].
  - unfold __push_heap.
    apply (@push_heap_loop_up v first len top value Hvalue); auto.
    intros c y Hc Hpc _. exfalso.
    apply andb_false_iff in Hone.
    destruct (heap_children (proj1 Hc)) as [Hcl|Hcr]; rewrite Hpc in *;
      destruct Hone as [Hodd|Hne].
    + rewrite <- Nat.negb_odd in Hodd. apply negb_false_iff in Hodd.
      apply Nat.odd_spec in Hodd. destruct Hodd as [n Hn].
      halves (len - 1)%nat. lia.
    + apply Nat.eqb_neq in Hne. halves (len - 1)%nat. halves (len - 2)%nat. lia.
    + halves (len - 1)%nat. lia.
    + halves (len - 1)%nat. lia.
Qed.

(** *** The range a function works on *)

Lemma same_frame_trans (v1 v2 v3 : list A) (first len : nat) :
  same_frame v1 v2 first len -> same_frame v2 v3 first len -> same_frame v1 v3 first len.
Proof.
  intros (Hl & Hf & Hs) (Hl' & Hf' & Hs'). repeat split; congruence.
Qed.

Lemma same_frame_wider (v v0 : list A) (first len first' len' : nat) :
  same_frame v v0 first len ->
  (first' <= first)%nat -> (first + len <= first' + len')%nat ->
  same_frame v v0 first' len'.
Proof.
  intros (Hl & Hf & Hs) Hfirst Hlast. split; [exact Hl|]. split.
  - replace first' with (Nat.min first' first) by lia.
    rewrite <- (firstn_firstn v), <- (firstn_firstn v0). now rewrite Hf.
  - replace (first' + len')%nat with ((first' + len' - (first + len)) + (first + len))%nat
      by lia.
    rewrite <- (skipn_skipn _ _ v), <- (skipn_skipn _ _ v0). now rewrite Hs.
Qed.

Lemma nth_error_range (v : list A) (first len i : nat) :
  (i < len)%nat -> nth_error (firstn len (skipn first v)) i = nth_error v (first + i).
Proof.
  intros Hi. rewrite nth_error_firstn.
  destruct (Nat.ltb_spec i len); [|lia]. apply nth_error_skipn.
Qed.

Lemma range_split (v : list A) (first len : nat) :
  v = firstn first v ++ firstn len (skipn first v) ++ skipn (first + len) v.
Proof.
  rewrite <- (firstn_skipn first v) at 1. f_equal.
  rewrite <- (firstn_skipn len (skipn first v)) at 1. f_equal.
  rewrite skipn_skipn. f_equal. lia.
Qed.

(** A permutation of the vector that leaves the frame alone is one of the
    range. *)
Lemma same_frame_range (v v0 : list A) (first len : nat) :
  same_frame v v0 first len -> Permutation v v0 ->
  Permutation (firstn len (skipn first v)) (firstn len (skipn first v0)).
Proof.
  intros (_ & Hf & Hs) Hp.
  rewrite (range_split v first len), (range_split v0 first len), Hf, Hs in Hp.
  apply Permutation_app_inv_l in Hp. now apply Permutation_app_inv_r in Hp.
Qed.

Lemma same_frame_around (pre mid post v : list A) :
  same_frame v (pre ++ mid ++ post) (List.length pre) (List.length mid) ->
  v = pre ++ firstn (List.length mid) (skipn (List.length pre) v) ++ post.
Proof.
  intros (_ & Hf & Hs).
  rewrite (range_split v (List.length pre) (List.length mid)) at 1.
  rewrite Hf, Hs, firstn_exact.
  replace (pre ++ mid ++ post) with ((pre ++ mid) ++ post) by now rewrite <- app_assoc.
  replace (List.length pre + List.length mid)%nat with (List.length (pre ++ mid))
    by now rewrite length_app.
  now rewrite skipn_exact.
Qed.

(** *** The heap sort *)

Lemma heap_from_outside (v v' : list A) (first len top : nat) :
  heap_from comp v first len top ->
  (forall i, (i < len)%nat -> nth_error v' (first + i) = nth_error v (first + i)) ->
  heap_from comp v' first len top.
Proof.
  intros Hheap Hsame c x y Hc Htop Hx Hy.
  pose proof (heap_parent_less (proj1 Hc)).
  rewrite Hsame in Hx, Hy by lia. now apply (Hheap c x y).
Qed.

Lemma heap_from_lower (v : list A) (first len top top' : nat) :
  heap_from comp v first len top -> (top <= top')%nat -> heap_from comp v first len top'.
Proof.
  intros Hheap Hle c x y Hc Htop. apply Hheap; auto. lia.
Qed.

(** The loop of [__make_heap]. *)
Lemma make_heap_loop_heap (first len : nat) :
  forall parent v,
    incl v l -> (first + len <= List.length v)%nat -> (parent < len)%nat ->
    heap_from comp v first len (S parent) ->
    exists v',
      make_heap_loop comp v first len parent = Some v' /\
      incl v' l /\ heap_from comp v' first len 0 /\
      Permutation v' v /\ same_frame v' v first len.
Proof.
  induction parent as [|parent IH]; intros v Hin Hlen Hp Hheap;
    cbn [make_heap_loop];
    (destruct (nth_error v (first + _)) as [value|] eqn:Hvalue;
       [|apply nth_error_None in Hvalue; lia]);
    assert (Hvl : In value l) by (apply Hin; eapply nth_error_In; exact Hvalue);
    destruct (@adjust_heap_heap v first len _ value Hin Hvl Hlen Hp Hheap)
      as (v1 & Hrun & Hin1 & Hheap1 & Hperm1 & Hframe1);
    rewrite Hrun; rewrite (assign_unchanged _ _ Hvalue) in Hperm1.
  - exists v1. repeat split; auto; apply Hframe1.
  - destruct (IH v1) as (v2 & Hrun2 & Hin2 & Hheap2 & Hperm2 & Hframe2); auto.
    + destruct Hframe1 as (-> & _). exact Hlen.
    + lia.
    + exists v2. split; [exact Hrun2|]. split; [exact Hin2|]. split; [exact Hheap2|].
      split; [eapply perm_trans; eassumption|eapply same_frame_trans; eassumption].
Qed.

Lemma make_heap_heap (v : list A) (first len : nat) :
  incl v l -> (first + len <= List.length v)%nat ->
  exists v',
    __make_heap comp v first (first + len) = Some v' /\
    incl v' l /\ heap_from comp v' first len 0 /\
    Permutation v' v /\ same_frame v' v first len.
Proof.
  intros Hin Hlen. unfold __make_heap.
  replace (first + len - first)%nat with len by lia.
  destruct (Nat.ltb_spec len 2) as [Hsmall|Hbig].
  - exists v. repeat split; auto. intros c x y Hc. lia.
  - apply make_heap_loop_heap; auto.
    + halves (len - 2)%nat. lia.
    + intros c x y Hc Htop. exfalso. unfold heap_parent in Htop.
      halves (len - 2)%nat. halves (c - 1)%nat. lia.
Qed.

(** The first element of a heap is not less than any other. *)
Lemma heap_root_greatest (v : list A) (first len : nat) :
  incl v l -> heap_from comp v first len 0 ->
  forall i x y, (i < len)%nat ->
    nth_error v (first + 0) = Some x -> nth_error v (first + i) = Some y ->
    comp x y = false.
Proof.
  intros Hin Hheap i. induction i as [i IH] using lt_wf_ind. intros x y Hi Hx Hy.
  destruct i as [|i].
  - assert (x = y) by congruence. subst y.
    apply not_less_refl. apply Hin. eapply nth_error_In. exact Hx.
  - pose proof (heap_parent_less (c := S i) ltac:(lia)) as Hp.
    destruct (nth_error v (first + heap_parent (S i))) as [z|] eqn:Hz.
    2:{ apply nth_error_None in Hz.
        assert (first + S i < List.length v)%nat by (apply nth_error_Some; congruence).
        lia. }
    apply (@not_less_trans y z x); try (apply Hin; eapply nth_error_In; eassumption).
    + apply (Hheap (S i) z y); auto; lia.
    + apply (IH (heap_parent (S i))); auto. lia.
Qed.

Lemma same_frame_sym (v v0 : list A) (first len : nat) :
  same_frame v v0 first len -> same_frame v0 v first len.
Proof. intros (Hl & Hf & Hs). repeat split; congruence. Qed.

(** [__pop_heap] of the last element of a heap: the greatest element
    changes places with it, and what is before it is a heap again. *)
Lemma pop_heap_heap (v : list A) (first n k : nat) :
  incl v l -> (first + n <= List.length v)%nat -> (2 <= k <= n)%nat ->
  heap_from comp v first k 0 -> sorted_from comp v first n k ->
  exists v',
    __pop_heap comp v first (first + k - 1) (first + k - 1) = Some v' /\
    incl v' l /\ heap_from comp v' first (k - 1) 0 /\
    sorted_from comp v' first n (k - 1) /\
    Permutation v' v /\ same_frame v' v first n.
Proof.
  intros Hin Hlen Hk Hheap Hsorted. unfold __pop_heap.
  destruct (nth_error v (first + k - 1)) as [value|] eqn:Hvalue;
    [|apply nth_error_None in Hvalue; lia].
  destruct (nth_error v first) as [top|] eqn:Htop;
    [|apply nth_error_None in Htop; lia].
  assert (Hvl : In value l) by (apply Hin; eapply nth_error_In; exact Hvalue).
  assert (Htl : In top l) by (apply Hin; eapply nth_error_In; exact Htop).
  replace (first + k - 1 - first)%nat with (k - 1)%nat by lia.
  set (v1 := assign v (first + k - 1) top).
  assert (Hin1 : incl v1 l) by now apply incl_assign.
  assert (Hlen1 : (first + (k - 1) <= List.length v1)%nat)
    by (unfold v1; rewrite assign_length; lia).
  assert (Hheap1 : heap_from comp v1 first (k - 1) 1).
  { apply heap_from_lower with (top := 0%nat); [|lia].
    apply heap_from_outside with (v := v).
    - intros c x y Hc. apply Hheap. lia.
    - intros i Hi. unfold v1. apply nth_error_assign_other. lia. }
  destruct (@adjust_heap_heap v1 first (k - 1) 0 value Hin1 Hvl Hlen1 ltac:(lia) Hheap1)
    as (v2 & Hrun & Hin2 & Hheap2 & Hperm2 & Hframe2).
  exists v2. split; [exact Hrun|]. split; [exact Hin2|]. split; [exact Hheap2|].
  assert (Hperm : Permutation v2 v).
  { eapply perm_trans; [exact Hperm2|]. unfold v1. rewrite Nat.add_0_r.
    eapply perm_trans; [apply hole_moved; [lia|lia|exact Htop]|].
    rewrite (assign_unchanged _ _ Hvalue). apply Permutation_refl. }
  assert (Hframe : same_frame v2 v first n).
  { apply same_frame_trans with (v2 := v1).
    - apply (@same_frame_wider v2 v1 first (k - 1) first n Hframe2); lia.
    - unfold v1. apply same_frame_assign; [apply same_frame_refl|lia]. }
  split; [|split; [exact Hperm|exact Hframe]].
  (* what is behind the heap *)
  assert (Hbehind : forall j, (k - 1 <= j)%nat ->
            nth_error v2 (first + j) = nth_error v1 (first + j)).
  { intros j Hj. destruct Hframe2 as (_ & _ & Hs).
    replace (first + j)%nat with ((first + (k - 1)) + (j - (k - 1)))%nat by lia.
    rewrite <- !nth_error_skipn. now rewrite Hs. }
  (* what is in the heap was in it before *)
  assert (Hwas : forall i y, (i < k - 1)%nat -> nth_error v2 (first + i) = Some y ->
            exists i', (i' < k)%nat /\ nth_error v (first + i') = Some y).
  { intros i y Hi Hy.
    assert (Hfw : same_frame v2 (assign v1 (first + 0) value) first (k - 1)).
    { apply same_frame_trans with (v2 := v1); [exact Hframe2|].
      apply same_frame_sym. apply same_frame_assign; [apply same_frame_refl|lia]. }
    pose proof (same_frame_range Hfw Hperm2) as Hrange.
    assert (Hy' : In y (firstn (k - 1) (skipn first v2))).
    { apply nth_error_In with (n := i). now rewrite nth_error_range. }
    apply (Permutation_in _ Hrange) in Hy'.
    apply In_nth_error in Hy'. destruct Hy' as [i' Hi'].
    assert (Hlt : (i' < k - 1)%nat).
    { assert (Hb : (i' < List.length (firstn (k - 1)
                                         (skipn first (assign v1 (first + 0) value))))%nat)
        by (apply nth_error_Some; congruence).
      rewrite length_firstn in Hb. lia. }
    rewrite nth_error_range in Hi' by exact Hlt.
    destruct i' as [|i'].
    - rewrite nth_error_assign_same in Hi' by lia. injection Hi' as <-.
      exists (k - 1)%nat. split; [lia|]. now replace (first + (k - 1))%nat with (first + k - 1)%nat by lia.
    - rewrite nth_error_assign_other in Hi' by lia.
      unfold v1 in Hi'. rewrite nth_error_assign_other in Hi' by lia.
      exists (S i'). split; [lia|exact Hi']. }
  intros i j x y Hij Hj Hx Hy. rewrite (Hbehind j Hj) in Hy.
  rewrite <- (Nat.add_0_r first) in Htop.
  destruct (Nat.eq_dec j (k - 1)) as [->|Hjk].
  - unfold v1 in Hy.
    replace (first + (k - 1))%nat with (first + k - 1)%nat in Hy by lia.
    rewrite nth_error_assign_same in Hy by lia. injection Hy as <-.
    destruct (Hwas i x ltac:(lia) Hx) as (i' & Hi' & Hxi).
    now apply (@heap_root_greatest v first k Hin Hheap i' top x).
  - unfold v1 in Hy. rewrite nth_error_assign_other in Hy by lia.
    destruct (Nat.lt_ge_cases i (k - 1)) as [Hlow|Hhigh].
    + destruct (Hwas i x Hlow Hx) as (i' & Hi' & Hxi).
      apply (Hsorted i' j x y); auto; lia.
    + rewrite (Hbehind i Hhigh) in Hx. unfold v1 in Hx.
      destruct (Nat.eq_dec i (k - 1)) as [->|Hik].
      * replace (first + (k - 1))%nat with (first + k - 1)%nat in Hx by lia.
        rewrite nth_error_assign_same in Hx by lia. injection Hx as <-.
        apply (Hsorted 0%nat j top y); auto; lia.
      * rewrite nth_error_assign_other in Hx by lia.
        apply (Hsorted i j x y); auto; lia.
Qed.

(** The loop of [__sort_heap]: the greatest element of the heap goes behind
    it until one element is left. *)
Lemma sort_heap_loop_sorts (first n : nat) :
  forall turns v k,
    incl v l -> (first + n <= List.length v)%nat -> (k <= n)%nat ->
    heap_from comp v first k 0 -> sorted_from comp v first n k ->
    (k <= turns)%nat ->
    exists v',
      sort_heap_loop comp turns v first (first + k) = Some v' /\
      incl v' l /\ sorted_from comp v' first n 1 /\
      Permutation v' v /\ same_frame v' v first n.
Proof.
  induction turns as [|turns IH]; intros v k Hin Hlen Hk Hheap Hsorted Hturns;
    cbn [sort_heap_loop]; replace (first + k - first)%nat with k by lia;
    destruct (Nat.ltb_spec 1 k) as [Hgo|Hstop]; try lia.
  1,3: exists v; (split; [reflexivity|]); (split; [exact Hin|]);
    (split; [|split; [apply Permutation_refl|apply same_frame_refl]]);
    intros i j x y Hij Hj; apply Hsorted; lia.
  destruct (@pop_heap_heap v first n k Hin Hlen ltac:(lia) Hheap Hsorted)
    as (v1 & Hrun & Hin1 & Hheap1 & Hsorted1 & Hperm1 & Hframe1).
  rewrite Hrun.
  replace (first + k - 1)%nat with (first + (k - 1))%nat by lia.
  destruct (IH v1 (k - 1)%nat) as (v2 & Hrun2 & Hin2 & Hsorted2 & Hperm2 & Hframe2); auto.
  - destruct Hframe1 as (-> & _). exact Hlen.
  - lia.
  - lia.
  - exists v2. split; [exact Hrun2|]. split; [exact Hin2|]. split; [exact Hsorted2|].
    split; [eapply perm_trans; eassumption|eapply same_frame_trans; eassumption].
Qed.

(** [__partial_sort(first, last, last)] is a heap sort of the range. *)
Lemma partial_sort_sorts (v : list A) (first n : nat) :
  incl v l -> (first + n <= List.length v)%nat ->
  exists v',
    __partial_sort comp v first (first + n) (first + n) = Some v' /\
    incl v' l /\ sorted_from comp v' first n 1 /\
    Permutation v' v /\ same_frame v' v first n.
Proof.
  intros Hin Hlen. unfold __partial_sort, __heap_select.
  destruct (@make_heap_heap v first n Hin Hlen)
    as (v1 & Hrun & Hin1 & Hheap1 & Hperm1 & Hframe1).
  rewrite Hrun, Nat.sub_diag. cbn [heap_select_loop]. unfold __sort_heap.
  replace (first + n - first)%nat with n by lia.
  destruct (@sort_heap_loop_sorts first n n v1 n)
    as (v2 & Hrun2 & Hin2 & Hsorted2 & Hperm2 & Hframe2); auto.
  - destruct Hframe1 as (-> & _). exact Hlen.
  - intros i j x y Hij Hj. lia.
  - exists v2. split; [exact Hrun2|]. split; [exact Hin2|]. split; [exact Hsorted2|].
    split; [eapply perm_trans; eassumption|eapply same_frame_trans; eassumption].
Qed.

(** *** The partition *)

Lemma iter_swap_swaps (v : list A) (a b : nat) (x y : A) :
  nth_error v a = Some x -> nth_error v b = Some y ->
  exists v',
    iter_swap v a b = Some v' /\
    Permutation v' v /\
    nth_error v' a = Some y /\ nth_error v' b = Some x /\
    (forall i, i <> a -> i <> b -> nth_error v' i = nth_error v i) /\
    (forall first len, (first <= a < first + len)%nat -> (first <= b < first + len)%nat ->
       same_frame v' v first len).
Proof.
  intros Ha Hb. unfold iter_swap. rewrite Ha, Hb.
  assert (Hla : (a < List.length v)%nat) by (apply nth_error_Some; congruence).
  assert (Hlb : (b < List.length v)%nat) by (apply nth_error_Some; congruence).
  exists (assign (assign v a y) b x). split; [reflexivity|].
  split; [|split; [|split; [|split]]].
  - destruct (Nat.eq_dec a b) as [->|Hab].
    + rewrite assign_assign. rewrite (assign_unchanged _ _ Ha). apply Permutation_refl.
    + eapply perm_trans; [apply assign_transposed; auto|].
      rewrite (assign_unchanged _ _ Ha), (assign_unchanged _ _ Hb). apply Permutation_refl.
  - destruct (Nat.eq_dec a b) as [->|Hab].
    + rewrite nth_error_assign_same by (rewrite assign_length; exact Hlb). congruence.
    + rewrite nth_error_assign_other by auto. now apply nth_error_assign_same.
  - apply nth_error_assign_same. now rewrite assign_length.
  - intros i Hia Hib. rewrite !nth_error_assign_other by auto. reflexivity.
  - intros first len Hfa Hfb.
    apply same_frame_assign; [|exact Hfb].
    apply same_frame_assign; [apply same_frame_refl|exact Hfa].
Qed.

Local Ltac median_case :=
  split; [reflexivity|split; [assumption|split; [reflexivity|split; [auto|split;
    [reflexivity|split; [|intros; match goal with H : _ |- _ => apply H; assumption end]]]]]].

(** [__move_median_to_first] leaves an element that is not less than the
    one it moved to [result] at one of the three places. *)
Lemma move_median_to_first_guard (v : list A) (result a b c : nat) :
  incl v l ->
  (result < List.length v)%nat -> (a < List.length v)%nat ->
  (b < List.length v)%nat -> (c < List.length v)%nat ->
  result <> a -> result <> b -> result <> c -> a <> b -> a <> c -> b <> c ->
  exists v' p s y,
    __move_median_to_first comp v result a b c = Some v' /\
    Permutation v' v /\
    nth_error v' result = Some p /\
    (s = a \/ s = b \/ s = c) /\ nth_error v' s = Some y /\ comp y p = false /\
    (forall first len,
       (first <= result < first + len)%nat -> (first <= a < first + len)%nat ->
       (first <= b < first + len)%nat -> (first <= c < first + len)%nat ->
       same_frame v' v first len).
Proof.
  intros Hin Hr Ha Hb Hc Hra Hrb Hrc Hab Hac Hbc. unfold __move_median_to_first.
  destruct (nth_error v result) as [r|] eqn:Er; [|apply nth_error_None in Er; lia].
  destruct (nth_error v a) as [x|] eqn:Ex; [|apply nth_error_None in Ex; lia].
  destruct (nth_error v b) as [y|] eqn:Ey; [|apply nth_error_None in Ey; lia].
  destruct (nth_error v c) as [z|] eqn:Ez; [|apply nth_error_None in Ez; lia].
  assert (Hx : In x l) by (apply Hin; eapply nth_error_In; exact Ex).
  assert (Hy : In y l) by (apply Hin; eapply nth_error_In; exact Ey).
  assert (Hz : In z l) by (apply Hin; eapply nth_error_In; exact Ez).
  destruct (comp x y) eqn:Hxy; [destruct (comp y z) eqn:Hyz; [|destruct (comp x z) eqn:Hxz]
                               |destruct (comp x z) eqn:Hxz; [|destruct (comp y z) eqn:Hyz]].
  - destruct (@iter_swap_swaps _ _ _ _ _ Er Ey) as (v' & Hrun & Hperm & Hres & _ & Hother & Hframe).
    exists v', y, c, z. rewrite Hrun, Hres, Hother, Ez by auto.
    median_case. now apply less_not_less.
  - destruct (@iter_swap_swaps _ _ _ _ _ Er Ez) as (v' & Hrun & Hperm & Hres & _ & Hother & Hframe).
    exists v', z, b, y. rewrite Hrun, Hres, Hother, Ey by auto.
    median_case. assumption.
  - destruct (@iter_swap_swaps _ _ _ _ _ Er Ex) as (v' & Hrun & Hperm & Hres & _ & Hother & Hframe).
    exists v', x, b, y. rewrite Hrun, Hres, Hother, Ey by auto.
    median_case. now apply less_not_less.
  - destruct (@iter_swap_swaps _ _ _ _ _ Er Ex) as (v' & Hrun & Hperm & Hres & _ & Hother & Hframe).
    exists v', x, c, z. rewrite Hrun, Hres, Hother, Ez by auto.
    median_case. now apply less_not_less.
  - destruct (@iter_swap_swaps _ _ _ _ _ Er Ez) as (v' & Hrun & Hperm & Hres & _ & Hother & Hframe).
    exists v', z, a, x. rewrite Hrun, Hres, Hother, Ex by auto.
    median_case. assumption.
  - destruct (@iter_swap_swaps _ _ _ _ _ Er Ey) as (v' & Hrun & Hperm & Hres & _ & Hother & Hframe).
    exists v', y, a, x. rewrite Hrun, Hres, Hother, Ex by auto.
    median_case. assumption.
Qed.

(** The first loop of [__unguarded_partition] stops at the first element
    that is not less than the pivot, if there is one. *)
Lemma scan_up_stops (p : A) :
  forall rest first s y,
    nth_error rest s = Some y -> comp y p = false ->
    exists k y1,
      scan_up comp rest p first = Some (first + k)%nat /\ (k <= s)%nat /\
      nth_error rest k = Some y1 /\ comp y1 p = false.
Proof.
  induction rest as [|x rest IH]; intros first s y Hs Hy.
  - destruct s; discriminate.
  - cbn [scan_up]. destruct (comp x p) eqn:Hx.
    + destruct s as [|s]; [simpl in Hs; congruence|].
      destruct (IH (S first) s y Hs Hy) as (k & y1 & Hrun & Hk & Hk1 & Hy1).
      exists (S k), y1. rewrite Hrun. repeat split; auto; (f_equal; lia) || lia.
    + exists 0%nat, x. rewrite Nat.add_0_r. repeat split; auto. lia.
Qed.

(** The second loop stops at the last element that is not greater than the
    pivot, if there is one. *)
Lemma scan_down_stops (v : list A) (p : A) (s : nat) (y : A) :
  nth_error v s = Some y -> comp p y = false ->
  forall last,
    (s <= last < List.length v)%nat ->
    exists last1 y1,
      scan_down comp v p last = Some last1 /\ (s <= last1 <= last)%nat /\
      nth_error v last1 = Some y1 /\ comp p y1 = false /\
      (forall j x, (last1 < j <= last)%nat -> nth_error v j = Some x -> comp p x = true).
Proof.
  intros Hs Hy. induction last as [|last IH]; intros Hlast.
  - assert (s = 0%nat) by lia. subst s. cbn [scan_down]. rewrite Hs, Hy.
    exists 0%nat, y. repeat split; auto. intros j x Hj. lia.
  - cbn [scan_down].
    destruct (nth_error v (S last)) as [x|] eqn:Ex; [|apply nth_error_None in Ex; lia].
    destruct (comp p x) eqn:Hx.
    + assert (Hne : s <> S last) by (intros ->; congruence).
      destruct IH as (last1 & y1 & Hrun & Hl1 & Hy1 & Hpy1 & Habove); [lia|].
      exists last1, y1. rewrite Hrun. repeat split; auto; try lia.
      intros j x' Hj Hx'. destruct (Nat.eq_dec j (S last)) as [->|Hjl].
      * congruence.
      * apply (Habove j); [lia|exact Hx'].
    + exists (S last), x. repeat split; auto; try lia.
Qed.

(** The loop of [__unguarded_partition]: what is at [last] and behind it
    is not less than the pivot, and an element that is not less than the
    pivot stops the first loop before [last]. *)
Lemma unguarded_partition_loop_cuts (pivot last0 : nat) (p : A) :
  forall turns v first last,
    incl v l -> nth_error v pivot = Some p ->
    (pivot < first)%nat -> (last <= last0 <= List.length v)%nat ->
    (exists s y, (first <= s <= last)%nat /\ nth_error v s = Some y /\ comp y p = false) ->
    (forall j y, (last <= j < last0)%nat -> nth_error v j = Some y -> comp y p = false) ->
    (last < turns)%nat ->
    exists v' cut,
      unguarded_partition_loop comp turns v first last pivot = Some (v', cut) /\
      Permutation v' v /\ same_frame v' v (S pivot) (last0 - S pivot) /\
      (first <= cut <= last0)%nat /\ nth_error v' pivot = Some p /\
      (forall j y, (cut <= j < last0)%nat -> nth_error v' j = Some y -> comp y p = false).
Proof.
  induction turns as [|turns IH];
    intros v first last Hin Hp Hfirst Hlast (s & y & Hs & Hsy & Hyp) Hbehind Hturns; [lia|].
  cbn [unguarded_partition_loop]. rewrite Hp.
  destruct last as [|last']; [lia|].
  assert (Hpl : In p l) by (apply Hin; eapply nth_error_In; exact Hp).
  destruct (@scan_up_stops p (skipn first v) first (s - first) y) as (k & y1 & Hup & Hk & Hy1 & Hy1p);
    [rewrite nth_error_skipn; replace (first + (s - first))%nat with s by lia; exact Hsy
    |exact Hyp|].
  rewrite nth_error_skipn in Hy1. rewrite Hup.
  destruct (@scan_down_stops v p pivot p Hp (@not_less_refl p Hpl) last' ltac:(lia))
    as (last1 & z1 & Hdown & Hl1 & Hz1 & Hpz1 & Habove).
  rewrite Hdown.
  assert (Hrest : forall j x, (last1 < j < last0)%nat -> nth_error v j = Some x ->
            comp x p = false).
  { intros j x Hj Hx. destruct (Nat.le_gt_cases (S last') j) as [Hge|Hlt].
    - apply (Hbehind j); [lia|exact Hx].
    - apply less_not_less; auto.
      + apply Hin. eapply nth_error_In. exact Hx.
      + apply (Habove j); [lia|exact Hx]. }
  destruct (Nat.ltb_spec (first + k) last1) as [Hgo|Hstop]; cbn [negb].
  - destruct (@iter_swap_swaps _ _ _ _ _ Hy1 Hz1) as (v1 & Hswap & Hperm1 & Hv1a & Hv1b & Hother & Hframe1).
    rewrite Hswap.
    assert (Hin1 : incl v1 l).
    { intros x Hx. apply Hin. eapply Permutation_in; [exact Hperm1|exact Hx]. }
    assert (Hlen1 : List.length v1 = List.length v) by now apply Permutation_length.
    destruct (IH v1 (S (first + k)) last1) as (v2 & cut & Hrun & Hperm2 & Hframe2 & Hcut & Hp2 & Hcut2).
    + exact Hin1.
    + rewrite Hother by lia. exact Hp.
    + lia.
    + lia.
    + exists last1, y1. repeat split; auto; lia.
    + intros j x Hj Hx. destruct (Nat.eq_dec j last1) as [->|Hne].
      * congruence.
      * rewrite Hother in Hx by lia. apply (Hrest j); [lia|exact Hx].
    + lia.
    + exists v2, cut. rewrite Hrun. split; [reflexivity|].
      split; [eapply perm_trans; eassumption|].
      split; [|split; [lia|split; [exact Hp2|exact Hcut2]]].
      eapply same_frame_trans; [exact Hframe2|]. apply Hframe1; lia.
  - exists v, (first + k)%nat. split; [reflexivity|]. split; [apply Permutation_refl|].
    split; [apply same_frame_refl|]. split; [lia|]. split; [exact Hp|].
    intros j x Hj Hx. destruct (Nat.eq_dec j last1) as [->|Hne].
    + assert (first + k = last1)%nat by lia. congruence.
    + apply (Hrest j); [lia|exact Hx].
Qed.

(** [__unguarded_partition_pivot]: the pivot stays in front of the cut, and
    nothing behind the cut is less than it. *)
Lemma unguarded_partition_pivot_cuts (v : list A) (first last : nat) :
  incl v l -> (last <= List.length v)%nat -> (_S_threshold < last - first)%nat ->
  exists v' cut p,
    __unguarded_partition_pivot comp v first last = Some (v', cut) /\
    Permutation v' v /\ same_frame v' v first (last - first) /\
    (first < cut <= last)%nat /\ nth_error v' first = Some p /\
    (forall j y, (cut <= j < last)%nat -> nth_error v' j = Some y -> comp y p = false).
Proof.
  intros Hin Hlast Hlen. unfold _S_threshold in Hlen. unfold __unguarded_partition_pivot.
  cbv zeta. halves (last - first)%nat.
  destruct (@move_median_to_first_guard v first (first + 1) (first + (last - first) / 2)
              (last - 1) Hin) as (v1 & p & s & y & Hrun & Hperm1 & Hp & Hs & Hy & Hyp & Hframe1);
    try lia.
  rewrite Hrun. unfold __unguarded_partition.
  assert (Hin1 : incl v1 l).
  { intros x Hx. apply Hin. eapply Permutation_in; [exact Hperm1|exact Hx]. }
  assert (Hlen1 : List.length v1 = List.length v) by now apply Permutation_length.
  destruct (@unguarded_partition_loop_cuts first last p (S last) v1 (first + 1) last)
    as (v2 & cut & Hrun2 & Hperm2 & Hframe2 & Hcut & Hp2 & Hcut2); auto; try lia.
  - exists s, y. repeat split; auto; lia.
  - exists v2, cut, p. rewrite Hrun2. split; [reflexivity|].
    split; [eapply perm_trans; eassumption|].
    split; [|split; [lia|split; [exact Hp2|exact Hcut2]]].
    apply same_frame_trans with (v2 := v1).
    + apply (@same_frame_wider v2 v1 (S first) (last - S first) first (last - first) Hframe2); lia.
    + apply Hframe1; lia.
Qed.

(** *** The introsort loop *)

Lemma in_firstn (v : list A) (n : nat) (x : A) : In x (firstn n v) -> In x v.
Proof.
  intros Hx. rewrite <- (firstn_skipn n v). apply in_or_app. now left.
Qed.

Lemma range_incl (v : list A) (first len : nat) :
  incl (firstn len (skipn first v)) v.
Proof.
  intros x Hx. apply in_firstn in Hx. rewrite <- (firstn_skipn first v).
  apply in_or_app. now right.
Qed.

Lemma in_range (v : list A) (first len : nat) (x : A) :
  In x (firstn len (skipn first v)) ->
  exists i, (i < len)%nat /\ nth_error v (first + i) = Some x.
Proof.
  intros Hx. destruct (In_nth_error _ _ Hx) as (i & Hi).
  assert (Hlt : (i < len)%nat).
  { assert (Hsome : (i < List.length (firstn len (skipn first v)))%nat)
      by (apply nth_error_Some; congruence).
    rewrite length_firstn in Hsome. lia. }
  exists i. split; [exact Hlt|]. now rewrite <- nth_error_range with (len := len).
Qed.

Lemma firstn_add (s : list A) (a b : nat) :
  firstn (a + b) s = firstn a s ++ firstn b (skipn a s).
Proof.
  revert s. induction a as [|a IH]; intros [|x s]; simpl; auto.
  - now rewrite firstn_nil.
  - now rewrite IH.
Qed.

Lemma range_app (v : list A) (first a b : nat) :
  firstn (a + b) (skipn first v)
  = firstn a (skipn first v) ++ firstn b (skipn (first + a) v).
Proof. now rewrite firstn_add, skipn_skipn, (Nat.add_comm a first). Qed.

Lemma incl_permutation (v v' : list A) : Permutation v' v -> incl v l -> incl v' l.
Proof. intros Hperm Hin x Hx. apply Hin. eapply Permutation_in; eassumption. Qed.

(** A range of up to [_S_threshold] elements is left as it is. *)
Lemma least_in_front_small (mid : list A) :
  incl mid l -> (List.length mid <= _S_threshold)%nat -> least_in_front comp mid.
Proof.
  intros Hin Hlen x Hx. exists x. rewrite firstn_all2 by exact Hlen.
  split; [exact Hx|]. apply not_less_refl. now apply Hin.
Qed.

(** A range with its least element in front. *)
Lemma least_in_front_sorted (v : list A) (first n : nat) :
  incl v l -> (first + n <= List.length v)%nat ->
  sorted_from comp v first n 1 ->
  least_in_front comp (firstn n (skipn first v)).
Proof.
  intros Hin Hlen Hsorted x Hx.
  destruct (@in_range _ _ _ _ Hx) as (i & Hi & Hxi).
  destruct (nth_error v (first + 0)) as [m|] eqn:Hm; [|apply nth_error_None in Hm; lia].
  exists m. split.
  - apply nth_error_In with (n := 0%nat). rewrite nth_error_firstn. unfold _S_threshold.
    cbn [Nat.ltb Nat.leb]. rewrite nth_error_range by lia. exact Hm.
  - destruct (Nat.eq_dec i 0) as [->|Hne].
    + assert (x = m) by congruence. subst m. apply not_less_refl. apply Hin.
      eapply nth_error_In. exact Hxi.
    + apply (Hsorted 0%nat i m x); auto; lia.
Qed.

(** The two ranges of a partition, each with a least element in front, and
    no element of the second less than the pivot, which is in the first. *)
Lemma least_in_front_app (left right : list A) (p : A) :
  incl left l -> incl right l ->
  least_in_front comp left -> least_in_front comp right ->
  In p left -> (forall x, In x right -> comp x p = false) ->
  least_in_front comp (left ++ right).
Proof.
  intros Hl Hr Hleft Hright Hp Hcut x Hx.
  assert (Hfront : forall m, In m (firstn _S_threshold left) ->
            In m (firstn _S_threshold (left ++ right))).
  { intros m Hm. rewrite firstn_app. apply in_or_app. now left. }
  apply in_app_or in Hx. destruct Hx as [Hx|Hx].
  - destruct (Hleft x Hx) as (m & Hm & Hxm). exists m. auto.
  - destruct (Hleft p Hp) as (m & Hm & Hpm). exists m. split; [auto|].
    apply (@not_less_trans m p x); auto.
    apply Hl. eapply in_firstn. exact Hm.
Qed.

Lemma introsort_loop_partitions :
  forall depth_limit v first last,
    incl v l -> (first <= last <= List.length v)%nat ->
    exists v',
      __introsort_loop comp depth_limit v first last = Some v' /\
      Permutation v' v /\ same_frame v' v first (last - first) /\
      least_in_front comp (firstn (last - first) (skipn first v')).
Proof.
  induction depth_limit as [|depth IH]; intros v first last Hin Hlast;
    destruct (Nat.le_gt_cases (last - first) _S_threshold) as [Hsmall|Hlarge].
  1,3: exists v; rewrite introsort_loop_small by exact Hsmall;
    (split; [reflexivity|]); (split; [apply Permutation_refl|]);
    (split; [apply same_frame_refl|]);
    apply least_in_front_small;
    [eapply incl_tran; [apply range_incl|exact Hin]|rewrite length_firstn; lia].
  - cbn [__introsort_loop].
    destruct (Nat.ltb_spec _S_threshold (last - first)) as [_|]; [|lia].
    destruct (@partial_sort_sorts v first (last - first) Hin ltac:(lia))
      as (v' & Hrun & Hin' & Hsorted & Hperm & Hframe).
    replace (first + (last - first))%nat with last in Hrun by lia.
    exists v'. split; [exact Hrun|]. split; [exact Hperm|]. split; [exact Hframe|].
    apply least_in_front_sorted; auto.
    destruct Hframe as (-> & _). lia.
  - cbn [__introsort_loop].
    destruct (Nat.ltb_spec _S_threshold (last - first)) as [_|]; [|lia].
    destruct (@unguarded_partition_pivot_cuts v first last Hin ltac:(lia) Hlarge)
      as (v1 & cut & p & Hrun1 & Hperm1 & Hframe1 & Hcut & Hp & Hbehind).
    rewrite Hrun1.
    assert (Hin1 : incl v1 l) by (eapply incl_permutation; eassumption).
    assert (Hlen1 : List.length v1 = List.length v) by now apply Permutation_length.
    destruct (IH v1 cut last Hin1 ltac:(lia))
      as (v2 & Hrun2 & Hperm2 & Hframe2 & Hleast2).
    rewrite Hrun2.
    assert (Hin2 : incl v2 l) by (eapply incl_permutation; eassumption).
    assert (Hlen2 : List.length v2 = List.length v1) by now apply Permutation_length.
    destruct (IH v2 first cut Hin2 ltac:(lia))
      as (v3 & Hrun3 & Hperm3 & Hframe3 & Hleast3).
    assert (Hin3 : incl v3 l) by (eapply incl_permutation; eassumption).
    exists v3. split; [exact Hrun3|].
    split; [eapply perm_trans; [exact Hperm3|eapply perm_trans; eassumption]|].
    split.
    { apply same_frame_trans with (v2 := v2);
        [apply (@same_frame_wider v3 v2 first (cut - first) first (last - first) Hframe3); lia|].
      apply same_frame_trans with (v2 := v1);
        [apply (@same_frame_wider v2 v1 cut (last - cut) first (last - first) Hframe2); lia|].
      exact Hframe1. }
    replace (last - first)%nat with ((cut - first) + (last - cut))%nat by lia.
    rewrite range_app. replace (first + (cut - first))%nat with cut by lia.
    assert (Hright : firstn (last - cut) (skipn cut v3) = firstn (last - cut) (skipn cut v2)).
    { destruct Hframe3 as (_ & _ & Hs).
      replace (first + (cut - first))%nat with cut in Hs by lia. now rewrite Hs. }
    rewrite Hright.
    apply least_in_front_app with (p := p).
    + eapply incl_tran; [apply range_incl|exact Hin3].
    + eapply incl_tran; [apply range_incl|exact Hin2].
    + exact Hleast3.
    + exact Hleast2.
    + apply Permutation_in with (l := firstn (cut - first) (skipn first v2)).
      * apply Permutation_sym. now apply same_frame_range.
      * apply nth_error_In with (n := 0%nat). rewrite nth_error_range by lia.
        rewrite Nat.add_0_r. destruct Hframe2 as (_ & Hf & _).
        assert (Hnth : nth_error (firstn cut v2) first = nth_error (firstn cut v1) first)
          by now rewrite Hf.
        rewrite !nth_error_firstn in Hnth.
        destruct (Nat.ltb_spec first cut); [|lia]. congruence.
    + intros x Hx.
      assert (Hx1 : In x (firstn (last - cut) (skipn cut v1))).
      { eapply Permutation_in; [|exact Hx]. now apply same_frame_range. }
      destruct (@in_range _ _ _ _ Hx1) as (i & Hi & Hxi).
      apply (Hbehind (cut + i)%nat); [lia|exact Hxi].
Qed.

(** *** The final insertion sort *)

Lemma sorted_head_least (s : list A) :
  incl s l -> sorted_by comp s -> s <> [] ->
  exists g, In g s /\ forall m, In m s -> comp m g = false.
Proof.
  destruct s as [|g s']; [congruence|]. intros Hin Hsorted _.
  exists g. split; [now left|]. inversion Hsorted as [|? ? Hg _]; subst.
  intros m [<-|Hm].
  - apply not_less_refl. apply Hin. now left.
  - rewrite Forall_forall in Hg. now apply Hg.
Qed.

(** More than [_S_threshold] elements: the first [_S_threshold] are sorted
    with [__insertion_sort], the others are put in their places without a
    look at the start of the vector. *)
Lemma final_insertion_sort_sorts (v : list A) :
  incl v l -> (_S_threshold < List.length v)%nat -> least_in_front comp v ->
  __final_insertion_sort comp v 0 (List.length v) = Some (stable_sort comp v).
Proof.
  intros Hin Hlen Hleast. unfold least_in_front, _S_threshold in *.
  destruct v as [|a t]; [simpl in Hlen; lia|].
  assert (Hfirst : firstn 16 (a :: t) = a :: firstn 15 t) by reflexivity.
  rewrite Hfirst in Hleast. clear Hfirst.
  assert (Ht : t = firstn 15 t ++ skipn 15 t) by (symmetry; apply firstn_skipn).
  assert (Hmid : List.length (firstn 15 t) = 15%nat)
    by (rewrite length_firstn; simpl in Hlen; lia).
  assert (Htail : List.length (skipn 15 t) = (List.length (a :: t) - 16)%nat)
    by (rewrite length_skipn; simpl; lia).
  set (n := List.length (a :: t)) in *.
  revert Ht Hmid Htail Hleast.
  generalize (firstn 15 t) as mid. generalize (skipn 15 t) as tail.
  intros tail mid Ht Hmid Htail Hleast.
  assert (Hfront : incl ([a] ++ mid) l).
  { intros x Hx. apply Hin. rewrite Ht. simpl in *. destruct Hx; auto.
    right. apply in_or_app. auto. }
  pose proof (@fold_insert_sorted l mid [a] Hswo Hfront ltac:(repeat constructor)) as Hfold.
  cbv zeta in Hfold. destruct Hfold as (Hperm & Hsorted & _).
  pose proof (@insertion_sort_loop_sorts l mid [a] tail Hswo Hfront
                ltac:(discriminate) ltac:(repeat constructor)) as Hloop.
  rewrite Hmid, <- Ht in Hloop. cbn [app List.length] in Hloop.
  assert (Hstable : stable_sort comp (a :: t)
            = fold_left (fun sorted x => insert_sorted comp x sorted) tail
                (fold_left (fun sorted x => insert_sorted comp x sorted) mid [a])).
  { unfold stable_sort. rewrite Ht. cbn [fold_left insert_sorted]. apply fold_left_app. }
  rewrite Hstable. clear Hstable.
  revert Hperm Hsorted Hloop.
  generalize (fold_left (fun sorted x => insert_sorted comp x sorted) mid [a]) as s.
  intros s Hperm Hsorted Hloop.
  assert (Hs : List.length s = 16%nat).
  { rewrite <- (Permutation_length Hperm), length_app, Hmid. reflexivity. }
  assert (Hsl : incl s l).
  { intros x Hx. apply Hfront. eapply Permutation_in; [apply Permutation_sym; exact Hperm|exact Hx]. }
  destruct (@sorted_head_least s Hsl Hsorted) as (g & Hg & Hleastg);
    [intros ->; discriminate|].
  pose proof (@unguarded_insertion_sort_loop_sorts l tail s g Hswo) as Hloop2.
  rewrite Hs, Htail in Hloop2.
  unfold __final_insertion_sort, __insertion_sort, __unguarded_insertion_sort, _S_threshold.
  rewrite Nat.sub_0_r.
  destruct (Nat.ltb_spec 16 n) as [_|]; [|lia].
  cbn [Nat.add Nat.eqb Nat.sub]. rewrite Hloop.
  apply Hloop2; auto.
  - intros x Hx. apply in_app_or in Hx. destruct Hx as [Hx|Hx]; [now apply Hsl|].
    apply Hin. rewrite Ht. right. apply in_or_app. now right.
  - intros y Hy.
    assert (Hyv : In y (a :: t)).
    { apply in_app_or in Hy. destruct Hy as [Hy|Hy].
      - rewrite Ht. change (a :: mid ++ tail) with (([a] ++ mid) ++ tail).
        apply in_or_app. left.
        eapply Permutation_in; [apply Permutation_sym; exact Hperm|exact Hy].
      - rewrite Ht. right. apply in_or_app. now right. }
    destruct (Hleast y Hyv) as (m & Hm & Hym).
    assert (Hms : In m s) by (eapply Permutation_in; [exact Hperm|exact Hm]).
    apply (@not_less_trans g m y); auto.
Qed.

End Heap.

(** [std::sort] on a strict weak ordering: the result is the stable sort of
    what the introsort loop made of the vector. *)
Theorem sort_sorts (v : list A) :
  strict_weak_ordering comp v ->
  exists v', Permutation v v' /\ __sort comp v = Some (stable_sort comp v').
Proof.
  intros Hswo. destruct (Nat.le_gt_cases (List.length v) _S_threshold) as [Hsmall|Hlarge].
  - exists v. split; [apply Permutation_refl|now apply sort_small].
  - destruct (@introsort_loop_partitions v Hswo (Nat.log2 (List.length v) * 2) v 0
                (List.length v) (incl_refl v) ltac:(lia))
      as (v' & Hrun & Hperm & Hframe & Hleast).
    exists v'. split; [now apply Permutation_sym|].
    unfold __sort. destruct v as [|a t] eqn:Hv; [simpl in Hlarge; lia|].
    rewrite <- Hv in *. rewrite Hrun.
    rewrite Nat.sub_0_r in Hleast. cbn [skipn] in Hleast.
    rewrite <- (Permutation_length Hperm) in *. rewrite firstn_all in Hleast.
    apply final_insertion_sort_sorts with (l := v); auto.
    eapply incl_permutation; [exact Hperm|apply incl_refl].
Qed.

(** The result of [std::sort] is the vector in another order, and sorted. *)
Theorem sort_sorted (v : list A) :
  strict_weak_ordering comp v ->
  exists out, __sort comp v = Some out /\ Permutation v out /\ sorted_by comp out.
Proof.
  intros Hswo. destruct (sort_sorts Hswo) as (v' & Hperm & Hrun).
  exists (stable_sort comp v'). split; [exact Hrun|].
  assert (Hswo' : strict_weak_ordering comp v').
  { apply strict_weak_ordering_incl with (l := v); [|exact Hswo].
    intros x Hx. eapply Permutation_in; [apply Permutation_sym; exact Hperm|exact Hx]. }
  pose proof (@fold_insert_sorted v' v' [] Hswo' (incl_refl _) ltac:(constructor)) as Hfold.
  cbv zeta in Hfold. destruct Hfold as (Hperm' & Hsorted & _).
  split; [|exact Hsorted]. eapply perm_trans; [exact Hperm|exact Hperm'].
Qed.

End Ordering.

End LibstdcxxFacts.

(** ** Ordering the bricks *)
Module OrderFacts.

Import RayCast.

Section Sorting.

Variable A : Type.
Variable comp : A -> A -> bool.
Hypothesis comp_asym : forall a b, comp a b = true -> comp b a = false.
Hypothesis comp_trans :
  forall a b c, comp a b = true -> comp b c = true -> comp a c = true.

Lemma insert_sorted_perm (a : A) (l : list A) :
  Permutation (a :: l) (insert_sorted comp a l).
Proof.
  induction l as [|b t IH]; simpl.
  - apply Permutation_refl.
  - destruct (comp a b).
    + apply Permutation_refl.
    + eapply perm_trans; [apply perm_swap|]. now apply perm_skip.
Qed.

Lemma insertion_sort_perm (l : list A) : Permutation l (insertion_sort comp l).
Proof.
  induction l as [|a t IH]; simpl.
  - constructor.
  - eapply perm_trans; [apply perm_skip, IH | apply insert_sorted_perm].
Qed.

Lemma insert_sorted_sorted (a : A) (l : list A) :
  sorted_by comp l -> sorted_by comp (insert_sorted comp a l).
Proof.
  unfold sorted_by. induction l as [|b t IH]; simpl; intros Hs.
  - repeat constructor.
  - inversion Hs as [|? ? Hb Ht]; subst.
    destruct (comp a b) eqn:Hab.
    + constructor; [|exact Hs].
      constructor; [now apply comp_asym|].
      rewrite Forall_forall in *. intros y Hy.
      destruct (comp y a) eqn:Hya; [|reflexivity].
      rewrite <- (Hb y Hy). symmetry. now apply comp_trans with a.
    + constructor; [|now apply IH].
      apply (Permutation_Forall (insert_sorted_perm a t)).
      now constructor.
Qed.

Lemma insertion_sort_sorted (l : list A) : sorted_by comp (insertion_sort comp l).
Proof.
  induction l as [|a t IH]; simpl.
  - constructor.
  - now apply insert_sorted_sorted.
Qed.

(** [std::sort] always has a result to leave. *)
Lemma std_sort_total (l : list A) : exists out, std_sort comp l out.
Proof.
  exists (insertion_sort comp l). intros _. split.
  - apply insertion_sort_perm.
  - apply insertion_sort_sorted.
Qed.

End Sorting.

Lemma ordered_pairs_strongly_sorted (A : Type) (R R' : A -> A -> Prop) (l : list A) :
  (forall a b, In a l -> In b l -> R a b -> R' a b) ->
  ForallOrdPairs R l -> StronglySorted R' l.
Proof.
  induction l as [|a t IH]; intros Himp Hs.
  - constructor.
  - inversion Hs as [|? ? Ha Ht]; subst. constructor.
    + apply IH; [|exact Ht]. intros x y Hx Hy. apply Himp; now right.
    + rewrite Forall_forall in *. intros y Hy.
      apply Himp; [now left | now right | now apply Ha].
Qed.

(** Among bricks whose distances are numbers [DistanceOperator] is the
    strict weak ordering [std::sort] asks for. *)
Lemma measurable_strict_weak_ordering (dataSource : DataSource) (frustum : Frustum)
    (bricks : NodeIds) :
  Forall (measurable dataSource frustum) bricks ->
  strict_weak_ordering (DistanceOperator dataSource frustum) bricks.
Proof.
  intros Hnum. rewrite Forall_forall in Hnum.
  unfold strict_weak_ordering, DistanceOperator, equivalent, measurable in *.
  split; [|split].
  - intros a _. destruct (Float32.ltb _ _) eqn:H; [|reflexivity].
    now rewrite (Float32Facts.ltb_asym _ _ H) in H.
  - intros a b c _ _ _. apply Float32Facts.ltb_trans.
  - intros a b c _ Hb _ Hab Hbc.
    apply andb_true_iff in Hab, Hbc. rewrite !negb_true_iff in Hab, Hbc.
    destruct Hab as [Hab Hba], Hbc as [Hbc Hcb].
    destruct (@Float32Facts.not_ltb_trans _ _ _ (Hnum b Hb) Hab Hba Hbc Hcb) as [-> ->].
    reflexivity.
Qed.

(** C1, as the code has it.  When the distance of every candidate is a
    number, [DistanceOperator] is the strict weak ordering [std::sort] asks
    for.  libstdc++'s [std::sort] then returns, whatever the number of
    candidates, with a result [std::sort] may leave; and whatever
    [std::sort] may leave is a permutation of the candidates along which
    the distances ascend.  Up to 16 candidates libstdc++ sorts by insertion
    alone, and [order] returns the stable sort: candidates at equal
    distance keep their order.  (Beyond that they need not, and with a
    distance that is not a number nothing is guaranteed.) *)
Theorem order_sorts_by_distance (dataSource : DataSource) (frustum : Frustum)
    (bricks : NodeIds)
    (Hnumbers : Forall (measurable dataSource frustum) bricks) :
  let comp := DistanceOperator dataSource frustum in
  strict_weak_ordering comp bricks /\
  (exists rbs,
     order_libstdcxx dataSource frustum bricks = Some rbs /\
     order dataSource frustum bricks rbs) /\
  (forall rbs, order dataSource frustum bricks rbs ->
     Permutation bricks rbs /\
     StronglySorted
       (fun a b => Float32.leb (distance dataSource frustum a)
                               (distance dataSource frustum b) = true) rbs) /\
  ((List.length bricks <= 16)%nat ->
     order_libstdcxx dataSource frustum bricks = Some (stable_sort comp bricks) /\
     order dataSource frustum bricks (stable_sort comp bricks) /\
     stable comp bricks (stable_sort comp bricks)).
Proof.
  intros comp.
  pose proof (@measurable_strict_weak_ordering dataSource frustum bricks Hnumbers) as Hswo. fold comp in Hswo.
  destruct (@LibstdcxxFacts.fold_insert_sorted _ comp bricks bricks [] Hswo
              (incl_refl bricks) (FOP_nil _)) as (Hperm & Hsorted & Hstable).
  fold (stable_sort comp bricks) in Hperm, Hsorted, Hstable.
  split; [exact Hswo|]. split; [|split].
  - destruct (@LibstdcxxFacts.sort_sorted _ comp bricks Hswo) as (rbs & Hrun & Hp & Hs).
    exists rbs. split; [exact Hrun|]. intros _. now split.
  - intros rbs Horder. destruct (Horder Hswo) as [Hp Hs]. split; [exact Hp|].
    apply (Permutation_Forall Hp) in Hnumbers. rewrite Forall_forall in Hnumbers.
    eapply ordered_pairs_strongly_sorted; [|exact Hs].
    intros a b Ha Hb Hab. unfold comp, DistanceOperator in Hab.
    apply Float32Facts.not_ltb_leb; auto; now apply Hnumbers.
  - intros Hlen. split; [|split].
    + now apply LibstdcxxFacts.sort_small.
    + intros _. now split.
    + intros a Ha. now rewrite (Hstable a Ha).
Qed.

(** The bricks 3, 1, 2 of the row, seen from the origin. *)
Lemma order_sorts_by_distance_example :
  order_libstdcxx row_of_bricks identity_view [3%N; 1%N; 2%N] = Some [1%N; 2%N; 3%N] /\
  order row_of_bricks identity_view [3%N; 1%N; 2%N] [1%N; 2%N; 3%N].
Proof.
  destruct (@order_sorts_by_distance row_of_bricks identity_view [3%N; 1%N; 2%N])
    as (_ & _ & _ & Hsmall).
  - repeat constructor.
  - destruct Hsmall as (Hrun & Horder & _); [simpl; lia|].
    split; [exact Hrun|exact Horder].
Defined.

(** C1 as stated fails: the seventeen candidates 1 to 17, all at distance
    1, come out of libstdc++'s [std::sort] in another order, within what
    [std::sort] may leave. *)
Lemma order_need_not_be_stable :
  let bricks :=
    [1; 2; 3; 4; 5; 6; 7; 8; 9; 10; 11; 12; 13; 14; 15; 16; 17]%N in
  let rbs :=
    [9; 17; 16; 15; 14; 13; 12; 11; 10; 1; 8; 7; 6; 5; 4; 3; 2]%N in
  Forall (fun rb => distance two_bricks identity_view rb = Float32.one) bricks /\
  order_libstdcxx two_bricks identity_view bricks = Some rbs /\
  order two_bricks identity_view bricks rbs /\
  ~ stable (DistanceOperator two_bricks identity_view) bricks rbs.
Proof.
  cbv zeta. split; [repeat constructor|]. split; [vm_compute; reflexivity|]. split.
  - intros _. split.
    + apply Permutation_sym.
      exact (insertion_sort_perm N.ltb
               [9; 17; 16; 15; 14; 13; 12; 11; 10; 1; 8; 7; 6; 5; 4; 3; 2]%N).
    + unfold sorted_by. repeat constructor.
  - intros Hst. specialize (Hst 1%N (or_introl eq_refl)). vm_compute in Hst.
    discriminate.
Qed.

End OrderFacts.

(** ** Rendering a frame *)
Module RenderFacts.

Import RayCast.

Section Bricks.

Variable INVALID_TEXTURE_ID : N.
Variable textureCache : Cache.

Local Abbreviation renderBricks := (renderBricks INVALID_TEXTURE_ID textureCache).
Local Abbreviation textured := (textured INVALID_TEXTURE_ID textureCache).
Local Abbreviation positions := (textured_positions INVALID_TEXTURE_ID textureCache).

(** The loop leaves everything but the visible nodes, the used textures and
    the draw calls alone, and extends those by the textured bricks. *)
Lemma renderBricks_textured (bricks : NodeIds) :
  Forall (cached textureCache) bricks ->
  forall (impl : Impl) (index : nat),
  exists impl',
    renderBricks impl bricks index = Some impl' /\
    _visibleNodes impl' = _visibleNodes impl ++ filter textured bricks /\
    drawArrays impl' = drawArrays impl ++ map draw_of (positions bricks index).
Proof.
  induction 1 as [|brick rest Hc _ IH]; intros impl index; simpl.
  - exists impl. now rewrite !app_nil_r.
  - unfold renderBrick, textured, cached in *.
    destruct (textureCache (getId brick)) as [texState|]; [|congruence].
    destruct (N.eqb (textureId texState) INVALID_TEXTURE_ID); simpl.
    + apply IH.
    + match goal with |- context [renderBricks ?i rest (S index)] =>
        destruct (IH i (S index)) as (impl' & Hrun & Hvis & Hdraw) end.
      exists impl'. split; [exact Hrun|]. simpl in Hvis, Hdraw.
      rewrite Hvis, Hdraw, <- !app_assoc. split; reflexivity.
Qed.

(** The positions drawn are those of the textured bricks of the input. *)
Lemma textured_positions_spec (bricks : NodeIds) (index i : nat) :
  In i (positions bricks index) <->
  exists brick, (index <= i)%nat /\ nth_error bricks (i - index) = Some brick
                /\ textured brick = true.
Proof.
  revert index. induction bricks as [|b rest IH]; intros index; simpl.
  - split; [tauto|]. intros (brick & _ & Hn & _).
    destruct (i - index)%nat; discriminate.
  - assert (Hrest : In i (positions rest (S index)) <->
              exists brick, (index < i)%nat /\ nth_error rest (i - S index) = Some brick
                            /\ textured brick = true).
    { rewrite IH. split; intros (brick & Hle & Hn & Ht); exists brick; repeat split; auto. }
    assert (Hstep : (index < i)%nat ->
              nth_error (b :: rest) (i - index) = nth_error rest (i - S index)).
    { intros Hlt. replace (i - index)%nat with (S (i - S index)) by lia. reflexivity. }
    destruct (textured b) eqn:Hb; simpl; rewrite ?Hrest.
    + split.
      * intros [<-|(brick & Hlt & Hn & Ht)].
        -- exists b. rewrite Nat.sub_diag. auto.
        -- exists brick. rewrite (Hstep Hlt). repeat split; auto; lia.
      * intros (brick & Hle & Hn & Ht).
        destruct (Nat.eq_dec index i) as [->|Hne]; [now left|right].
        exists brick. rewrite <- Hstep by lia. repeat split; auto; lia.
    + split.
      * intros (brick & Hlt & Hn & Ht).
        exists brick. rewrite (Hstep Hlt). repeat split; auto; lia.
      * intros (brick & Hle & Hn & Ht).
        destruct (Nat.eq_dec index i) as [->|Hne].
        -- rewrite Nat.sub_diag in Hn. simpl in Hn. congruence.
        -- exists brick. rewrite <- Hstep by lia. repeat split; auto; lia.
Qed.

(** C10: when every brick handed to [onFrameRender] has an object in the
    texture cache, the call returns, [getVisibleNodes] is the input filtered
    to the bricks with a valid texture id, in input order, and one draw call
    is issued for each of these, over the vertices at the brick's position
    in the input: a brick without texture is neither drawn nor listed, and
    those after it still are. *)
Theorem visible_nodes_are_textured_bricks (impl : Impl) (bricks : NodeIds) :
  Forall (cached textureCache) bricks ->
  exists impl',
    onFrameRender INVALID_TEXTURE_ID textureCache impl bricks = Some impl' /\
    getVisibleNodes impl' = filter textured bricks /\
    drawArrays impl' = drawArrays impl ++ map draw_of (positions bricks 0) /\
    (forall i, In i (positions bricks 0) <->
               exists brick, nth_error bricks i = Some brick /\ textured brick = true).
Proof.
  intros Hc. unfold onFrameRender, getVisibleNodes.
  match goal with |- context [renderBricks ?i bricks 0] =>
    destruct (renderBricks_textured Hc i 0) as (impl' & Hrun & Hvis & Hdraw) end.
  exists impl'. repeat split; auto.
  - intros Hi. apply textured_positions_spec in Hi.
    destruct Hi as (brick & _ & Hn & Ht). rewrite Nat.sub_0_r in Hn. eauto.
  - intros (brick & Hn & Ht). apply textured_positions_spec.
    exists brick. rewrite Nat.sub_0_r. repeat split; auto; lia.
Qed.

End Bricks.

(** Of the bricks 1, 2, 3 the second has no texture: 1 and 3 are visible and
    drawn from the vertices at their positions 0 and 2. *)
Lemma visible_nodes_are_textured_bricks_example :
  Forall (cached sample_cache) [1%N; 2%N; 3%N] /\
  (exists impl',
     onFrameRender 0%N sample_cache (blank two_bricks) [1%N; 2%N; 3%N]
       = Some impl' /\
     getVisibleNodes impl' = [1%N; 3%N] /\
     drawArrays impl' = [(0, 36); (72, 36)]%nat).
Proof.
  assert (Hc : Forall (cached sample_cache) [1%N; 2%N; 3%N]).
  { repeat constructor; unfold cached; vm_compute; discriminate. }
  split; [exact Hc|].
  destruct (visible_nodes_are_textured_bricks 0%N (blank two_bricks) Hc)
    as (impl' & Hrun & Hvis & Hdraw & _).
  exists impl'. split; [exact Hrun|]. split; [exact Hvis|exact Hdraw].
Defined.

(** The outcome of [onFrameStart], case by case: it returns only for a
    supported element type, it throws only [Unsupported type in the shader.]
    and only for an unsupported one, and it is undefined only when the
    automatic sampling rate is; the data source is the same afterwards. *)
Lemma onFrameStart_outcome (impl : Impl) (renderBricks : NodeIds) :
  let dataSource := _dataSource impl in
  let t := dataType (getVolumeInfo dataSource) in
  _dataSource (fst (onFrameStart impl renderBricks)) = dataSource /\
  _nSamplesPerRay (fst (onFrameStart impl renderBricks)) = _nSamplesPerRay impl /\
  match snd (onFrameStart impl renderBricks) with
  | Done _ => supported t = true
  | Throw e => e = UnsupportedType /\ supported t = false
  | Undefined =>
      _nSamplesPerRay impl = 0%N /\
      findSamplingRate (getVolumeInfo dataSource) dataSource renderBricks = None
  end.
Proof.
  unfold onFrameStart.
  destruct (N.eqb (_nSamplesPerRay impl) 0) eqn:Hauto.
  - apply N.eqb_eq in Hauto.
    destruct (findSamplingRate _ _ _) as [n|]; [|simpl; auto].
    destruct (dataType (getVolumeInfo (_dataSource impl))); simpl; auto.
  - destruct (dataType (getVolumeInfo (_dataSource impl))); simpl; auto.
Qed.





(** *** The automatic sampling rate *)

Lemma findMaxLOD_from (dataSource : DataSource) (renderBricks : NodeIds) (start : N) :
  let step := fun maxLOD rb =>
    let level := getRefLevel (getNode dataSource rb) in
    if N.ltb maxLOD level then level else maxLOD in
  let found := fold_left step renderBricks start in
  (start <= found)%N /\
  Forall (fun rb => (getRefLevel (getNode dataSource rb) <= found)%N) renderBricks /\
  (found = start \/
   exists rb, In rb renderBricks /\ getRefLevel (getNode dataSource rb) = found).
Proof.
  cbv zeta. revert start. induction renderBricks as [|rb rest IH]; intros start; simpl.
  - split; [lia|]. split; [constructor|now left].
  - match goal with |- context [fold_left _ rest ?acc] =>
      destruct (IH acc) as (Hle & Hall & Hin); set (found := fold_left _ rest acc) in * end.
    destruct (N.ltb_spec start (getRefLevel (getNode dataSource rb))) as [Hlt|Hge].
    + split; [lia|]. split; [constructor; [exact Hle|exact Hall]|].
      right. destruct Hin as [->|(rb' & Hin & Heq)].
      * exists rb. split; [now left|reflexivity].
      * exists rb'. split; [now right|exact Heq].
    + split; [exact Hle|]. split; [constructor; [lia|exact Hall]|].
      destruct Hin as [->|(rb' & Hin & Heq)]; [now left|].
      right. exists rb'. split; [now right|exact Heq].
Qed.

(** [findMaxLOD] is the finest refinement level among the render bricks,
    and level 0 when there is none. *)
Lemma findMaxLOD_finest (dataSource : DataSource) (renderBricks : NodeIds) :
  let maxLOD := findMaxLOD dataSource renderBricks in
  Forall (fun rb => (getRefLevel (getNode dataSource rb) <= maxLOD)%N) renderBricks /\
  (maxLOD = 0%N \/
   exists rb, In rb renderBricks /\ getRefLevel (getNode dataSource rb) = maxLOD).
Proof.
  destruct (findMaxLOD_from dataSource renderBricks 0) as (_ & Hall & Hin).
  split; [exact Hall|exact Hin].
Qed.

Lemma findSamplingRate_value (volInfo : VolumeInformation) (dataSource : DataSource)
    (renderBricks : NodeIds) :
  let maxLOD := findMaxLOD dataSource renderBricks in
  (find_max (voxels volInfo) < 2 ^ 24)%N ->
  (maxLOD < getDepth volInfo)%N ->
  (getDepth volInfo - maxLOD <= 32)%N ->
  findSamplingRate volInfo dataSource renderBricks
  = Some (N.max minSamplesPerRay
                (find_max (voxels volInfo) / 2 ^ (getDepth volInfo - maxLOD - 1))).
Proof.
  intros maxLOD Hv Hlod Hdepth. unfold findSamplingRate. fold maxLOD.
  set (s := (Z.of_N (getDepth volInfo) - Z.of_N maxLOD - 1)%Z).
  assert (Hs : (0 <= s < 32)%Z) by (unfold s; lia).
  replace (s mod uint32_mod)%Z with s
    by (symmetry; apply Z.mod_small; unfold uint32_mod; change (2 ^ 32)%Z with 4294967296%Z; lia).
  unfold shift_one. rewrite (proj2 (Z.ltb_lt s 32)) by lia.
  change (Z.of_N minSamplesPerRay) with 512%Z.
  rewrite Float32Facts.sampling_value; [| |exact Hs].
  - simpl option_map. f_equal. apply N2Z.inj.
    rewrite Z2N.id by lia.
    rewrite N2Z.inj_max, N2Z.inj_div, N2Z.inj_pow.
    change (Z.of_N minSamplesPerRay) with 512%Z. change (Z.of_N 2) with 2%Z.
    replace (Z.of_N (getDepth volInfo - maxLOD - 1)) with s by (unfold s; lia).
    apply Z.max_comm.
  - split; [lia|]. change (2 ^ 24)%Z with (Z.of_N (2 ^ 24)). lia.
Qed.

(** C7, as the code has it.  With a configured rate other than 0 the frame
    start leaves the rate alone, so the one [update] took from the
    configuration is used.  With rate 0, for a volume of fewer than [2^24]
    voxels along its longest axis and bricks above the leaf depth, the rate
    becomes the larger of [minSamplesPerRay = 512] and the longest axis
    divided by [2^(depth - maxLOD - 1)], rounded down, [maxLOD] being the
    finest level among the render bricks; it is at least 512 and is not
    clamped from above: [maxSamplesPerRay = 32] goes to the shader as a
    uniform of its own. *)
Theorem sampling_rate_at_frame_start (impl : Impl) (renderBricks : NodeIds) :
  let dataSource := _dataSource impl in
  let volInfo := getVolumeInfo dataSource in
  let maxLOD := findMaxLOD dataSource renderBricks in
  let after := fst (onFrameStart impl renderBricks) in
  (Forall (fun rb => (getRefLevel (getNode dataSource rb) <= maxLOD)%N) renderBricks /\
   (maxLOD = 0%N \/
    exists rb, In rb renderBricks /\ getRefLevel (getNode dataSource rb) = maxLOD)) /\
  (_nSamplesPerRay impl <> 0%N ->
     _computedSamplesPerRay after = _computedSamplesPerRay impl) /\
  (forall samplesPerRay range, samplesPerRay <> 0%N ->
     _computedSamplesPerRay (fst (onFrameStart (update impl samplesPerRay range) renderBricks))
     = samplesPerRay) /\
  (_nSamplesPerRay impl = 0%N ->
   (find_max (voxels volInfo) < 2 ^ 24)%N ->
   (maxLOD < getDepth volInfo)%N ->
   (getDepth volInfo - maxLOD <= 32)%N ->
     _computedSamplesPerRay after
     = N.max minSamplesPerRay
             (find_max (voxels volInfo) / 2 ^ (getDepth volInfo - maxLOD - 1))
     /\ (minSamplesPerRay <= _computedSamplesPerRay after)%N
     /\ (forall u, snd (onFrameStart impl renderBricks) = Done u ->
           u_nSamplesPerRay u = _computedSamplesPerRay after
           /\ u_maxSamplesPerRay u = maxSamplesPerRay)).
Proof.
  intros dataSource volInfo maxLOD after.
  split; [apply findMaxLOD_finest|].
  assert (Hkeep : forall i, _nSamplesPerRay i <> 0%N ->
            _computedSamplesPerRay (fst (onFrameStart i renderBricks))
            = _computedSamplesPerRay i).
  { intros i Hne. unfold onFrameStart.
    rewrite (proj2 (N.eqb_neq _ _) Hne).
    destruct (shaderType _) as [[[lo hi] k]|e|]; reflexivity. }
  split; [apply Hkeep|]. split.
  - intros samplesPerRay range Hne. now rewrite Hkeep.
  - intros Hauto Hv Hlod Hdepth.
    pose proof (@findSamplingRate_value volInfo dataSource renderBricks Hv Hlod Hdepth) as Hrate.
    fold maxLOD in Hrate.
    assert (Hafter : _computedSamplesPerRay after
                     = N.max minSamplesPerRay
                         (find_max (voxels volInfo) / 2 ^ (getDepth volInfo - maxLOD - 1))).
    { unfold after, onFrameStart. rewrite Hauto. simpl N.eqb. cbv iota.
      fold dataSource. fold volInfo. rewrite Hrate.
      destruct (shaderType _) as [[[lo hi] k]|e|]; reflexivity. }
    split; [exact Hafter|]. split; [rewrite Hafter; lia|].
    intros u. unfold after, onFrameStart. rewrite Hauto. simpl N.eqb. cbv iota.
    fold dataSource. fold volInfo. rewrite Hrate.
    destruct (shaderType _) as [[[lo hi] k]|e|]; simpl; try discriminate.
    intros [= <-]. split; reflexivity.
Qed.

(** For the volume of 4096 voxels and depth 4: rate 4096 with a brick at
    level 3, rate 512 with no brick (4096 / 8 = 512), and the configured
    rate 64 as it is. *)
Lemma sampling_rate_at_frame_start_example :
  _computedSamplesPerRay (fst (onFrameStart (blank deep_volume) [1%N])) = 4096%N /\
  _computedSamplesPerRay (fst (onFrameStart (blank deep_volume) [])) = 512%N /\
  _computedSamplesPerRay
    (fst (onFrameStart (update (blank deep_volume) 64 (Float32.zero, Float32.zero)) [1%N]))
  = 64%N.
Proof.
  destruct (sampling_rate_at_frame_start (blank deep_volume) [1%N])
    as (_ & _ & Hset & Hauto).
  destruct (sampling_rate_at_frame_start (blank deep_volume) [])
    as (_ & _ & _ & Hnone).
  split; [|split].
  - destruct Hauto as [Hrate _];
      [reflexivity|reflexivity|reflexivity|vm_compute; discriminate|exact Hrate].
  - destruct Hnone as [Hrate _];
      [reflexivity|reflexivity|reflexivity|vm_compute; discriminate|exact Hrate].
  - apply Hset. discriminate.
Defined.

(** C7 as stated fails: no maximum is applied.  For this volume the rate
    found is 4096, above [maxSamplesPerRay], and goes to the shader as it
    is. *)
Lemma sampling_rate_is_not_clamped :
  let result := onFrameStart (blank deep_volume) [1%N] in
  _computedSamplesPerRay (fst result) = 4096%N /\
  (maxSamplesPerRay < _computedSamplesPerRay (fst result))%N /\
  exists u, snd result = Done u /\ u_nSamplesPerRay u = 4096%N
            /\ u_maxSamplesPerRay u = 32%N.
Proof.
  cbv zeta. split; [vm_compute; reflexivity|]. split; [vm_compute; reflexivity|].
  eexists. split; [vm_compute; reflexivity|]. split; reflexivity.
Qed.

End RenderFacts.

(** ** Histograms *)
Module HistogramFacts.

Lemma hist_eqb_eq (h1 h2 : Histogram) : hist_eqb h1 h2 = true <-> h1 = h2.
Proof.
  revert h2. induction h1 as [|b1 t1 IH]; intros [|b2 t2]; simpl;
    try (split; [discriminate|congruence]); try tauto.
  rewrite andb_true_iff, N.eqb_eq, IH. split.
  - intros [-> ->]. reflexivity.
  - intros [= -> ->]. auto.
Qed.

Lemma hist_eqb_neq (h1 h2 : Histogram) : hist_eqb h1 h2 = false <-> h1 <> h2.
Proof.
  rewrite <- hist_eqb_eq. destruct (hist_eqb h1 h2); split; congruence.
Qed.

Lemma hist_add_nil_r (h : Histogram) : hist_add h [] = h.
Proof. destruct h; reflexivity. Qed.

Lemma hist_add_comm (h1 h2 : Histogram) : hist_add h1 h2 = hist_add h2 h1.
Proof.
  revert h2. induction h1 as [|b1 t1 IH]; intros [|b2 t2]; simpl; try reflexivity.
  now rewrite IH, N.add_comm.
Qed.

Lemma hist_add_assoc (h1 h2 h3 : Histogram) :
  hist_add h1 (hist_add h2 h3) = hist_add (hist_add h1 h2) h3.
Proof.
  revert h2 h3. induction h1 as [|b1 t1 IH]; intros [|b2 t2] [|b3 t3]; simpl;
    try reflexivity.
  now rewrite IH, N.add_assoc.
Qed.

(** Over buckets of one width the sum is bucket by bucket. *)
Lemma hist_add_nth (h1 h2 : Histogram) (k : nat) :
  List.length h1 = List.length h2 ->
  nth k (hist_add h1 h2) 0%N = (nth k h1 0 + nth k h2 0)%N
  /\ List.length (hist_add h1 h2) = List.length h1.
Proof.
  revert h2 k. induction h1 as [|b1 t1 IH]; intros [|b2 t2] k Hlen; simpl in *;
    try discriminate.
  - destruct k; auto.
  - injection Hlen as Hlen. destruct k as [|k].
    + split; [reflexivity|]. now rewrite (proj2 (IH t2 0%nat Hlen)).
    + destruct (IH t2 k Hlen) as [Hn Hl]. now rewrite Hn, Hl.
Qed.

Lemma hist_sum_perm (hs hs' : list Histogram) :
  Permutation hs hs' -> hist_sum hs = hist_sum hs'.
Proof.
  induction 1; simpl.
  - reflexivity.
  - now f_equal.
  - rewrite !hist_add_assoc. f_equal. apply hist_add_comm.
  - congruence.
Qed.

Lemma fold_left_hist_add (hs : list Histogram) (h : Histogram) :
  fold_left hist_add hs h = hist_add h (hist_sum hs).
Proof.
  revert h. induction hs as [|x t IH]; intros h; simpl.
  - now rewrite hist_add_nil_r.
  - now rewrite IH, hist_add_assoc.
Qed.

End HistogramFacts.

(** ** Gathering histograms *)
Module AggregatorFacts.

Import Aggregator HistogramFacts.

Lemma back_last (q : list ViewHistogram) (x : ViewHistogram) : back (q ++ [x]) = Some x.
Proof.
  induction q as [|y t IH]; [reflexivity|].
  simpl. destruct (t ++ [x]) eqn:Ht; [now destruct t|exact IH].
Qed.

Lemma back_behind (newer : list ViewHistogram) (e : ViewHistogram)
    (older : list ViewHistogram) :
  back (newer ++ e :: older) = back (e :: older).
Proof.
  induction newer as [|y t IH]; [reflexivity|].
  simpl. destruct (t ++ e :: older) eqn:Ht; [now destruct t|exact IH].
Qed.



Lemma send_latency (h : Histogram) (c : Config) : getLatency (send h c) = getLatency c.
Proof. unfold send. now destruct (hist_eqb (getHistogram c) h). Qed.

Section GatherFacts.

Variable data_sees_new : nat -> nat -> bool.

Local Abbreviation gather_loop := (gather_loop data_sees_new).
Local Abbreviation gatherHistogram := (gatherHistogram data_sees_new).
Local Abbreviation gatherAll := (gatherAll data_sees_new).

Lemma gather_loop_passes (c : Config) (vh : ViewHistogram)
    (newer visited rest : list ViewHistogram) :
  Forall (passed_over (id vh)) newer ->
  gather_loop c vh visited (newer ++ rest) = gather_loop c vh (visited ++ newer) rest.
Proof.
  intros Hn. revert visited. induction Hn as [|d t [Hlt Hinc] _ IH]; intros visited.
  - now rewrite app_nil_r.
  - simpl.
    replace (N.eqb (id vh) (id d)) with false by (symmetry; apply N.eqb_neq; lia).
    replace (N.ltb (id d) (id vh)) with false by (symmetry; apply N.ltb_ge; lia).
    rewrite Hinc, IH, <- app_assoc. reflexivity.
Qed.

(** A contribution older than the frame at the back of the queue changes
    nothing. *)
Lemma gather_skips_stale (impl : Impl) (front : list ViewHistogram)
    (oldest : ViewHistogram) (h : Histogram) (a : Float32.float) (currentId : N) :
  histogramQueue impl = front ++ [oldest] ->
  (currentId < id oldest)%N ->
  gatherHistogram impl h a currentId = impl.
Proof.
  intros Hq Hlt. unfold Aggregator.gatherHistogram, stale.
  rewrite Hq, back_last. now rewrite (proj2 (N.ltb_lt _ _) Hlt).
Qed.

(** What a call does once the loop reaches the entry of its frame. *)
Lemma gather_merges (c : Config) (newer older : list ViewHistogram)
    (e : ViewHistogram) (h : Histogram) (a : Float32.float) :
  Forall (passed_over (id e)) newer ->
  stale (newer ++ e :: older) (id e) = false ->
  gatherHistogram (mkImpl c (newer ++ e :: older)) h a (id e) =
    let vh := mkViewHistogram h a (id e) in
    let q' := newer ++ merge e vh :: older in
    if isComplete (merge e vh) then mkImpl (send (histogram (merge e vh)) c) newer
    else if isComplete vh then mkImpl (send h c) q'
    else if Nat.ltb (getLatency c + 1) (List.length q') then mkImpl c (removelast q')
    else mkImpl c q'.
Proof.
  intros Hn Hs. unfold Aggregator.gatherHistogram. simpl histogramQueue. rewrite Hs.
  simpl config. rewrite gather_loop_passes by exact Hn. simpl.
  rewrite N.eqb_refl.
  destruct (isComplete (merge e (mkViewHistogram h a (id e)))); [reflexivity|].
  destruct newer; reflexivity.
Qed.

(** C2, as the code has it: the frame id of a contribution is compared with
    the entry at the back of the queue, the oldest one.  A contribution
    older than that entry is dropped: the state is the one before the call,
    so the queue and the histogram last set are unchanged and nothing is
    published. *)
Theorem gather_ignores_older_than_oldest (impl : Impl) (front : list ViewHistogram)
    (oldest : ViewHistogram) (h : Histogram) (a : Float32.float) (currentId : N) :
  let after := gatherHistogram impl h a currentId in
  histogramQueue impl = front ++ [oldest] ->
  (currentId < id oldest)%N ->
  after = impl /\
  histogramQueue after = histogramQueue impl /\
  getHistogram (config after) = getHistogram (config impl) /\
  published (config after) = published (config impl).
Proof.
  intros after Hq Hlt.
  assert (Hsame : after = impl).
  { unfold after, Aggregator.gatherHistogram, stale.
    rewrite Hq, back_last. apply N.ltb_lt in Hlt. now rewrite Hlt. }
  rewrite Hsame. repeat split.
Qed.


(** A call that reaches the entry of its frame merges into it: the buckets
    are summed one by one and the areas are added, the frame keeps its one
    entry, and no entry is added to the queue. *)
Theorem merge_into_existing_entry (c : Config) (newer older : list ViewHistogram)
    (e : ViewHistogram) (h : Histogram) (a : Float32.float) :
  let entry := merge e (mkViewHistogram h a (id e)) in
  let after := gatherHistogram (mkImpl c (newer ++ e :: older)) h a (id e) in
  Forall (passed_over (id e)) newer ->
  stale (newer ++ e :: older) (id e) = false ->
  (histogram entry = hist_add (histogram e) h /\
   area entry = Float32.add (area e) a /\
   id entry = id e /\
   (List.length h = List.length (histogram e) ->
    forall k, nth k (histogram entry) 0%N = (nth k (histogram e) 0 + nth k h 0)%N)) /\
  (histogramQueue after = newer
   \/ histogramQueue after = newer ++ entry :: older
   \/ histogramQueue after = removelast (newer ++ entry :: older)).
Proof.
  intros entry after Hn Hs. split.
  - repeat split. intros Hlen k.
    apply (hist_add_nth (histogram e) h k). now symmetry.
  - unfold after. rewrite (@gather_merges c newer older e h a Hn Hs). cbv zeta.
    fold entry. destruct (isComplete entry); [now left|].
    destruct (isComplete _); [now right; left|].
    destruct (Nat.ltb _ _); [now right; right|now right; left].
Qed.

(** *** The parts of one frame, from an empty queue *)

Lemma merged_fields (frame : N) (data : ViewHistogram) (rest : list Partial) :
  let m := fold_left (fun d p => merge d (alone frame p)) rest data in
  histogram m = hist_add (histogram data) (hist_sum (map fst rest)) /\ id m = id data.
Proof.
  revert data. induction rest as [|p t IH]; intros data; simpl.
  - now rewrite hist_add_nil_r.
  - destruct (IH (merge data (alone frame p))) as [Hh Hi].
    rewrite Hh, Hi. simpl. now rewrite hist_add_assoc.
Qed.

Lemma gatherAll_tagged_cons (impl : Impl) (frame : N) (p : Partial) (t : list Partial) :
  gatherAll impl (tagged frame (p :: t))
  = gatherAll (gatherHistogram impl (fst p) (snd p) frame) (tagged frame t).
Proof. reflexivity. Qed.

Lemma gather_frame (c : Config) (rest : list Partial) (data : ViewHistogram) :
  waits_from (id data) data rest = true ->
  gatherAll (mkImpl c [data]) (tagged (id data) rest) =
    match rest with
    | [] => mkImpl c [data]
    | _ :: _ =>
        let m := fold_left (fun d p => merge d (alone (id data) p)) rest data in
        if isComplete m then mkImpl (send (histogram m) c) [] else mkImpl c [m]
    end.
Proof.
  revert data. induction rest as [|p later IH]; intros data Hw; [reflexivity|].
  simpl in Hw. apply andb_true_iff in Hw. destruct Hw as [Hp Hlater].
  apply negb_true_iff in Hp.
  rewrite gatherAll_tagged_cons.
  assert (Hs : stale ([] ++ data :: []) (id data) = false).
  { unfold stale. simpl. apply N.ltb_irrefl. }
  change [data] with ([] ++ data :: []) at 1.
  rewrite (@gather_merges c [] [] data (fst p) (snd p) (Forall_nil _) Hs).
  cbv zeta. fold (alone (id data) p). rewrite Hp.
  replace (Nat.ltb (getLatency c + 1) (List.length ([] ++ [merge data (alone (id data) p)])))
    with false by (symmetry; apply Nat.ltb_ge; simpl; lia).
  simpl app.
  destruct later as [|p' later'].
  - simpl. destruct (isComplete (merge data (alone (id data) p))); reflexivity.
  - apply andb_true_iff in Hlater. destruct Hlater as [Hm Hw].
    apply negb_true_iff in Hm. rewrite Hm.
    specialize (IH (merge data (alone (id data) p)) Hw).
    simpl id in IH. rewrite IH. reflexivity.
Qed.

Lemma gather_frame_from_empty (c : Config) (frame : N) (parts : list Partial) :
  waits_for_last frame parts = true ->
  gatherAll (mkImpl c []) (tagged frame parts) =
    match parts with
    | [] => mkImpl c []
    | first :: rest =>
        if isComplete (merged frame first rest)
        then mkImpl (send (histogram (merged frame first rest)) c) []
        else mkImpl c [merged frame first rest]
    end.
Proof.
  destruct parts as [|first rest]; [reflexivity|]. intros Hw.
  simpl in Hw. apply andb_true_iff in Hw. destruct Hw as [Hf Hw].
  apply negb_true_iff in Hf.
  rewrite gatherAll_tagged_cons.
  assert (Hfirst : gatherHistogram (mkImpl c []) (fst first) (snd first) frame
                   = mkImpl c [alone frame first]).
  { unfold Aggregator.gatherHistogram. simpl. fold (alone frame first). now rewrite Hf. }
  rewrite Hfirst.
  pose proof (@gather_frame c rest (alone frame first) Hw) as Hrun.
  simpl id in Hrun. rewrite Hrun.
  unfold merged. destruct rest; [|reflexivity].
  simpl. now rewrite Hf.
Qed.

(** C5, as the code has it: the parts of one frame arrive at an empty
    queue in two orders.  When in neither order a part is complete on its
    own or the frame complete before its last part is merged, and the two
    single precision sums of the areas agree on completeness, both orders
    set and publish the same histograms and leave the same merged buckets
    in the queue. *)
Theorem arrival_order_is_irrelevant_when_parts_wait (c : Config) (frame : N)
    (parts parts' : list Partial) :
  let s := gatherAll (mkImpl c []) (tagged frame parts) in
  let s' := gatherAll (mkImpl c []) (tagged frame parts') in
  Permutation parts parts' ->
  waits_for_last frame parts = true ->
  waits_for_last frame parts' = true ->
  completes frame parts = completes frame parts' ->
  config s = config s' /\
  map histogram (histogramQueue s) = map histogram (histogramQueue s') /\
  map id (histogramQueue s) = map id (histogramQueue s').
Proof.
  intros s s' Hperm Hw Hw' Hc. unfold s, s'.
  rewrite (@gather_frame_from_empty c frame parts Hw),
          (@gather_frame_from_empty c frame parts' Hw').
  destruct parts as [|first rest], parts' as [|first' rest'].
  - auto.
  - apply Permutation_nil in Hperm. discriminate.
  - apply Permutation_sym, Permutation_nil in Hperm. discriminate.
  - simpl in Hc. rewrite <- Hc.
    assert (Hh : histogram (merged frame first rest) = histogram (merged frame first' rest')).
    { unfold merged.
      rewrite (proj1 (merged_fields frame (alone frame first) rest)),
              (proj1 (merged_fields frame (alone frame first') rest')).
      apply (hist_sum_perm (Permutation_map fst Hperm)). }
    assert (Hi : id (merged frame first rest) = id (merged frame first' rest')).
    { unfold merged.
      rewrite (proj2 (merged_fields frame (alone frame first) rest)),
              (proj2 (merged_fields frame (alone frame first') rest')).
      reflexivity. }
    destruct (isComplete (merged frame first rest)); simpl.
    + rewrite Hh. auto.
    + rewrite Hh, Hi. auto.
Qed.

(** Two parts of a frame, neither complete on its own, leave the same state
    in either order: the sums of buckets and of areas commute. *)
Lemma two_parts_commute (c : Config) (frame : N) (p1 p2 : Partial) :
  isComplete (alone frame p1) = false ->
  isComplete (alone frame p2) = false ->
  gatherAll (mkImpl c []) (tagged frame [p1; p2])
  = gatherAll (mkImpl c []) (tagged frame [p2; p1]).
Proof.
  intros H1 H2.
  rewrite !gather_frame_from_empty by (simpl; rewrite ?H1, ?H2; reflexivity).
  unfold merged. simpl.
  assert (Hm : merge (alone frame p1) (alone frame p2)
               = merge (alone frame p2) (alone frame p1)).
  { unfold merge, alone. simpl. f_equal; [apply hist_add_comm|apply Float32Facts.add_comm]. }
  now rewrite Hm, (hist_add_comm (fst p1) (fst p2)).
Qed.

(** *** The queue stays in descending order *)

Lemma sorted_app (R : N -> N -> Prop) (l1 l2 : list N) :
  StronglySorted R (l1 ++ l2) <->
  StronglySorted R l1 /\ StronglySorted R l2
  /\ Forall (fun a => Forall (R a) l2) l1.
Proof.
  induction l1 as [|a t IH]; simpl.
  - split; [intros H; repeat split; auto; constructor|tauto].
  - split.
    + intros H. apply StronglySorted_inv in H. destruct H as [Ht Ha].
      apply IH in Ht. destruct Ht as (Ht1 & Ht2 & Hc).
      apply Forall_app in Ha. destruct Ha as [Ha1 Ha2].
      repeat split; auto; constructor; auto.
    + intros (H1 & H2 & Hc). apply StronglySorted_inv in H1. destruct H1 as [Ht Ha].
      inversion Hc as [|? ? Hca Hct]; subst.
      constructor; [apply IH; auto|apply Forall_app; auto].
Qed.

Lemma descending_front (q1 q2 : list ViewHistogram) :
  descending (q1 ++ q2) -> descending q1.
Proof.
  unfold descending. rewrite map_app, sorted_app. tauto.
Qed.

Lemma back_in (q : list ViewHistogram) (b : ViewHistogram) : back q = Some b -> In b q.
Proof.
  induction q as [|x t IH]; simpl; [discriminate|].
  destruct t as [|y t']; [intros [= ->]; now left|].
  intros Hb. right. now apply IH.
Qed.

(** In a queue in descending order a contribution to a queued frame is
    never older than the back of the queue. *)
Lemma descending_not_stale (newer older : list ViewHistogram) (e : ViewHistogram) :
  descending (newer ++ e :: older) -> stale (newer ++ e :: older) (id e) = false.
Proof.
  unfold descending, stale. rewrite map_app, back_behind. intros Hs.
  apply sorted_app in Hs. destruct Hs as (_ & He & _). simpl in He.
  apply StronglySorted_inv in He. destruct He as [_ Holder].
  destruct (back (e :: older)) as [b|] eqn:Hb; [|reflexivity].
  apply N.ltb_ge. apply back_in in Hb. destruct Hb as [<-|Hin]; [lia|].
  rewrite Forall_map, Forall_forall in Holder. apply Holder in Hin. lia.
Qed.

Lemma gather_loop_descending (c : Config) (vh : ViewHistogram)
    (rest visited : list ViewHistogram) :
  descending (visited ++ rest) ->
  Forall (fun d => (id vh < id d)%N) visited ->
  match gather_loop c vh visited rest with
  | Returned s => descending (histogramQueue s)
  | FellThrough q' => descending q'
  end.
Proof.
  revert visited. induction rest as [|data older IH]; intros visited Hs Hv; simpl.
  - now rewrite app_nil_r in Hs.
  - destruct (N.eqb_spec (id vh) (id data)) as [Heq|Hne].
    + destruct (isComplete (merge data vh)); simpl.
      * now apply descending_front in Hs.
      * unfold descending in *. rewrite map_app in *. exact Hs.
    + destruct (N.ltb_spec (id data) (id vh)) as [Hlt|Hge].
      * match goal with |- context [isComplete ?seen] => destruct (isComplete seen) end;
          simpl; [now apply descending_front in Hs|].
        unfold descending in *. rewrite map_app in *. simpl in *.
        apply sorted_app in Hs. destruct Hs as (H1 & H2 & Hc).
        apply sorted_app. split; [exact H1|]. split.
        -- constructor; [exact H2|]. apply StronglySorted_inv in H2.
           destruct H2 as [_ Hd]. constructor; [exact Hlt|].
           eapply Forall_impl; [|exact Hd]. simpl. intros; lia.
        -- rewrite Forall_map in *. rewrite Forall_forall in *.
           intros d Hd. constructor; [now apply Hv|now apply Hc].
      * destruct (isComplete data); simpl; [now apply descending_front in Hs|].
        apply IH.
        -- now rewrite <- app_assoc.
        -- apply Forall_app. split; [exact Hv|]. constructor; [lia|constructor].
Qed.

(** Every call of [gatherHistogram] keeps the queue in strictly descending
    order of frame ids, whichever element [data] denotes after an insertion
    in the middle. *)
Theorem gather_keeps_queue_descending (impl : Impl) (h : Histogram)
    (a : Float32.float) (currentId : N) :
  descending (histogramQueue impl) ->
  descending (histogramQueue (gatherHistogram impl h a currentId)).
Proof.
  intros Hs. unfold Aggregator.gatherHistogram.
  destruct (stale (histogramQueue impl) currentId); [exact Hs|].
  pose proof (@gather_loop_descending (config impl)
                (mkViewHistogram h a currentId) (histogramQueue impl) [] Hs
                (Forall_nil _)) as Hloop.
  destruct (gather_loop _ _ _ _) as [s|q']; [exact Hloop|].
  destruct q' as [|d t].
  - destruct (isComplete _); simpl; [exact Hloop|]. repeat constructor.
  - destruct (isComplete _); simpl; [exact Hloop|].
    destruct (Nat.ltb _ _); simpl; [|exact Hloop].
    assert (Hne : d :: t <> []) by discriminate.
    rewrite (app_removelast_last d Hne) in Hloop.
    now apply descending_front in Hloop.
Qed.

(** *** Nothing is published twice in a row *)

Lemma no_repeat_app (sent : list Histogram) (h : Histogram) :
  no_repeat sent ->
  (forall earlier h', sent = earlier ++ [h'] -> h' <> h) ->
  no_repeat (sent ++ [h]).
Proof.
  induction sent as [|x t IH]; intros Hn Hlast; simpl; [tauto|].
  destruct Hn as [Hx Ht]. split.
  - destruct t as [|y t']; simpl; [|exact Hx].
    apply (Hlast [] x). reflexivity.
  - apply IH; [exact Ht|]. intros earlier h' ->.
    apply (Hlast (x :: earlier) h'). reflexivity.
Qed.

Lemma send_keeps_invariant (h : Histogram) (c : Config) :
  no_repeat (published c) /\ last_published c ->
  no_repeat (published (send h c)) /\ last_published (send h c).
Proof.
  intros [Hn Hl]. unfold send.
  destruct (hist_eqb (getHistogram c) h) eqn:Heq; [auto|].
  apply hist_eqb_neq in Heq. simpl. split.
  - apply no_repeat_app; [exact Hn|].
    intros earlier h' Hsent. destruct Hl as [Hnil|(earlier' & Hl)].
    + rewrite Hnil in Hsent. now destruct earlier.
    + rewrite Hl in Hsent. apply app_inj_tail in Hsent. destruct Hsent as [_ <-].
      exact Heq.
  - right. exists (published c). reflexivity.
Qed.

Lemma gather_loop_config (c : Config) (vh : ViewHistogram)
    (rest visited : list ViewHistogram) :
  match gather_loop c vh visited rest with
  | Returned s => exists h', config s = send h' c
  | FellThrough _ => True
  end.
Proof.
  revert visited. induction rest as [|data older IH]; intros visited; simpl; [exact I|].
  destruct (N.eqb (id vh) (id data)).
  - destruct (isComplete _); simpl; eauto.
  - destruct (N.ltb (id data) (id vh)).
    + match goal with |- context [isComplete ?seen] => destruct (isComplete seen) end;
        simpl; eauto.
    + destruct (isComplete data); simpl; [eauto|apply IH].
Qed.

Lemma gather_config (impl : Impl) (h : Histogram) (a : Float32.float) (currentId : N) :
  config (gatherHistogram impl h a currentId) = config impl \/
  exists h', config (gatherHistogram impl h a currentId) = send h' (config impl).
Proof.
  unfold Aggregator.gatherHistogram.
  destruct (stale _ _); [now left|].
  pose proof (gather_loop_config (config impl) (mkViewHistogram h a currentId)
                (histogramQueue impl) []) as Hloop.
  destruct (gather_loop _ _ _ _) as [s|q']; [now right|].
  destruct q' as [|d t]; destruct (isComplete _); simpl; eauto.
  destruct (Nat.ltb _ _); simpl; auto.
Qed.

(** Whatever arrives, in whatever order, the histograms published from the
    initial state on never repeat one directly after itself, and the
    histogram of the configuration is the one published last. *)
Theorem published_histograms_never_repeat (latency : nat)
    (arrivals : list Contribution) :
  let s := gatherAll (initial latency) arrivals in
  no_repeat (published (config s)) /\ last_published (config s).
Proof.
  cbv zeta. unfold Aggregator.gatherAll.
  assert (Hinit : no_repeat (published (config (initial latency)))
                  /\ last_published (config (initial latency))).
  { split; [exact I|now left]. }
  revert Hinit. generalize (initial latency).
  induction arrivals as [|[[h a] i] t IH]; intros impl Hinv; [exact Hinv|].
  simpl. apply IH.
  destruct (gather_config impl h a i) as [->|(h' & ->)]; [exact Hinv|].
  now apply send_keeps_invariant.
Qed.

(** From the initial state on the queue is in strictly descending order of
    frame ids after every arrival. *)
Theorem queue_is_always_descending (latency : nat) (arrivals : list Contribution) :
  descending (histogramQueue (gatherAll (initial latency) arrivals)).
Proof.
  unfold Aggregator.gatherAll.
  assert (Hinit : descending (histogramQueue (initial latency))) by constructor.
  revert Hinit. generalize (initial latency).
  induction arrivals as [|[[h a] i] t IH]; intros impl Hinv; [exact Hinv|].
  simpl. apply IH. now apply gather_keeps_queue_descending.
Qed.

End GatherFacts.

(** *** Runs of the aggregator *)


(** Frames 10 and 8 are queued: a part of frame 7 is dropped. *)
Lemma gather_ignores_older_than_oldest_example :
  let q := [mkViewHistogram h1 Float32.half 10; mkViewHistogram h2 Float32.half 8] in
  gatherHistogram libstdcxx_deque (mkImpl (mkConfig [] 2 []) q) h1 Float32.quarter 7
  = mkImpl (mkConfig [] 2 []) q.
Proof.
  apply (@gather_ignores_older_than_oldest libstdcxx_deque
           (mkImpl (mkConfig [] 2 [])
                   [mkViewHistogram h1 Float32.half 10; mkViewHistogram h2 Float32.half 8])
           [mkViewHistogram h1 Float32.half 10] (mkViewHistogram h2 Float32.half 8)
           h1 Float32.quarter 7).
  - reflexivity.
  - reflexivity.
Defined.

(** C2 as stated fails: frame 9 arrives while frame 10 is queued and is
    given an entry of its own; frame 5 arrives after frame 7 was resolved
    and is queued. *)
Lemma gather_accepts_older_than_newest :
  let s := run (initial 2) [(h1, Float32.half, 8%N); (h1, Float32.half, 10%N)] in
  let r := run (initial 2) [(h1, Float32.one, 7%N)] in
  (map id (histogramQueue s) = [10%N; 8%N] /\
   map id (histogramQueue (gatherHistogram libstdcxx_deque s h2 Float32.quarter 9))
     = [10%N; 9%N; 8%N]) /\
  (published (config r) = [h1] /\ histogramQueue r = [] /\
   map id (histogramQueue (gatherHistogram libstdcxx_deque r h2 Float32.quarter 5)) = [5%N]).
Proof. vm_compute. repeat split. Qed.


(** C4 fails on the code: with latency 0 the queue may hold one entry.  A
    part of frame 5 is queued; a part of frame 6 that is complete by itself
    is put in front of it, published, and [gatherHistogram] returns before
    the length check: two entries stay, the first of them complete. *)
Lemma queue_exceeds_latency_bound :
  let s := run (initial 0) [(h1, Float32.half, 5%N); (h2, Float32.one, 6%N)] in
  getLatency (config s) = 0%nat /\
  map id (histogramQueue s) = [6%N; 5%N] /\
  map isComplete (histogramQueue s) = [true; false] /\
  published (config s) = [h2].
Proof. vm_compute. repeat split. Qed.

(** C8 fails on the code: frame 5 has an entry behind the complete entry of
    frame 6 that the run above left in the queue; the next part of frame 5
    is not merged: the loop stops at the entry of frame 6 and erases the
    whole queue. *)
Lemma part_of_queued_frame_is_dropped :
  let s := run (initial 1) [(h1, Float32.half, 5%N); (h2, Float32.one, 6%N)] in
  let after := gatherHistogram libstdcxx_deque s h1 Float32.quarter 5 in
  map id (histogramQueue s) = [6%N; 5%N] /\
  histogramQueue after = [] /\
  config after = config s.
Proof. vm_compute. repeat split. Qed.

(** C5 as stated fails: the two parts of frame 7 cover the frame exactly.
    When the large one comes first it is complete on its own and published
    alone, and the small one is queued; the other way round they are merged
    and published together. *)
Lemma arrival_order_changes_the_outcome :
  let s := run (initial 2) (tagged 7 [most; sliver]) in
  let s' := run (initial 2) (tagged 7 [sliver; most]) in
  Permutation [most; sliver] [sliver; most] /\
  published (config s) = [h1] /\
  map histogram (histogramQueue s) = [h2] /\
  published (config s') = [hist_add h2 h1] /\
  histogramQueue s' = [].
Proof. split; [apply perm_swap|]. vm_compute. repeat split. Qed.

(** The sum of the areas is rounded after every merge, so it depends on the
    order: these three parts, none of them or of their pairs complete, end
    just outside the window of completeness in one order and just inside it
    in another. *)
Lemma rounding_changes_completion :
  let a := (h1, S754_finite false 10642865 (-25)) in
  let b := (h2, S754_finite false 9447364 (-26)) in
  let c := (h1, S754_finite false 9095620 (-24)) in
  waits_for_last 7 [a; b; c] = true /\ waits_for_last 7 [a; c; b] = true /\
  published (config (run (initial 2) (tagged 7 [a; b; c]))) = [] /\
  published (config (run (initial 2) (tagged 7 [a; c; b])))
  = [hist_add (hist_add h1 h1) h2].
Proof. vm_compute. repeat split. Qed.

(** Parts of areas 1/2, 1/4, 1/4 in two orders. *)
Lemma arrival_order_is_irrelevant_when_parts_wait_example :
  let parts := [(h1, Float32.half); (h2, Float32.quarter); (h1, Float32.quarter)] in
  let parts' := [(h2, Float32.quarter); (h1, Float32.quarter); (h1, Float32.half)] in
  let s := run (initial 2) (tagged 7 parts) in
  let s' := run (initial 2) (tagged 7 parts') in
  config s = config s' /\
  map histogram (histogramQueue s) = map histogram (histogramQueue s') /\
  map id (histogramQueue s) = map id (histogramQueue s').
Proof.
  apply (@arrival_order_is_irrelevant_when_parts_wait libstdcxx_deque
           (mkConfig [] 2 []) 7
           [(h1, Float32.half); (h2, Float32.quarter); (h1, Float32.quarter)]
           [(h2, Float32.quarter); (h1, Float32.quarter); (h1, Float32.half)]).
  - eapply perm_trans; [apply perm_swap|]. apply perm_skip. apply perm_swap.
  - reflexivity.
  - reflexivity.
  - reflexivity.
Defined.

(** C6 as stated fails: frame 7 is completed by two halves and published,
    and its entry leaves the queue, which is then empty; two more halves of
    frame 7 are queued, merged and published as well.  The same happens
    when frame 7 is completed while frame 9 is queued and the queue is
    empty only after frame 9 has been completed too. *)
Lemma late_parts_publish_again :
  let s := run (initial 2) (tagged 7 [(h1, Float32.half); (h1, Float32.half)]) in
  let s' := run s (tagged 7 [(h2, Float32.half); (h2, Float32.half)]) in
  let t := run (initial 2)
               [(h1, Float32.half, 7%N); (h2, Float32.half, 9%N);
                (h1, Float32.half, 7%N); (h2, Float32.half, 9%N)] in
  let t' := run t (tagged 7 [(h1, Float32.half); (h1, Float32.half)]) in
  published (config s) = [hist_add h1 h1] /\ histogramQueue s = [] /\
  published (config s') = [hist_add h1 h1; hist_add h2 h2] /\
  published (config t) = [hist_add h1 h1; hist_add h2 h2] /\ histogramQueue t = [] /\
  published (config t') = [hist_add h1 h1; hist_add h2 h2; hist_add h1 h1].
Proof. vm_compute. repeat split. Qed.


(** A quarter of frame 7 merged into the quarter queued behind frame 9. *)
Lemma merge_into_existing_entry_example :
  let c := mkConfig [] 2 [] in
  let nine := mkViewHistogram h2 Float32.quarter 9 in
  let seven := mkViewHistogram h1 Float32.quarter 7 in
  let entry := merge seven (mkViewHistogram h2 Float32.quarter 7) in
  histogram entry = [4; 1; 4; 3]%N /\ area entry = Float32.half /\
  histogramQueue (gatherHistogram libstdcxx_deque (mkImpl c [nine; seven])
                    h2 Float32.quarter 7) = [nine; entry].
Proof.
  destruct (@merge_into_existing_entry libstdcxx_deque (mkConfig [] 2 [])
              [mkViewHistogram h2 Float32.quarter 9] []
              (mkViewHistogram h1 Float32.quarter 7) h2 Float32.quarter)
    as [(Hh & Ha & _) _].
  - repeat constructor.
  - reflexivity.
  - split; [exact Hh|]. split; [exact Ha|]. reflexivity.
Defined.

(** A quarter and a half of frame 7, in both orders. *)
Lemma two_parts_commute_example :
  run (initial 2) (tagged 7 [(h1, Float32.quarter); (h2, Float32.half)])
  = run (initial 2) (tagged 7 [(h2, Float32.half); (h1, Float32.quarter)]).
Proof.
  apply (@two_parts_commute libstdcxx_deque (mkConfig [] 2 []) 7
           (h1, Float32.quarter) (h2, Float32.half)); reflexivity.
Defined.

End AggregatorFacts.

(** ** Sorting without ties *)
Module SortingFacts.

Import RayCast Float32Facts OrderFacts.

(** Two sorted arrangements of the same elements are the same when no two
    different elements are equivalent. *)
Lemma sorted_unique (A : Type) (comp : A -> A -> bool) (l l' : list A) :
  (forall a b, In a l -> In b l -> comp a b = false -> comp b a = false -> a = b) ->
  Permutation l l' -> sorted_by comp l -> sorted_by comp l' -> l = l'.
Proof.
  unfold sorted_by. revert l'. induction l as [|a t IH]; intros l' Hties Hp Hs Hs'.
  - apply Permutation_nil in Hp. now subst.
  - destruct l' as [|b t']; [apply Permutation_sym in Hp; now apply Permutation_nil in Hp|].
    inversion Hs as [|? ? Ha Ht]; subst. inversion Hs' as [|? ? Hb Ht']; subst.
    rewrite Forall_forall in Ha, Hb.
    assert (Hab : a = b).
    { assert (Hina : In a (b :: t')) by (apply (Permutation_in _ Hp); now left).
      assert (Hinb : In b (a :: t))
        by (apply (Permutation_in _ (Permutation_sym Hp)); now left).
      destruct Hina as [Heq|Hina]; [now subst|].
      destruct Hinb as [Heq|Hinb]; [now subst|].
      apply Hties; [now left|now right|now apply Hb|now apply Ha]. }
    subst b. f_equal. apply Permutation_cons_inv in Hp.
    apply IH; auto. intros x y Hx Hy. apply Hties; now right.
Qed.

Lemma distinct_distances_spec (dataSource : DataSource) (frustum : Frustum)
    (bricks : NodeIds) :
  distinct_distances dataSource frustum bricks = true ->
  forall a b, In a bricks -> In b bricks ->
    DistanceOperator dataSource frustum a b = false ->
    DistanceOperator dataSource frustum b a = false -> a = b.
Proof.
  unfold distinct_distances. rewrite forallb_forall. intros Hd a b Ha Hb Hab Hba.
  specialize (Hd a Ha). rewrite forallb_forall in Hd. specialize (Hd b Hb).
  rewrite Hab, Hba, !orb_false_r in Hd. now apply N.eqb_eq.
Qed.

Lemma distinct_distances_strict_weak_ordering (dataSource : DataSource)
    (frustum : Frustum) (bricks : NodeIds) :
  distinct_distances dataSource frustum bricks = true ->
  strict_weak_ordering (DistanceOperator dataSource frustum) bricks.
Proof.
  intros Hd. split; [|split].
  - intros a _. unfold DistanceOperator.
    destruct (Float32.ltb _ _) eqn:H; [|reflexivity]. now rewrite (ltb_asym _ _ H) in H.
  - intros a b c _ _ _. apply ltb_trans.
  - intros a b c Ha Hb Hc Hab Hbc. unfold equivalent in Hab.
    apply andb_true_iff in Hab. rewrite !negb_true_iff in Hab. destruct Hab as [Hab Hba].
    now rewrite (distinct_distances_spec _ _ _ Hd a b Ha Hb Hab Hba).
Qed.

(** When the candidate bricks are at distances that differ, [order] has one
    result only: the bricks by ascending distance, as an insertion sort
    leaves them. *)
Theorem order_is_determined_by_distinct_distances (dataSource : DataSource)
    (frustum : Frustum) (bricks rbs : NodeIds)
    (Hdistinct : distinct_distances dataSource frustum bricks = true)
    (Horder : order dataSource frustum bricks rbs) :
  rbs = insertion_sort (DistanceOperator dataSource frustum) bricks.
Proof.
  destruct (Horder (distinct_distances_strict_weak_ordering _ _ _ Hdistinct))
    as [Hperm Hsorted].
  assert (Hasym : forall a b, DistanceOperator dataSource frustum a b = true ->
                              DistanceOperator dataSource frustum b a = false)
    by (intros a b; apply ltb_asym).
  assert (Htrans : forall a b c, DistanceOperator dataSource frustum a b = true ->
                                 DistanceOperator dataSource frustum b c = true ->
                                 DistanceOperator dataSource frustum a c = true)
    by (intros a b c; apply ltb_trans).
  apply sorted_unique with (comp := DistanceOperator dataSource frustum).
  - intros a b Ha Hb. apply (distinct_distances_spec _ _ _ Hdistinct);
      apply (Permutation_in _ (Permutation_sym Hperm)); assumption.
  - eapply perm_trans; [apply Permutation_sym, Hperm|apply insertion_sort_perm].
  - exact Hsorted.
  - now apply insertion_sort_sorted.
Qed.

(** [DistanceOperator] is the comparison [std::sort] asks for, a strict weak
    ordering, on bricks whose distances are numbers: it is irreflexive and
    transitive, and being at equivalent distances is transitive through a
    brick whose distance is a number.  A brick whose distance is not a
    number is equivalent to every brick. *)
Theorem DistanceOperator_is_a_strict_weak_ordering (dataSource : DataSource)
    (frustum : Frustum) :
  let comp := DistanceOperator dataSource frustum in
  (forall a, comp a a = false) /\
  (forall a b c, comp a b = true -> comp b c = true -> comp a c = true) /\
  (forall a b c, measurable dataSource frustum b ->
     equivalent comp a b = true -> equivalent comp b c = true ->
     equivalent comp a c = true) /\
  (forall a b, Float32.is_nan (distance dataSource frustum b) = true ->
     equivalent comp a b = true).
Proof.
  intros comp. unfold comp, DistanceOperator, equivalent, measurable.
  split; [|split; [|split]].
  - intros a. destruct (Float32.ltb _ _) eqn:H; [|reflexivity].
    now rewrite (ltb_asym _ _ H) in H.
  - intros a b c. apply ltb_trans.
  - intros a b c.
    generalize (distance dataSource frustum a), (distance dataSource frustum b),
      (distance dataSource frustum c).
    intros x y z Hy Hxy Hyz.
    apply andb_true_iff in Hxy, Hyz.
    rewrite !negb_true_iff in Hxy, Hyz. destruct Hxy as [Hxy Hyx], Hyz as [Hyz Hzy].
    destruct (Float32.is_nan x) eqn:Hx.
    { destruct (nan_not_ltb x z Hx) as [-> ->]. reflexivity. }
    destruct (Float32.is_nan z) eqn:Hz.
    { destruct (nan_not_ltb z x Hz) as [-> ->]. reflexivity. }
    pose proof (compare_eq_trans _ _ _ (not_ltb_compare x y Hx Hy Hxy Hyx)
                  (not_ltb_compare y z Hy Hz Hyz Hzy)) as Hxz.
    unfold Float32.ltb, SFltb. rewrite (compare_antisym x z), Hxz. reflexivity.
  - intros a b Hb. destruct (nan_not_ltb _ (distance dataSource frustum a) Hb) as [-> ->].
    reflexivity.
Qed.

(** The bricks 3, 1, 2 of the row, seen from the origin. *)
Lemma order_is_determined_by_distinct_distances_example :
  [1%N; 2%N; 3%N]
  = insertion_sort (DistanceOperator row_of_bricks identity_view) [3%N; 1%N; 2%N].
Proof.
  apply (@order_is_determined_by_distinct_distances row_of_bricks identity_view
           [3%N; 1%N; 2%N] [1%N; 2%N; 3%N]).
  - vm_compute. reflexivity.
  - intros _. split.
    + apply Permutation_cons_app with (l1 := [1%N; 2%N]) (l2 := []).
      apply Permutation_refl.
    + unfold sorted_by. repeat constructor.
Defined.

(** A distance that is not a number.  Brick 9 is equivalent to the bricks
    3 and 1, which are not equivalent: [DistanceOperator] is not the strict
    weak ordering [std::sort] asks for, [std::sort] may leave anything, and
    libstdc++ leaves brick 2 behind brick 3, which is farther away. *)
Lemma order_with_a_distance_that_is_no_number :
  let bricks := [3; 9; 1; 2]%N in
  let comp := DistanceOperator row_with_unbounded_brick identity_view in
  Float32.is_nan (distance row_with_unbounded_brick identity_view 9%N) = true /\
  ~ strict_weak_ordering comp bricks /\
  order_libstdcxx row_with_unbounded_brick identity_view bricks = Some [1; 3; 9; 2]%N /\
  order row_with_unbounded_brick identity_view bricks [1; 3; 9; 2]%N /\
  ~ sorted_by comp [1; 3; 9; 2]%N.
Proof.
  cbv zeta.
  assert (Hnot : ~ strict_weak_ordering
                     (DistanceOperator row_with_unbounded_brick identity_view)
                     [3; 9; 1; 2]%N).
  { intros (_ & _ & Heq). specialize (Heq 3%N 9%N 1%N).
    vm_compute in Heq.
    discriminate (Heq (or_introl eq_refl) (or_intror (or_introl eq_refl))
                      (or_intror (or_intror (or_introl eq_refl))) eq_refl eq_refl). }
  split; [vm_compute; reflexivity|]. split; [exact Hnot|].
  split; [vm_compute; reflexivity|]. split.
  - intros Hswo. destruct (Hnot Hswo).
  - intros Hsorted. inversion Hsorted as [|? ? _ H1]; subst.
    inversion H1 as [|? ? H3 _]; subst.
    inversion H3 as [|? ? _ H4]; subst.
    inversion H4 as [|? ? Hc _]; subst.
    vm_compute in Hc. discriminate.
Qed.

End SortingFacts.

(** ** The vertex buffer and the textures of a frame *)
Module FrameFacts.

Import RayCast OrderFacts RenderFacts SortingFacts.

Lemma createBrick_app (lodNode : LODNode) (positions : list Vector3f) :
  createBrick lodNode positions = positions ++ createBrick lodNode [].
Proof. reflexivity. Qed.

Lemma createBrick_length (lodNode : LODNode) :
  List.length (createBrick lodNode []) = nVerticesRenderBrick.
Proof. reflexivity. Qed.

Lemma createBrick_corners (lodNode : LODNode) :
  Forall (corner (getWorldBox lodNode)) (createBrick lodNode []).
Proof.
  unfold createBrick, corner. simpl.
  repeat (apply Forall_cons; [simpl; auto|]). apply Forall_nil.
Qed.

(** The buffer holds the vertices of the bricks one after the other. *)
Lemma vertex_buffer_bricks (impl : Impl) (renderBricks : NodeIds) :
  createAndFillVertexBuffer impl renderBricks
  = flat_map (box_vertices (_dataSource impl)) renderBricks.
Proof.
  unfold createAndFillVertexBuffer.
  assert (H : forall positions,
            fold_left (fun positions rb =>
                         createBrick (getNode (_dataSource impl) rb) positions)
                      renderBricks positions
            = positions ++ flat_map (box_vertices (_dataSource impl)) renderBricks).
  { induction renderBricks as [|rb t IH]; intros positions; simpl.
    - now rewrite app_nil_r.
    - rewrite IH, createBrick_app, <- app_assoc. reflexivity. }
  apply H.
Qed.

Lemma bricks_length (dataSource : DataSource) (bricks : NodeIds) :
  List.length (flat_map (box_vertices dataSource) bricks)
  = (List.length bricks * nVerticesRenderBrick)%nat.
Proof.
  induction bricks as [|rb t IH]; [reflexivity|].
  cbn [flat_map]. rewrite length_app, IH. unfold box_vertices.
  rewrite createBrick_length. simpl. lia.
Qed.

(** The draw call of position [index] reads the vertices of the brick at
    that position. *)
Lemma drawn_brick (dataSource : DataSource) (bricks : NodeIds) (index : nat)
    (rb : NodeId) :
  nth_error bricks index = Some rb ->
  drawn (flat_map (box_vertices dataSource) bricks) (draw_of index)
  = box_vertices dataSource rb.
Proof.
  intros Hn. apply nth_error_split in Hn. destruct Hn as (l1 & l2 & -> & <-).
  unfold drawn, draw_of. cbn [fst snd].
  rewrite flat_map_app. cbn [flat_map].
  rewrite <- (bricks_length dataSource l1).
  rewrite skipn_app, Nat.sub_diag, skipn_all. cbn [skipn app].
  rewrite <- (createBrick_length (getNode dataSource rb)).
  fold (box_vertices dataSource rb).
  rewrite firstn_app, Nat.sub_diag, firstn_all. cbn [firstn]. now rewrite app_nil_r.
Qed.

(** The vertex buffer of a frame holds 36 vertices for each render brick;
    the 36 vertices from position [36 * i] on are those [createBrick] lists
    for brick [i], each of them a corner of the brick's world box. *)
Theorem vertex_buffer_holds_the_boxes_in_input_order (impl : Impl)
    (renderBricks : NodeIds) :
  let buffer := createAndFillVertexBuffer impl renderBricks in
  List.length buffer = (List.length renderBricks * nVerticesRenderBrick)%nat /\
  (forall i rb, nth_error renderBricks i = Some rb ->
     drawn buffer (i * nVerticesRenderBrick, nVerticesRenderBrick)%nat
     = createBrick (getNode (_dataSource impl) rb) [] /\
     (i * nVerticesRenderBrick + nVerticesRenderBrick <= List.length buffer)%nat /\
     Forall (corner (getWorldBox (getNode (_dataSource impl) rb)))
            (drawn buffer (i * nVerticesRenderBrick, nVerticesRenderBrick)%nat)).
Proof.
  intros buffer. unfold buffer. rewrite vertex_buffer_bricks, bricks_length.
  split; [reflexivity|]. intros i rb Hn.
  pose proof (drawn_brick (_dataSource impl) renderBricks i Hn) as Hd.
  unfold draw_of in Hd. rewrite Hd. split; [reflexivity|]. split.
  - assert (Hi : (i < List.length renderBricks)%nat)
      by (apply nth_error_Some; congruence).
    unfold nVerticesRenderBrick. nia.
  - apply createBrick_corners.
Qed.

Section Frame.

Variable INVALID_TEXTURE_ID : N.
Variable textureCache : Cache.

Local Abbreviation renderBricks := (renderBricks INVALID_TEXTURE_ID textureCache).
Local Abbreviation onFrameRender := (onFrameRender INVALID_TEXTURE_ID textureCache).
Local Abbreviation textured := (textured INVALID_TEXTURE_ID textureCache).
Local Abbreviation positions := (textured_positions INVALID_TEXTURE_ID textureCache).
Local Abbreviation used_textures := (used_textures INVALID_TEXTURE_ID textureCache).

Lemma drawn_positions (dataSource : DataSource) (buffer : list Vector3f)
    (bricks : NodeIds) (index : nat) :
  (forall i rb, nth_error bricks i = Some rb ->
     drawn buffer (draw_of (index + i)) = box_vertices dataSource rb) ->
  map (drawn buffer) (map draw_of (positions bricks index))
  = map (box_vertices dataSource) (filter textured bricks).
Proof.
  revert index. induction bricks as [|b t IH]; intros index Hall; [reflexivity|].
  assert (Ht : map (drawn buffer) (map draw_of (positions t (S index)))
               = map (box_vertices dataSource) (filter textured t)).
  { apply IH. intros i rb Hn. replace (S index + i)%nat with (index + S i)%nat by lia.
    now apply Hall. }
  simpl. destruct (textured b); simpl; rewrite Ht; [|reflexivity].
  f_equal. rewrite <- (Hall 0%nat b eq_refl). now rewrite Nat.add_0_r.
Qed.

(** Each draw call of [onFrameRender] reads, from the vertex buffer of the
    frame, the box of the visible node it is issued for: the draw calls and
    the visible nodes correspond one to one, in order. *)
Theorem draw_calls_read_the_boxes_of_the_visible_nodes (impl : Impl)
    (bricks : NodeIds) (Hcached : Forall (cached textureCache) bricks) :
  exists impl' calls,
    onFrameRender impl bricks = Some impl' /\
    drawArrays impl' = drawArrays impl ++ calls /\
    map (drawn (createAndFillVertexBuffer impl bricks)) calls
    = map (fun rb => createBrick (getNode (_dataSource impl) rb) [])
          (getVisibleNodes impl').
Proof.
  unfold RayCast.onFrameRender, getVisibleNodes.
  match goal with |- context [renderBricks ?i bricks 0] =>
    destruct (@renderBricks_textured INVALID_TEXTURE_ID textureCache bricks Hcached i 0) as (impl' & Hrun & Hvis & Hdraw) end.
  exists impl', (map draw_of (positions bricks 0)).
  split; [exact Hrun|]. split; [exact Hdraw|].
  rewrite Hvis. simpl. rewrite vertex_buffer_bricks.
  apply (@drawn_positions (_dataSource impl) _ bricks 0%nat). intros i rb Hn. simpl.
  now apply drawn_brick.
Qed.

(** The loop appends to [_usedTextures[1]] the texture ids of the textured
    bricks. *)
Lemma renderBricks_used_textures (bricks : NodeIds) (impl impl' : Impl) (index : nat) :
  renderBricks impl bricks index = Some impl' ->
  _usedTextures1 impl' = _usedTextures1 impl ++ used_textures bricks.
Proof.
  revert impl index. induction bricks as [|brick rest IH]; intros impl index; simpl.
  - intros [= <-]. now rewrite app_nil_r.
  - unfold renderBrick.
    destruct (textureCache (getId brick)) as [texState|]; [|discriminate].
    destruct (N.eqb (textureId texState) INVALID_TEXTURE_ID); simpl.
    + apply IH.
    + intros Hrun. apply IH in Hrun. simpl in Hrun. now rewrite Hrun, <- app_assoc.
Qed.

Lemma used_textures_valid (bricks : NodeIds) (t : N) :
  In t (used_textures bricks) ->
  t <> INVALID_TEXTURE_ID /\
  exists rb, In rb bricks /\ textureCache (getId rb) = Some (mkTextureState t).
Proof.
  unfold RayCast.used_textures. rewrite in_flat_map. intros (rb & Hrb & Ht).
  destruct (textureCache (getId rb)) as [[tid]|] eqn:Hc; [|destruct Ht].
  simpl in Ht. destruct (N.eqb_spec tid INVALID_TEXTURE_ID) as [|Hne]; [destruct Ht|].
  destruct Ht as [<-|[]]. split; [exact Hne|]. exists rb. auto.
Qed.

Lemma used_textures_length (bricks : NodeIds) :
  List.length (used_textures bricks) = List.length (filter textured bricks).
Proof.
  unfold RayCast.used_textures, RayCast.textured.
  induction bricks as [|rb t IH]; [reflexivity|]. cbn [flat_map filter].
  rewrite length_app, IH.
  destruct (textureCache (getId rb)) as [texState|]; [|reflexivity].
  destruct (N.eqb (textureId texState) INVALID_TEXTURE_ID); reflexivity.
Qed.

Lemma ltb_strict_weak_ordering (l : list N) : strict_weak_ordering N.ltb l.
Proof.
  unfold equivalent. split; [|split].
  - intros a _. apply N.ltb_irrefl.
  - intros a b c _ _ _ H1 H2. apply N.ltb_lt in H1, H2. apply N.ltb_lt. lia.
  - intros a b c _ _ _ H1 H2.
    apply andb_true_iff in H1, H2. rewrite !negb_true_iff, !N.ltb_ge in H1, H2.
    apply andb_true_iff. rewrite !negb_true_iff, !N.ltb_ge. lia.
Qed.

(** A frame rendered and ended: [onFrameEnd] always returns, and however
    [std::sort] works, the textures of the last frame are then the texture
    ids used so far, in ascending order; those the frame added are one for
    each visible node, none of them the invalid id.  The list of the
    current frame is empty again, the visible nodes stay, and the draw
    calls of the axes, if asked for, and of the full-screen quad are
    added. *)
Theorem last_frame_textures_are_sorted (impl : Impl) (bricks : NodeIds)
    (drawAxis : bool) (axis : list (nat * nat))
    (Hcached : Forall (cached textureCache) bricks) :
  exists rendered,
    onFrameRender impl bricks = Some rendered /\
    (exists last ended, onFrameEnd drawAxis axis rendered last ended) /\
    (forall last ended, onFrameEnd drawAxis axis rendered last ended ->
       last = insertion_sort N.ltb (_usedTextures1 impl ++ used_textures bricks) /\
       Permutation (_usedTextures1 impl ++ used_textures bricks) last /\
       StronglySorted N.le last /\
       _usedTextures1 ended = [] /\
       getVisibleNodes ended = filter textured bricks /\
       drawArrays ended
       = drawArrays rendered ++ (if drawAxis then axis else []) ++ [(0, 6)%nat]) /\
    List.length (used_textures bricks) = List.length (getVisibleNodes rendered) /\
    (forall t, In t (used_textures bricks) ->
       t <> INVALID_TEXTURE_ID /\
       exists rb, In rb bricks /\ textureCache (getId rb) = Some (mkTextureState t)).
Proof.
  assert (Hasym : forall a b, N.ltb a b = true -> N.ltb b a = false).
  { intros a b H. apply N.ltb_lt in H. apply N.ltb_ge. lia. }
  assert (Htrans : forall a b c, N.ltb a b = true -> N.ltb b c = true -> N.ltb a c = true).
  { intros a b c H1 H2. apply N.ltb_lt in H1, H2. apply N.ltb_lt. lia. }
  unfold RayCast.onFrameRender, getVisibleNodes.
  match goal with |- context [renderBricks ?i bricks 0] =>
    destruct (@renderBricks_textured INVALID_TEXTURE_ID textureCache bricks Hcached i 0)
      as (rendered & Hrun & Hvis & _);
    pose proof (@renderBricks_used_textures _ _ _ _ Hrun) as Hused end.
  simpl in Hvis, Hused.
  exists rendered. split; [exact Hrun|]. split; [|split; [|split]].
  - destruct (@std_sort_total N N.ltb Hasym Htrans (_usedTextures1 rendered)) as [last Hlast].
    unfold onFrameEnd. eauto.
  - intros last ended [Hsort ->].
    destruct (Hsort (ltb_strict_weak_ordering _)) as [Hperm Hsorted].
    rewrite Hused in Hperm. simpl.
    split; [|split; [exact Hperm|split;
      [|split; [reflexivity|split; [exact Hvis|now rewrite <- app_assoc]]]]].
    + apply sorted_unique with (comp := N.ltb).
      * intros a b _ _ Hab Hba. apply N.ltb_ge in Hab, Hba. lia.
      * eapply perm_trans; [apply Permutation_sym, Hperm|apply insertion_sort_perm].
      * exact Hsorted.
      * apply (@insertion_sort_sorted N N.ltb Hasym Htrans).
    + eapply ordered_pairs_strongly_sorted; [|exact Hsorted].
      intros a b _ _ Hba. simpl in Hba. now apply N.ltb_ge in Hba.
  - rewrite Hvis. apply used_textures_length.
  - apply used_textures_valid.
Qed.

End Frame.

(** Of the bricks 1, 2, 3 the second has no texture: the two draw calls
    read the boxes of the bricks 1 and 3. *)
Lemma draw_calls_read_the_boxes_of_the_visible_nodes_example :
  exists impl' calls,
    onFrameRender 0%N sample_cache (blank two_bricks) [1%N; 2%N; 3%N] = Some impl' /\
    drawArrays impl' = drawArrays (blank two_bricks) ++ calls /\
    map (drawn (createAndFillVertexBuffer (blank two_bricks) [1%N; 2%N; 3%N])) calls
    = map (fun rb => createBrick (getNode two_bricks rb) []) (getVisibleNodes impl').
Proof.
  apply (@draw_calls_read_the_boxes_of_the_visible_nodes 0%N sample_cache
           (blank two_bricks) [1%N; 2%N; 3%N]).
  repeat constructor; unfold cached; vm_compute; discriminate.
Defined.

(** The bricks 3, 2, 1 rendered and the frame ended, without axes: the
    textures 11 and 13 of the bricks 1 and 3 are the textures of the last
    frame, and the quad is drawn after the two bricks. *)
Lemma last_frame_textures_are_sorted_example :
  exists rendered,
    onFrameRender 0%N sample_cache (blank two_bricks) [3%N; 2%N; 1%N] = Some rendered /\
    (exists last ended, onFrameEnd false [] rendered last ended) /\
    (forall last ended, onFrameEnd false [] rendered last ended ->
       last = [11%N; 13%N] /\ _usedTextures1 ended = [] /\
       drawArrays ended = drawArrays rendered ++ [(0, 6)%nat]).
Proof.
  destruct (@last_frame_textures_are_sorted 0%N sample_cache (blank two_bricks)
              [3%N; 2%N; 1%N] false [])
    as (rendered & Hrun & Hex & Hall & _).
  - repeat constructor; unfold cached; vm_compute; discriminate.
  - exists rendered. split; [exact Hrun|]. split; [exact Hex|].
    intros last ended Hend.
    destruct (Hall last ended Hend) as (Hlast & _ & _ & Hclear & _ & Hdraw).
    split; [exact Hlast|]. split; [exact Hclear|exact Hdraw].
Defined.

End FrameFacts.

(** ** Runs of the aggregator *)
Module QueueFacts.

Import Aggregator HistogramFacts AggregatorFacts.

Section Runs.

Variable data_sees_new : nat -> nat -> bool.

Local Abbreviation gather_loop := (gather_loop data_sees_new).
Local Abbreviation gatherHistogram := (gatherHistogram data_sees_new).
Local Abbreviation gatherAll := (gatherAll data_sees_new).
Local Abbreviation states := (states data_sees_new).

(** Every way the loop of [gatherHistogram] ends.  It returns at an entry
    [d], with the entries before [d] as the queue, after sending the
    histogram of a complete [v]: [d] itself, the contribution, or [d] merged
    with the contribution.  Otherwise it leaves the queue as it was, with
    the contribution merged into the entry of its frame, or with the
    contribution put in front of the first entry of an older frame. *)
Lemma gather_loop_cases (c : Config) (vh : ViewHistogram)
    (rest visited : list ViewHistogram) :
  match gather_loop c vh visited rest with
  | Returned s =>
      exists r1 d r2 v,
        rest = r1 ++ d :: r2 /\ histogramQueue s = visited ++ r1 /\
        isComplete v = true /\ config s = send (histogram v) c /\
        (v = d \/ v = vh \/ (id d = id vh /\ v = merge d vh))
  | FellThrough q' =>
      q' = visited ++ rest \/
      (exists r1 d r2,
         rest = r1 ++ d :: r2 /\ id d = id vh /\ isComplete (merge d vh) = false /\
         q' = visited ++ r1 ++ merge d vh :: r2) \/
      (exists r1 d r2,
         rest = r1 ++ d :: r2 /\ (id d < id vh)%N /\
         q' = visited ++ r1 ++ vh :: d :: r2)
  end.
Proof.
  revert visited. induction rest as [|data older IH]; intros visited; simpl.
  - left. now rewrite app_nil_r.
  - destruct (N.eqb_spec (id vh) (id data)) as [Heq|Hne].
    + destruct (isComplete (merge data vh)) eqn:Hm.
      * exists [], data, older, (merge data vh). simpl. rewrite app_nil_r.
        repeat split; auto.
      * right. left. exists [], data, older. simpl. repeat split; auto.
    + destruct (N.ltb_spec (id data) (id vh)) as [Hlt|Hge].
      * match goal with |- context [isComplete ?seen] =>
          destruct (isComplete seen) eqn:Hs end.
        -- match type of Hs with isComplete ?seen = true =>
             exists [], data, older, seen end.
           simpl. rewrite app_nil_r. repeat split; auto.
           destruct (List.length visited); [now left|].
           destruct (data_sees_new _ _); [right; now left|now left].
        -- right. right. exists [], data, older. simpl. repeat split; auto.
      * destruct (isComplete data) eqn:Hd.
        -- exists [], data, older, data. simpl. rewrite app_nil_r. repeat split; auto.
        -- specialize (IH (visited ++ [data])).
           destruct (gather_loop c vh (visited ++ [data]) older) as [s|q'].
           ++ destruct IH as (r1 & d & r2 & v & Hr & Hq & Hv & Hc & Hwho).
              exists (data :: r1), d, r2, v. rewrite Hr, Hq, <- app_assoc.
              repeat split; auto.
           ++ destruct IH as [->|[(r1 & d & r2 & Hr & Hi & Hm & ->)|(r1 & d & r2 & Hr & Hi & ->)]].
              ** left. now rewrite <- app_assoc.
              ** right. left. exists (data :: r1), d, r2. rewrite Hr, <- app_assoc.
                 repeat split; auto.
              ** right. right. exists (data :: r1), d, r2. rewrite Hr, <- app_assoc.
                 repeat split; auto.
Qed.

Lemma removelast_shorter (q : list ViewHistogram) :
  q <> [] -> S (List.length (removelast q)) = List.length q.
Proof.
  intros Hne. rewrite (app_removelast_last (mkViewHistogram [] Float32.zero 0) Hne) at 2.
  rewrite length_app. simpl. lia.
Qed.

Lemma waiting_removelast (q : list ViewHistogram) : waiting q -> waiting (removelast q).
Proof.
  unfold waiting. destruct q as [|x t]; [auto|]. intros Hw.
  assert (Hne : x :: t <> []) by discriminate.
  rewrite (app_removelast_last x Hne) in Hw. now apply Forall_app in Hw.
Qed.

Lemma gather_latency (impl : Impl) (h : Histogram) (a : Float32.float) (currentId : N) :
  getLatency (config (gatherHistogram impl h a currentId)) = getLatency (config impl).
Proof.
  destruct (gather_config data_sees_new impl h a currentId) as [->|(h' & ->)];
    [reflexivity|apply send_latency].
Qed.

(** Whatever one call publishes is the histogram of a complete
    [ViewHistogram]: the contribution itself, an entry of the queue, or the
    entry of the contribution's frame merged with it; and one call
    publishes at most once. *)
Theorem a_call_publishes_at_most_one_complete_histogram (impl : Impl)
    (h : Histogram) (a : Float32.float) (currentId : N) :
  let vh := mkViewHistogram h a currentId in
  let after := gatherHistogram impl h a currentId in
  published (config after) = published (config impl) \/
  exists v,
    isComplete v = true /\
    published (config after) = published (config impl) ++ [histogram v] /\
    getHistogram (config after) = histogram v /\
    (v = vh \/ In v (histogramQueue impl)
     \/ exists d, In d (histogramQueue impl) /\ id d = currentId /\ v = merge d vh).
Proof.
  intros vh after.
  assert (Hsend : forall v c', c' = send (histogram v) (config impl) ->
            published c' = published (config impl) \/
            (published c' = published (config impl) ++ [histogram v]
             /\ getHistogram c' = histogram v)).
  { intros v c' ->. unfold send. destruct (hist_eqb _ _); [now left|right; split; reflexivity]. }
  unfold after, Aggregator.gatherHistogram. destruct (stale _ _); [now left|].
  fold vh.
  pose proof (gather_loop_cases (config impl) vh (histogramQueue impl) []) as Hloop.
  destruct (gather_loop (config impl) vh [] (histogramQueue impl)) as [s|q'].
  - destruct Hloop as (r1 & d & r2 & v & Hq & _ & Hv & Hc & Hwho).
    destruct (Hsend v (config s) Hc) as [Hsame|[Hnew Hset]]; [now left|right].
    exists v. repeat split; auto.
    assert (Hd : In d (histogramQueue impl)).
    { rewrite Hq. apply in_or_app. right. now left. }
    destruct Hwho as [->|[->|[Hid ->]]]; [right; now left|now left|].
    right. right. exists d. repeat split; auto.
  - clear Hloop.
    assert (Hown : isComplete vh = true ->
              published (send h (config impl)) = published (config impl) \/
              exists v, isComplete v = true /\
                published (send h (config impl))
                = published (config impl) ++ [histogram v] /\
                getHistogram (send h (config impl)) = histogram v /\
                (v = vh \/ In v (histogramQueue impl)
                 \/ exists d, In d (histogramQueue impl) /\ id d = currentId
                              /\ v = merge d vh)).
    { intros Hvh.
      destruct (Hsend vh (send h (config impl)) eq_refl) as [Hsame|[Hnew Hset]];
        [now left|right].
      exists vh. repeat split; auto. }
    destruct q' as [|x t]; destruct (isComplete vh) eqn:Hvh; simpl; auto.
    destruct (Nat.ltb _ _); simpl; now left.
Qed.

(** A call never adds a frame other than its own to the queue, never adds
    more than one entry, and never changes the latency. *)
Theorem a_call_adds_at_most_its_own_frame (impl : Impl)
    (h : Histogram) (a : Float32.float) (currentId : N) :
  let after := gatherHistogram impl h a currentId in
  (List.length (histogramQueue after) <= S (List.length (histogramQueue impl)))%nat /\
  incl (map id (histogramQueue after)) (currentId :: map id (histogramQueue impl)) /\
  getLatency (config after) = getLatency (config impl).
Proof.
  intros after.
  assert (Hlat : getLatency (config after) = getLatency (config impl))
    by apply gather_latency.
  split; [|split; [|exact Hlat]]; unfold after, Aggregator.gatherHistogram;
    (destruct (stale _ _); [simpl; auto using incl_tl, incl_refl|]);
    pose proof (gather_loop_cases (config impl) (mkViewHistogram h a currentId)
                  (histogramQueue impl) []) as Hloop;
    destruct (gather_loop _ _ [] (histogramQueue impl)) as [s|q'].
  - destruct Hloop as (r1 & d & r2 & v & Hq & Hs & _). simpl in Hs.
    rewrite Hs, Hq, length_app. simpl. lia.
  - assert (Hlen : (List.length q' <= S (List.length (histogramQueue impl)))%nat).
    { destruct Hloop as [->|[(r1 & d & r2 & Hq & _ & _ & ->)|(r1 & d & r2 & Hq & _ & ->)]];
        simpl; rewrite ?Hq, ?length_app; simpl; lia. }
    destruct q' as [|x t]; destruct (isComplete _); simpl in *; try lia.
    destruct (Nat.ltb _ _); simpl; [|lia].
    assert (Hne : x :: t <> []) by discriminate.
    pose proof (removelast_shorter Hne) as Hr. simpl in Hr. simpl. lia.
  - destruct Hloop as (r1 & d & r2 & v & Hq & Hs & _). simpl in Hs.
    rewrite Hs, Hq, map_app. apply incl_tl. apply incl_appl. apply incl_refl.
  - assert (Hids : incl (map id q') (currentId :: map id (histogramQueue impl))).
    { destruct Hloop as [->|[(r1 & d & r2 & Hq & Hi & _ & ->)|(r1 & d & r2 & Hq & _ & ->)]];
        simpl; rewrite ?Hq, ?map_app; simpl.
      - apply incl_tl, incl_refl.
      - apply incl_tl, incl_refl.
      - intros x Hx. apply in_app_or in Hx. simpl in Hx. simpl.
        rewrite in_app_iff. simpl. tauto. }
    destruct q' as [|x t]; destruct (isComplete _); simpl; auto.
    + intros y [<-|[]]. now left.
    + destruct (Nat.ltb _ _); [|exact Hids].
      assert (Hne : x :: t <> []) by discriminate.
      intros y Hy. apply Hids. rewrite (app_removelast_last x Hne), map_app.
      apply in_or_app. now left.
Qed.

(** One call with a part keeps a queue of waiting entries within the
    latency bound that way. *)
Lemma gather_part_keeps_bound (impl : Impl) (h : Histogram) (a : Float32.float)
    (currentId : N) :
  isComplete (mkViewHistogram h a currentId) = false ->
  waiting (histogramQueue impl) -> within_latency impl ->
  waiting (histogramQueue (gatherHistogram impl h a currentId))
  /\ within_latency (gatherHistogram impl h a currentId).
Proof.
  intros Hvh Hw Hb. unfold within_latency in *.
  rewrite gather_latency.
  unfold Aggregator.gatherHistogram. destruct (stale _ _); [auto|].
  pose proof (gather_loop_cases (config impl) (mkViewHistogram h a currentId)
                (histogramQueue impl) []) as Hloop.
  destruct (gather_loop _ _ [] (histogramQueue impl)) as [s|q'].
  - destruct Hloop as (r1 & d & r2 & v & Hq & Hs & _). simpl in Hs.
    rewrite Hs. rewrite Hq in Hw, Hb. unfold waiting in *.
    apply Forall_app in Hw. rewrite length_app in Hb. split; [tauto|lia].
  - assert (Hq' : waiting q'
              /\ (List.length q' <= S (List.length (histogramQueue impl)))%nat).
    { unfold waiting in *.
      destruct Hloop as [->|[(r1 & d & r2 & Hq & _ & Hm & ->)|(r1 & d & r2 & Hq & _ & ->)]];
        simpl; [auto| |]; rewrite Hq in Hw |- *;
        apply Forall_app in Hw; destruct Hw as [H1 H2];
        inversion H2; subst; rewrite ?length_app; simpl; (split; [|lia]).
      - apply Forall_app. split; [auto|]. constructor; auto.
      - apply Forall_app. split; [auto|]. constructor; auto. }
    destruct Hq' as [Hw' Hlen].
    destruct q' as [|x t]; rewrite Hvh; simpl.
    + split; [repeat constructor; exact Hvh|lia].
    + destruct (Nat.ltb_spec (getLatency (config impl) + 1) (S (List.length t))) as [Hlt|Hge];
        simpl.
      * split; [now apply (waiting_removelast Hw')|].
        assert (Hne : x :: t <> []) by discriminate.
        pose proof (removelast_shorter Hne) as Hr. simpl in *. lia.
      * split; [exact Hw'|]. simpl in *. lia.
Qed.

(** What holds of the aggregator after any run of parts from the initial
    state. *)
Lemma parts_run_invariant (latency : nat) (arrivals : list Contribution) :
  forallb is_part arrivals = true ->
  let s := gatherAll (initial latency) arrivals in
  waiting (histogramQueue s) /\ within_latency s /\
  getLatency (config s) = latency /\ descending (histogramQueue s).
Proof.
  intros Hparts. cbv zeta. unfold Aggregator.gatherAll.
  assert (Hinit : waiting (histogramQueue (initial latency))
                  /\ within_latency (initial latency)
                  /\ getLatency (config (initial latency)) = latency
                  /\ descending (histogramQueue (initial latency))).
  { unfold waiting, within_latency, descending. simpl.
    repeat split; [constructor|lia|constructor]. }
  revert Hinit. generalize (initial latency).
  induction arrivals as [|[[h a] i] t IH]; intros impl (Hw & Hb & Hl & Hd).
  - simpl. auto.
  - simpl in Hparts. apply andb_true_iff in Hparts. destruct Hparts as [Hp Ht].
    apply negb_true_iff in Hp. simpl. apply IH; [exact Ht|].
    destruct (@gather_part_keeps_bound impl h a i Hp Hw Hb) as [Hw' Hb'].
    split; [exact Hw'|]. split; [exact Hb'|]. split.
    + rewrite gather_latency. exact Hl.
    + now apply gather_keeps_queue_descending.
Qed.

(** From the initial state on, as long as no contribution is complete by
    itself, the queue never holds more than [latency + 1] entries and never
    holds a complete one. *)
Theorem parts_keep_the_queue_within_latency (latency : nat)
    (arrivals : list Contribution)
    (Hparts : forallb is_part arrivals = true) :
  (List.length (histogramQueue (gatherAll (initial latency) arrivals)) <= latency + 1)%nat /\
  Forall (fun data => isComplete data = false)
    (histogramQueue (gatherAll (initial latency) arrivals)).
Proof.
  destruct (parts_run_invariant latency arrivals Hparts) as (Hw & Hb & Hl & _).
  unfold within_latency in Hb. rewrite Hl in Hb. split; [exact Hb|exact Hw].
Qed.

(** After a run of parts, a contribution to a frame of the queue is always
    merged into the entry of that frame: if that completes the entry, it is
    published and the queue is cut before it; otherwise it replaces the
    entry, and nothing is dropped. *)
Theorem parts_of_queued_frames_are_merged (latency : nat)
    (arrivals : list Contribution) (newer older : list ViewHistogram)
    (e : ViewHistogram) (h : Histogram) (a : Float32.float)
    (Hparts : forallb is_part arrivals = true)
    (Hqueue : histogramQueue (gatherAll (initial latency) arrivals) = newer ++ e :: older) :
  let s := gatherAll (initial latency) arrivals in
  let vh := mkViewHistogram h a (id e) in
  let after := gatherHistogram s h a (id e) in
  (isComplete (merge e vh) = true ->
     after = mkImpl (send (histogram (merge e vh)) (config s)) newer) /\
  (isComplete (merge e vh) = false ->
     after = mkImpl (if isComplete vh then send h (config s) else config s)
                    (newer ++ merge e vh :: older)).
Proof.
  intros s vh after.
  destruct (parts_run_invariant latency arrivals Hparts) as (Hw & Hb & Hl & Hd).
  fold s in Hw, Hb, Hl, Hd, Hqueue. unfold within_latency in Hb.
  rewrite Hqueue in Hw, Hb, Hd.
  assert (Hnewer : Forall (passed_over (id e)) newer).
  { unfold waiting in Hw. apply Forall_app in Hw. destruct Hw as [Hw _].
    unfold descending in Hd. rewrite map_app in Hd. apply sorted_app in Hd.
    destruct Hd as (_ & _ & Hc). rewrite Forall_map in Hc.
    rewrite Forall_forall in *. intros d Hin. split; [|now apply Hw].
    specialize (Hc d Hin). simpl in Hc. now apply Forall_inv in Hc. }
  pose proof (descending_not_stale _ _ _ Hd) as Hstale.
  pose proof (@gather_merges data_sees_new (config s) newer older e h a Hnewer Hstale) as Hm.
  cbv zeta in Hm. fold vh in Hm.
  subst after. clearbody s. destruct s as [c q]. simpl in Hqueue. subst q.
  cbn [config] in *. rewrite Hm.
  split; intros Hc; rewrite Hc; [reflexivity|].
  destruct (isComplete vh); [reflexivity|].
  rewrite length_app in *. simpl in *.
  destruct (Nat.ltb_spec (getLatency c + 1)
              (List.length newer + S (List.length older))) as [Hlt|Hge];
    [lia|reflexivity].
Qed.

Lemma descending_newer_not_stale (newer older : list ViewHistogram)
    (d : ViewHistogram) (currentId : N) :
  descending (newer ++ d :: older) -> (id d < currentId)%N ->
  stale (newer ++ d :: older) currentId = false.
Proof.
  unfold descending, stale. rewrite map_app, back_behind. intros Hs Hlt.
  apply sorted_app in Hs. destruct Hs as (_ & He & _). simpl in He.
  apply StronglySorted_inv in He. destruct He as [_ Holder].
  destruct (back (d :: older)) as [b|] eqn:Hb; [|reflexivity].
  apply N.ltb_ge. apply back_in in Hb. destruct Hb as [<-|Hin]; [lia|].
  rewrite Forall_map, Forall_forall in Holder. apply Holder in Hin. lia.
Qed.

(** A part of a frame that is not in the queue yet, newer than some entry:
    it is put in before the first older entry, whatever the deque does to
    the reference into it, nothing is published, and if the queue then
    holds more than [latency + 1] entries its last one is dropped. *)
Theorem new_frame_is_inserted_in_order (c : Config) (newer older : list ViewHistogram)
    (d : ViewHistogram) (h : Histogram) (a : Float32.float) (currentId : N)
    (Hdesc : descending (newer ++ d :: older))
    (Hwait : waiting (newer ++ d :: older))
    (Hnewer : Forall (fun x => (currentId < id x)%N) newer)
    (Holder : (id d < currentId)%N)
    (Hpart : isComplete (mkViewHistogram h a currentId) = false) :
  let q' := newer ++ mkViewHistogram h a currentId :: d :: older in
  gatherHistogram (mkImpl c (newer ++ d :: older)) h a currentId =
    mkImpl c (if Nat.ltb (getLatency c + 1) (List.length q') then removelast q' else q')
  /\ descending q'.
Proof.
  intros q'. split.
  - unfold Aggregator.gatherHistogram. simpl histogramQueue. simpl config.
    rewrite (descending_newer_not_stale _ _ _ Hdesc Holder).
    assert (Hpass : Forall (passed_over (id (mkViewHistogram h a currentId))) newer).
    { unfold waiting in Hwait. apply Forall_app in Hwait. destruct Hwait as [Hw _].
      rewrite Forall_forall in *. intros x Hin. split; [now apply Hnewer|now apply Hw]. }
    rewrite (@gather_loop_passes data_sees_new c _ newer [] (d :: older) Hpass).
    assert (Hd : isComplete d = false).
    { unfold waiting in Hwait. apply Forall_app in Hwait. destruct Hwait as [_ Hw].
      now inversion Hw. }
    simpl. destruct (N.eqb_spec currentId (id d)) as [Heq|_]; [lia|].
    destruct (N.ltb_spec (id d) currentId) as [_|Hge]; [|lia].
    assert (Hseen : forall b : bool,
              isComplete (if b then mkViewHistogram h a currentId else d) = false)
      by (intros []; assumption).
    rewrite Hseen. fold q'.
    assert (Hq' : exists x t, q' = x :: t).
    { unfold q'. destruct newer; simpl; eauto. }
    destruct Hq' as (x & t & Hq'). rewrite Hq'. rewrite Hpart. 
    destruct (Nat.ltb _ _); reflexivity.
  - unfold descending in *. unfold q'. rewrite map_app in *. simpl in *.
    apply sorted_app in Hdesc. destruct Hdesc as (H1 & H2 & Hc).
    apply sorted_app. split; [exact H1|]. split.
    + constructor; [exact H2|]. constructor; [lia|].
      apply StronglySorted_inv in H2. destruct H2 as [_ H2].
      eapply Forall_impl; [|exact H2]. simpl. intros; lia.
    + rewrite Forall_map in *. rewrite Forall_forall in *. intros x Hin.
      constructor; [now apply Hnewer|now apply Hc].
Qed.

(** A complete entry at the front of the queue: the next contribution to
    any other frame that is not older than the back of the queue sends that
    entry's histogram (set and published unless the configuration holds it
    already) and empties the queue; the contribution itself is neither
    queued nor published. *)
Theorem complete_front_entry_empties_the_queue (c : Config)
    (d : ViewHistogram) (older : list ViewHistogram)
    (h : Histogram) (a : Float32.float) (currentId : N)
    (Hcomplete : isComplete d = true)
    (Hother : currentId <> id d)
    (Hfresh : stale (d :: older) currentId = false) :
  gatherHistogram (mkImpl c (d :: older)) h a currentId
  = mkImpl (send (histogram d) c) [].
Proof.
  unfold Aggregator.gatherHistogram. simpl histogramQueue. simpl config.
  rewrite Hfresh. simpl.
  destruct (N.eqb_spec currentId (id d)) as [Heq|_]; [contradiction|].
  rewrite Hcomplete. destruct (N.ltb (id d) currentId); reflexivity.
Qed.

Lemma gather_frames (impl : Impl) (h : Histogram) (a : Float32.float) (currentId : N) :
  incl (map id (histogramQueue (gatherHistogram impl h a currentId)))
       (currentId :: map id (histogramQueue impl)).
Proof.
  unfold Aggregator.gatherHistogram.
  destruct (stale _ _); [simpl; auto using incl_tl, incl_refl|].
  pose proof (gather_loop_cases (config impl) (mkViewHistogram h a currentId)
                (histogramQueue impl) []) as Hloop.
  destruct (gather_loop _ _ [] (histogramQueue impl)) as [s|q'].
  - destruct Hloop as (r1 & d & r2 & v & Hq & Hs & _). simpl in Hs.
    rewrite Hs, Hq, map_app. apply incl_tl. apply incl_appl. apply incl_refl.
  - assert (Hids : incl (map id q') (currentId :: map id (histogramQueue impl))).
    { destruct Hloop as [->|[(r1 & d & r2 & Hq & Hi & _ & ->)|(r1 & d & r2 & Hq & _ & ->)]];
        simpl; rewrite ?Hq, ?map_app; simpl.
      - apply incl_tl, incl_refl.
      - apply incl_tl, incl_refl.
      - intros x Hx. apply in_app_or in Hx. simpl in Hx. simpl.
        rewrite in_app_iff. simpl. tauto. }
    destruct q' as [|x t]; destruct (isComplete _); simpl; auto.
    + intros y [<-|[]]. now left.
    + destruct (Nat.ltb _ _); [|exact Hids].
      assert (Hne : x :: t <> []) by discriminate.
      intros y Hy. apply Hids. rewrite (app_removelast_last x Hne), map_app.
      apply in_or_app. now left.
Qed.

Lemma back_of_queue (q : list ViewHistogram) : q <> [] -> exists b, back q = Some b.
Proof.
  induction q as [|x t IH]; [congruence|]. intros _.
  destruct t as [|y t']; [now exists x|]. apply IH. discriminate.
Qed.

(** Behind a queue of newer frames a contribution is older than the back of
    the queue, and is dropped. *)
Lemma gather_behind_newer (impl : Impl) (h : Histogram) (a : Float32.float) (frame : N) :
  histogramQueue impl <> [] ->
  Forall (fun d => (frame < id d)%N) (histogramQueue impl) ->
  gatherHistogram impl h a frame = impl.
Proof.
  intros Hne Hnewer. unfold Aggregator.gatherHistogram, stale.
  destruct (back_of_queue Hne) as [b Hb]. rewrite Hb.
  apply back_in in Hb. rewrite Forall_forall in Hnewer.
  now rewrite (proj2 (N.ltb_lt frame (id b)) (Hnewer b Hb)).
Qed.

(** A call that is not for [frame] leaves a queue of frames newer than
    [frame] such a queue. *)
Lemma gather_keeps_newer (impl : Impl) (h : Histogram) (a : Float32.float)
    (currentId frame : N) :
  histogramQueue impl <> [] ->
  Forall (fun d => (frame < id d)%N) (histogramQueue impl) ->
  Forall (fun d => (frame < id d)%N)
         (histogramQueue (gatherHistogram impl h a currentId)).
Proof.
  intros Hne Hnewer.
  destruct (N.ltb_spec frame currentId) as [Hlt|Hge].
  - pose proof (gather_frames impl h a currentId) as Hids.
    rewrite Forall_forall in *. intros d Hd.
    assert (Hin : In (id d) (currentId :: map id (histogramQueue impl)))
      by (apply Hids; now apply in_map).
    destruct Hin as [<-|Hin]; [exact Hlt|].
    apply in_map_iff in Hin. destruct Hin as (d' & <- & Hd'). now apply Hnewer.
  - assert (Hsame : gatherHistogram impl h a currentId = impl).
    { unfold Aggregator.gatherHistogram, stale.
      destruct (back_of_queue Hne) as [b Hb]. rewrite Hb.
      apply back_in in Hb. rewrite Forall_forall in Hnewer.
      specialize (Hnewer b Hb).
      now rewrite (proj2 (N.ltb_lt currentId (id b)) ltac:(lia)). }
    now rewrite Hsame.
Qed.

Lemma states_cons (impl : Impl) (h : Histogram) (a : Float32.float) (i : N)
    (later : list Contribution) :
  states impl ((h, a, i) :: later) = impl :: states (gatherHistogram impl h a i) later.
Proof. reflexivity. Qed.

(** C6, as the code has it: once a frame was completed by a merge while
    entries of newer frames are queued, a later part for that frame is
    dropped, and publishes nothing, whenever it arrives before the queue
    has been empty: whatever arrives for other frames in between, the run
    is the run without the late parts.  (Once the queue has been empty, a
    late part starts the frame anew.) *)
Theorem late_parts_are_ignored_until_the_queue_is_empty (c : Config)
    (newer older : list ViewHistogram) (e : ViewHistogram) (h : Histogram)
    (a : Float32.float) (later : list Contribution) :
  let after := gatherHistogram (mkImpl c (newer ++ e :: older)) h a (id e) in
  Forall (passed_over (id e)) newer ->
  stale (newer ++ e :: older) (id e) = false ->
  isComplete (merge e (mkViewHistogram h a (id e))) = true ->
  Forall (fun s => histogramQueue s <> []) (states after later) ->
  histogramQueue after = newer /\
  Forall (fun s => forall h' a', gatherHistogram s h' a' (id e) = s)
         (states after later) /\
  gatherAll after later
  = gatherAll after (filter (fun x => negb (N.eqb (snd x) (id e))) later).
Proof.
  intros after Hn Hs Hm Hwait.
  assert (Hq : histogramQueue after = newer).
  { unfold after. rewrite (@gather_merges data_sees_new c newer older e h a Hn Hs).
    cbv zeta. now rewrite Hm. }
  split; [exact Hq|].
  assert (Hnewer : Forall (fun d => (id e < id d)%N) (histogramQueue after)).
  { rewrite Hq. eapply Forall_impl; [|exact Hn]. intros d Hd. apply Hd. }
  clearbody after. clear Hq Hn Hs Hm.
  revert after Hwait Hnewer. induction later as [|[[h' a'] i] t IH];
    intros s Hwait Hnewer.
  - inversion Hwait as [|? ? Hne _]; subst. split; [|reflexivity].
    constructor; [|constructor]. intros h' a'. now apply gather_behind_newer.
  - rewrite states_cons in Hwait |- *.
    inversion Hwait as [|? ? Hne Hrest]; subst.
    cbn [filter snd]. unfold Aggregator.gatherAll. cbn [fold_left Aggregator.gather].
    assert (Hlate : forall h0 a0, gatherHistogram s h0 a0 (id e) = s)
      by (intros; now apply gather_behind_newer).
    destruct (N.eqb_spec i (id e)) as [->|Hother]; cbn [negb].
    + rewrite Hlate in Hrest |- *.
      destruct (IH s Hrest Hnewer) as [Hall Hrun].
      split; [constructor; [exact Hlate|exact Hall]|exact Hrun].
    + cbn [fold_left Aggregator.gather].
      assert (Hnewer' : Forall (fun d => (id e < id d)%N)
                               (histogramQueue (gatherHistogram s h' a' i)))
        by now apply gather_keeps_newer.
      destruct (IH _ Hrest Hnewer') as [Hall Hrun].
      split; [constructor; [exact Hlate|exact Hall]|exact Hrun].
Qed.

End Runs.

(** Frame 7 is completed while frame 9 is queued; halves of frame 7 that
    arrive afterwards, also behind a part of frame 11, change nothing. *)
Lemma late_parts_are_ignored_until_the_queue_is_empty_example :
  let c := mkConfig [] 2 [] in
  let nine := mkViewHistogram h2 Float32.quarter 9 in
  let seven := mkViewHistogram h1 Float32.half 7 in
  let after := gatherHistogram libstdcxx_deque (mkImpl c [nine; seven]) h1 Float32.half 7 in
  histogramQueue after = [nine] /\
  run after [(h2, Float32.half, 7%N); (h1, Float32.quarter, 11%N); (h2, Float32.half, 7%N)]
  = run after [(h1, Float32.quarter, 11%N)].
Proof.
  destruct (@late_parts_are_ignored_until_the_queue_is_empty libstdcxx_deque
              (mkConfig [] 2 []) [mkViewHistogram h2 Float32.quarter 9] []
              (mkViewHistogram h1 Float32.half 7) h1 Float32.half
              [(h2, Float32.half, 7%N); (h1, Float32.quarter, 11%N); (h2, Float32.half, 7%N)])
    as (Hq & _ & Hrun).
  - repeat constructor.
  - reflexivity.
  - reflexivity.
  - vm_compute. repeat constructor; discriminate.
  - split; [exact Hq|exact Hrun].
Defined.

(** Quarters of the frames 1 to 4 with a latency of 1. *)
Lemma parts_keep_the_queue_within_latency_example :
  let s := run (initial 1)
             [(h1, Float32.quarter, 1%N); (h2, Float32.quarter, 2%N);
              (h1, Float32.quarter, 3%N); (h2, Float32.quarter, 4%N)] in
  (List.length (histogramQueue s) <= 2)%nat /\
  Forall (fun data => isComplete data = false) (histogramQueue s).
Proof.
  apply (@parts_keep_the_queue_within_latency libstdcxx_deque 1
           [(h1, Float32.quarter, 1%N); (h2, Float32.quarter, 2%N);
            (h1, Float32.quarter, 3%N); (h2, Float32.quarter, 4%N)]).
  reflexivity.
Defined.

(** A second quarter of frame 7 behind a quarter of frame 9. *)
Lemma parts_of_queued_frames_are_merged_example :
  let nine := mkViewHistogram h2 Float32.quarter 9 in
  let seven := mkViewHistogram h1 Float32.quarter 7 in
  let s := run (initial 2) [(h1, Float32.quarter, 7%N); (h2, Float32.quarter, 9%N)] in
  gatherHistogram libstdcxx_deque s h2 Float32.quarter 7
  = mkImpl (config s) [nine; merge seven (mkViewHistogram h2 Float32.quarter 7)].
Proof.
  apply (@parts_of_queued_frames_are_merged libstdcxx_deque 2
           [(h1, Float32.quarter, 7%N); (h2, Float32.quarter, 9%N)]
           [mkViewHistogram h2 Float32.quarter 9] []
           (mkViewHistogram h1 Float32.quarter 7) h2 Float32.quarter);
    reflexivity.
Defined.

(** A quarter of frame 8 between quarters of the frames 9 and 7, with a
    latency of 1: frame 7 is dropped. *)
Lemma new_frame_is_inserted_in_order_example :
  let c := mkConfig [] 1 [] in
  let nine := mkViewHistogram h2 Float32.quarter 9 in
  let seven := mkViewHistogram h1 Float32.quarter 7 in
  gatherHistogram libstdcxx_deque (mkImpl c [nine; seven]) h1 Float32.quarter 8
  = mkImpl c [nine; mkViewHistogram h1 Float32.quarter 8].
Proof.
  apply (@new_frame_is_inserted_in_order libstdcxx_deque (mkConfig [] 1 [])
           [mkViewHistogram h2 Float32.quarter 9] []
           (mkViewHistogram h1 Float32.quarter 7) h1 Float32.quarter 8).
  - unfold descending. simpl. repeat constructor.
  - repeat constructor.
  - repeat constructor.
  - reflexivity.
  - reflexivity.
Defined.

(** A complete frame 9 in front of a quarter of frame 7, and a quarter of
    frame 8 arriving. *)
Lemma complete_front_entry_empties_the_queue_example :
  let c := mkConfig [] 2 [] in
  let nine := mkViewHistogram h1 Float32.one 9 in
  let seven := mkViewHistogram h2 Float32.quarter 7 in
  gatherHistogram libstdcxx_deque (mkImpl c [nine; seven]) h2 Float32.quarter 8
  = mkImpl (mkConfig h1 2 [h1]) [].
Proof.
  apply (@complete_front_entry_empties_the_queue libstdcxx_deque (mkConfig [] 2 [])
           (mkViewHistogram h1 Float32.one 9) [mkViewHistogram h2 Float32.quarter 7]
           h2 Float32.quarter 8).
  - reflexivity.
  - discriminate.
  - reflexivity.
Defined.

End QueueFacts.
